(** * Conversation-history engine of the tool-using agent

    A shallow embedding of the conversation-state logic exercised by
    [backend/tests/test_multi_turn.py] (class [DirectAgentSimulator] and
    the oracle [validate_message_sequence]) and by
    [backend/tests/test_e2e_multi_turn.py] (class [E2EConversationEngine]),
    followed by the properties of the ledger, the validator, the turn
    orchestrator and the retention trimmer.

    Python values are modelled as follows.
    - [str] is a list of Unicode code points, so that [len] counts what
      Python's [len] counts;
    - [int] is [Z]; list positions produced by [enumerate] are [nat];
    - an [Optional] field is an [option];
    - a raised exception is the [Raise] outcome of a state-and-error monad
      whose state holds the agent's [conversation_history] and the state of
      the external collaborators. *)

From Stdlib Require Import ZArith NArith Ascii String Lia.
From stdpp Require Import base list gmap.

Local Open Scope Z_scope.

(** ** Python primitives *)

Module Py.

Definition char := N.
Definition str := list char.

(** An ASCII literal as a [str]. *)
Definition lit (s : string) : str :=
  map N_of_ascii (list_ascii_of_string s).

(** [len(s)] *)
Definition len {A} (l : list A) : Z := Z.of_nat (length l).

(** Truth value of a list ([if l:]) and of an optional list. *)
Definition truthy {A} (l : list A) : bool :=
  match l with [] => false | _ :: _ => true end.

Definition truthy_opt {A} (o : option (list A)) : bool :=
  match o with None => false | Some l => truthy l end.

(** [o or ""] *)
Definition or_empty (o : option str) : str :=
  match o with
  | None => []
  | Some s => if truthy s then s else []
  end.

(** [l[i]] with Python's negative indices; [None] stands for IndexError. *)
Definition index {A} (l : list A) (i : Z) : option A :=
  let n := len l in
  if (0 <=? i) && (i <? n) then l !! Z.to_nat i
  else if (- n <=? i) && (i <? 0) then l !! Z.to_nat (n + i)
  else None.

(** [str.isspace] on one code point: the characters Python's [str.strip()]
    removes. *)
Definition isspace (c : char) : bool :=
  let c := Z.of_N c in
  ((9 <=? c) && (c <=? 13)) || ((28 <=? c) && (c <=? 32))
  || (c =? 133) || (c =? 160) || (c =? 5760)
  || ((8192 <=? c) && (c <=? 8202))
  || (c =? 8232) || (c =? 8233) || (c =? 8239) || (c =? 8287)
  || (c =? 12288).

Fixpoint lstrip (s : str) : str :=
  match s with
  | [] => []
  | c :: s' => if isspace c then lstrip s' else s
  end.

(** [s.strip()] *)
Definition strip (s : str) : str := rev (lstrip (rev (lstrip s))).

(** [[(0, x0), (1, x1), ...]], the pairs [enumerate(l)] yields. *)
Fixpoint enumerate_from {A} (i : nat) (l : list A) : list (nat * A) :=
  match l with
  | [] => []
  | x :: l' => (i, x) :: enumerate_from (S i) l'
  end.

Definition enumerate {A} (l : list A) : list (nat * A) := enumerate_from 0 l.

End Py.

Import Py.

(** ** Data model *)

(** One entry of a completion's [tool_calls] list:
    [{"id": .., "type": "function", "function": {"name": .., "arguments": ..}}]
    as built by [build_tool_call]. *)
Record ToolCall := {
  tc_id : str;
  tc_name : str;
  tc_arguments : str
}.

(** Modelled from the spec: [LLMMessage] is declared in [llm.provider], which
    is not among the sources; its fields are the ones the code reads and
    writes ([role], [content], [tool_calls], [tool_call_id]), the last three
    optional as the uses [m.content or ""] and [LLMMessage(role=.., content=..)]
    show. *)
Record LLMMessage := {
  role : str;
  content : option str;
  tool_calls : option (list ToolCall);
  tool_call_id : option str
}.

Definition SYSTEM : str := Eval cbv in lit "system".
Definition USER : str := Eval cbv in lit "user".
Definition ASSISTANT : str := Eval cbv in lit "assistant".
Definition TOOL : str := Eval cbv in lit "tool".

(** [LLMMessage(role=r, content=c)] *)
Definition plain_message (r : str) (c : str) : LLMMessage :=
  {| role := r; content := Some c; tool_calls := None; tool_call_id := None |}.

Definition is_user (m : LLMMessage) : bool := bool_decide (role m = USER).
Definition is_assistant (m : LLMMessage) : bool := bool_decide (role m = ASSISTANT).
Definition is_tool (m : LLMMessage) : bool := bool_decide (role m = TOOL).

(** [len(m.content or "")] *)
Definition content_len (m : LLMMessage) : Z := len (or_empty (content m)).

(** [sum(len(m.content or "") for m in l)] *)
Definition sum_chars (l : list LLMMessage) : Z :=
  foldr (fun m acc => content_len m + acc) 0 l.

(** [count_rounds]: the number of user messages. *)
Definition count_rounds (history : list LLMMessage) : nat :=
  length (filter (fun m => is_user m = true) history).

(** Raised exceptions: Python's IndexError, and whatever an external
    collaborator raises, identified by a description. *)
Inductive exn :=
| IndexError
| CollaboratorError (description : str).

Inductive outcome (A : Type) :=
| Ok (a : A)
| Raise (e : exn).
Arguments Ok {A} a.
Arguments Raise {A} e.

(** ** Tool-chain validator ([validate_message_sequence]) *)

(** The two error strings the validator can append, with the values they
    interpolate. *)
Inductive violation :=
| FirstNotUser (actual_role : str)
| ToolWithoutAssistant (i : nat).

(** The inner loop [for j in range(i-1, -1, -1)]: [before] lists
    [history[i-1]], [history[i-2]], ..., [history[0]]; the result is
    [found_tc]. *)
Fixpoint scan_back (before : list LLMMessage) : bool :=
  match before with
  | [] => false
  | m :: before' =>
      if is_assistant m && truthy_opt (tool_calls m) then true
      else if is_user m then false
      else scan_back before'
  end.

Definition validate_message_sequence (history : list LLMMessage) : list violation :=
  match history with
  | [] => []
  | first :: _ =>
      (if bool_decide (role first = USER) then []
       else [FirstNotUser (role first)])
      ++ flat_map
           (fun '(i, msg) =>
              if is_tool msg then
                if scan_back (rev (take i history)) then []
                else [ToolWithoutAssistant i]
              else [])
           (enumerate history)
  end.

(** ** Retention trimmer *)

(** [[i for i, m in enumerate(history) if m.role == "user"]] *)
Definition round_starts (history : list LLMMessage) : list nat :=
  map fst (filter (fun p => is_user p.2 = true) (enumerate history)).

(** The round trim shared by both engines:
    [if len(round_starts) > max_rounds: trim_from = round_starts[-max_rounds]; ...].
    Returns the new history and the new [round_starts]. *)
Definition round_trim (max_rounds : Z) (history : list LLMMessage)
    (starts : list nat) : outcome (list LLMMessage * list nat) :=
  if len starts >? max_rounds then
    match index starts (- max_rounds) with
    | None => Raise IndexError
    | Some trim_from =>
        let history := drop trim_from history in
        Ok (history, round_starts history)
    end
  else Ok (history, starts).

(** The budget loop
    [while total_chars > MAX and len(round_starts) > 2: ...], as a function
    of its three loop variables.  [fuel] bounds the number of iterations;
    [budget_trim] supplies enough of it ([budget_loop_exit]). *)
Fixpoint budget_loop (fuel : nat) (max_chars : Z) (history : list LLMMessage)
    (total_chars : Z) (starts : list nat) : list LLMMessage * Z * list nat :=
  match fuel with
  | O => (history, total_chars, starts)
  | S fuel =>
      if (total_chars >? max_chars) && (len starts >? 2) then
        let next_round_start :=
          if len starts >? 1 then default O (starts !! 1%nat)
          else length history in
        let removed_chars := sum_chars (take next_round_start history) in
        let history := drop next_round_start history in
        budget_loop fuel max_chars history (total_chars - removed_chars)
          (round_starts history)
      else (history, total_chars, starts)
  end.

Definition budget_trim (max_chars : Z) (history : list LLMMessage)
    (starts : list nat) : list LLMMessage :=
  (budget_loop (length history) max_chars history (sum_chars history) starts).1.1.

Definition MAX_HISTORY_CHARS : Z := 24000.

(** The trimmer with both bounds as arguments; the two engines fix the byte
    budget to 24000. *)
Definition trim (history : list LLMMessage) (max_rounds max_chars : Z)
    : outcome (list LLMMessage) :=
  match round_trim max_rounds history (round_starts history) with
  | Raise e => Raise e
  | Ok (history, starts) => Ok (budget_trim max_chars history starts)
  end.

(** [DirectAgentSimulator._trim_conversation_history] *)
Definition _trim_conversation_history (max_rounds : Z)
    (conversation_history : list LLMMessage) : outcome (list LLMMessage) :=
  if negb (truthy conversation_history) then Ok conversation_history
  else trim conversation_history max_rounds MAX_HISTORY_CHARS.

(** [E2EConversationEngine._trim_history] *)
Definition _trim_history (max_rounds : Z)
    (conversation_history : list LLMMessage) : outcome (list LLMMessage) :=
  trim conversation_history max_rounds MAX_HISTORY_CHARS.

(** ** State-and-error monad *)

Section Monad.
Context {S : Type}.

Definition M (A : Type) : Type := S -> outcome A * S.

Definition ret {A} (a : A) : M A := fun s => (Ok a, s).

Definition bind {A B} (c : M A) (k : A -> M B) : M B :=
  fun s =>
    match c s with
    | (Ok a, s') => k a s'
    | (Raise e, s') => (Raise e, s')
    end.

Definition raise {A} (e : exn) : M A := fun s => (Raise e, s).

Definition get : M S := fun s => (Ok s, s).

Definition put (s : S) : M unit := fun _ => (Ok tt, s).

(** [for x in l: body x] *)
Fixpoint for_each {A} (l : list A) (body : A -> M unit) : M unit :=
  match l with
  | [] => ret tt
  | x :: l' => bind (body x) (fun _ => for_each l' body)
  end.
End Monad.

Arguments M : clear implicits.

Notation "'let*' x := c 'in' k" := (bind c (fun x => k))
  (at level 10, x pattern, c at level 100, k at level 200,
   format "'[v' 'let*'  x  :=  c  'in' '/' k ']'").
Notation "c ;; k" := (bind c (fun _ => k))
  (at level 100, k at level 200, right associativity).

(** ** External collaborators *)

(** The dictionary a completion returns: [content] and [tool_calls]
    ([finish_reason] is never read). *)
Record Response := {
  resp_content : option str;
  resp_tool_calls : option (list ToolCall)
}.

(** [MockSkillResult], the shape of a skill execution's result. *)
Record SkillResult := {
  success : bool;
  result : str;
  summary : str;
  error : option str
}.

(** The completion interface ([LLMProvider.chat_complete], and the stream
    [LLMProvider.chat], taken as the list of its chunks) and the capability
    interface ([execute_skill], [get_tool_definitions]), over the state [W]
    of the outside world.  A completion may raise; a skill execution reports
    failure through [success = false]. *)
Class Collaborators (W : Type) := {
  tool_definition : Type;
  chat_complete :
    list LLMMessage -> option (list tool_definition) -> W -> outcome Response * W;
  chat : list LLMMessage -> W -> outcome (list str) * W;
  execute_skill : str -> W -> SkillResult * W;
  get_tool_definitions : W -> list tool_definition
}.

(** "执行失败" *)
Definition EXECUTION_FAILED : str := [25191; 34892; 22833; 36133]%N.
(** "无结果" *)
Definition NO_RESULT : str := [26080; 32467; 26524]%N.
(** "你是一个AI助手，正处于多轮对话中。" *)
Definition SYSTEM_PROMPT : str :=
  [20320; 26159; 19968; 20010; 65; 73; 21161; 25163; 65292; 27491; 22788;
   20110; 22810; 36718; 23545; 35805; 20013; 12290]%N.
(** The truncation notice, a newline followed by "...(结果已截取前1500字符)". *)
Definition TRUNCATION_MARKER : str :=
  [10; 46; 46; 46; 40; 32467; 26524; 24050; 25130; 21462; 21069; 49; 53; 48;
   48; 23383; 31526; 41]%N.

(** [result.result if result.success else (result.error or "执行失败")] *)
Definition skill_text (r : SkillResult) : str :=
  if success r then result r
  else if truthy (or_empty (error r)) then or_empty (error r)
       else EXECUTION_FAILED.

(** ** The turn orchestrator: [DirectAgentSimulator] *)

Module DirectAgentSimulator.
Section WithCollaborators.
Context {W : Type} `{Collaborators W}.

Record t := {
  conversation_history : list LLMMessage;
  world : W
}.

Definition with_world (s : t) (w : W) : t :=
  {| conversation_history := conversation_history s; world := w |}.

(** A call to a collaborator: it can change the world, not the agent. *)
Definition call {A} (f : W -> outcome A * W) : M t A :=
  fun s => let '(r, w) := f (world s) in (r, with_world s w).

Definition call_total {A} (f : W -> A * W) : M t A :=
  call (fun w => let '(a, w') := f w in (Ok a, w')).

(** [self.conversation_history.append(msg)] *)
Definition append_history (msg : LLMMessage) : M t unit :=
  fun s =>
    (Ok tt, {| conversation_history := conversation_history s ++ [msg];
               world := world s |}).

Definition set_history (h : list LLMMessage) : M t unit :=
  fun s => (Ok tt, {| conversation_history := h; world := world s |}).

(** [LLMMessage(role="tool", content=str(tool_result_str) if tool_result_str
    else "无结果", tool_call_id=tool_call_id)] *)
Definition tool_message (tool_call_id : str) (tool_result_str : str)
    : LLMMessage :=
  {| role := TOOL;
     content := Some (if truthy tool_result_str then tool_result_str
                      else NO_RESULT);
     tool_calls := None;
     tool_call_id := Some tool_call_id |}.

(** [LLMMessage(role="assistant", content=content or "", tool_calls=tool_calls)] *)
Definition assistant_tool_message (content : option str)
    (tool_calls : option (list ToolCall)) : LLMMessage :=
  {| role := ASSISTANT;
     content := Some (or_empty content);
     tool_calls := tool_calls;
     tool_call_id := None |}.

(** The body of [for tc in tool_calls]; [messages] is the transcript. *)
Fixpoint run_tool_calls (tcs : list ToolCall) (messages : list LLMMessage)
    : M t (list LLMMessage) :=
  match tcs with
  | [] => ret messages
  | tc :: tcs' =>
      let tool_call_id := tc_id tc in
      let func_name := tc_name tc in
      let* r := call_total (execute_skill func_name) in
      let tool_result_str := skill_text r in
      run_tool_calls tcs'
        (messages ++ [tool_message tool_call_id tool_result_str])
  end.

(** The loop [for tool_round in range(max_tool_rounds)], run for [rounds]
    more iterations on the transcript [messages]. *)
Fixpoint tool_loop (rounds : nat) (tool_definitions : list tool_definition)
    (messages : list LLMMessage) : M t (list LLMMessage) :=
  match rounds with
  | O => ret messages
  | S rounds' =>
      if negb (truthy tool_definitions) then ret messages
      else
        let* response := call (chat_complete messages (Some tool_definitions)) in
        let content := resp_content response in
        let tool_calls := resp_tool_calls response in
        if negb (truthy_opt tool_calls) then ret messages
        else
          let messages :=
            messages ++ [assistant_tool_message content tool_calls] in
          let* messages := run_tool_calls (default [] tool_calls) messages in
          tool_loop rounds' tool_definitions messages
  end.

(** What the commit loop appends for [msg]: a tool message longer than
    1500 is rebuilt from its first 1500 characters and the notice. *)
Definition stored (msg : LLMMessage) : LLMMessage :=
  if is_tool msg && truthy_opt (content msg)
     && (len (default [] (content msg)) >? 1500) then
    {| role := role msg;
       content := Some (take 1500 (default [] (content msg)) ++ TRUNCATION_MARKER);
       tool_calls := None;
       tool_call_id := tool_call_id msg |}
  else msg.

(** [self._trim_conversation_history(max_rounds)] on the agent's state. *)
Definition trim_conversation_history (max_rounds : Z) : M t unit :=
  let* s := get in
  match _trim_conversation_history max_rounds (conversation_history s) with
  | Ok h => set_history h
  | Raise e => raise e
  end.

Definition max_tool_rounds : nat := 5.

Definition execute_task (task : str) : M t str :=
  let* s := get in
  let messages :=
    [plain_message SYSTEM SYSTEM_PROMPT]
    ++ conversation_history s
    ++ [plain_message USER task] in
  let tool_definitions := get_tool_definitions (world s) in
  let* messages := tool_loop max_tool_rounds tool_definitions messages in
  let* chunks := call (chat messages) in
  let full_response := concat chunks in
  let* s := get in
  let history_start_idx := (1 + length (conversation_history s))%nat in
  let new_messages := drop history_start_idx messages in
  for_each new_messages (fun msg => append_history (stored msg)) ;;
  (if truthy (strip full_response)
   then append_history (plain_message ASSISTANT full_response)
   else ret tt) ;;
  trim_conversation_history 6 ;;
  ret full_response.

(** A new agent: [conversation_history = []]. *)
Definition init (w : W) : t := {| conversation_history := []; world := w |}.

End WithCollaborators.
Arguments t : clear implicits.
End DirectAgentSimulator.

(** ** The plain engine: [E2EConversationEngine] *)

Module E2EConversationEngine.
Section WithCollaborators.
Context {W : Type} `{Collaborators W}.

Record t := {
  conversation_history : list LLMMessage;
  max_rounds : Z;
  world : W
}.

Definition with_world (s : t) (w : W) : t :=
  {| conversation_history := conversation_history s;
     max_rounds := max_rounds s; world := w |}.

Definition call {A} (f : W -> outcome A * W) : M t A :=
  fun s => let '(r, w) := f (world s) in (r, with_world s w).

Definition append_history (msg : LLMMessage) : M t unit :=
  fun s =>
    (Ok tt, {| conversation_history := conversation_history s ++ [msg];
               max_rounds := max_rounds s; world := world s |}).

Definition set_history (h : list LLMMessage) : M t unit :=
  fun s => (Ok tt, {| conversation_history := h;
                      max_rounds := max_rounds s; world := world s |}).

(** [self._trim_history()] on the engine's state. *)
Definition trim_history : M t unit :=
  let* s := get in
  match _trim_history (max_rounds s) (conversation_history s) with
  | Ok h => set_history h
  | Raise e => raise e
  end.

(** The engine's prompt is a long fixed text; only its role matters
    here, so the text is a parameter of [chat]. *)
Definition chat (system_prompt : str) (user_input : str) : M t (option str) :=
  let* s := get in
  let messages :=
    [plain_message SYSTEM system_prompt]
    ++ conversation_history s
    ++ [plain_message USER user_input] in
  let* response := call (chat_complete messages None) in
  let assistant_reply := resp_content response in
  append_history (plain_message USER user_input) ;;
  append_history {| role := ASSISTANT; content := assistant_reply;
                    tool_calls := None; tool_call_id := None |} ;;
  trim_history ;;
  ret assistant_reply.

(** [E2EConversationEngine(max_rounds)] *)
Definition init (max_rounds : Z) (w : W) : t :=
  {| conversation_history := []; max_rounds := max_rounds; world := w |}.

End WithCollaborators.
Arguments t : clear implicits.
End E2EConversationEngine.

(** ** The programmable collaborators of the tests *)

Module Mock.

(** [MockLLMProvider]: a queue of preset responses consumed in call order,
    and the log of the transcripts received. *)
Record MockLLMProvider := {
  _responses : list Response;
  _call_idx : nat;
  call_log : list (list LLMMessage);
  all_call_log : list (list LLMMessage)
}.

Definition new_provider : MockLLMProvider :=
  {| _responses := []; _call_idx := 0; call_log := []; all_call_log := [] |}.

Definition add_response (content : str) (tool_calls : option (list ToolCall))
    (p : MockLLMProvider) : MockLLMProvider :=
  {| _responses := _responses p ++
                   [{| resp_content := Some content;
                       resp_tool_calls := tool_calls |}];
     _call_idx := _call_idx p;
     call_log := call_log p;
     all_call_log := all_call_log p |}.

Definition reset (p : MockLLMProvider) : MockLLMProvider :=
  {| _responses := []; _call_idx := 0; call_log := [];
     all_call_log := all_call_log p |}.

Definition provider_chat_complete (messages : list LLMMessage)
    (p : MockLLMProvider) : Response * MockLLMProvider :=
  let snapshot := messages in
  let logged idx :=
    {| _responses := _responses p; _call_idx := idx;
       call_log := call_log p ++ [snapshot];
       all_call_log := all_call_log p ++ [snapshot] |} in
  match _responses p !! _call_idx p with
  | Some resp => (resp, logged (S (_call_idx p)))
  | None =>
      ({| resp_content := Some []; resp_tool_calls := None |},
       logged (_call_idx p))
  end.

(** [content[i:i+20] for i in range(0, len(content), 20)] *)
Fixpoint chunks_of (fuel : nat) (content : str) : list str :=
  match fuel, content with
  | O, _ | _, [] => []
  | S fuel, _ :: _ => take 20 content :: chunks_of fuel (drop 20 content)
  end.

(** "[Mock] No more responses" *)
Definition NO_MORE_RESPONSES : str :=
  Eval cbv in lit "[Mock] No more responses".

Definition provider_chat (messages : list LLMMessage)
    (p : MockLLMProvider) : list str * MockLLMProvider :=
  let snapshot := messages in
  let logged idx :=
    {| _responses := _responses p; _call_idx := idx;
       call_log := call_log p ++ [snapshot];
       all_call_log := all_call_log p ++ [snapshot] |} in
  match _responses p !! _call_idx p with
  | Some resp =>
      let content := or_empty (resp_content resp) in
      (chunks_of (length content) content, logged (S (_call_idx p)))
  | None => ([NO_MORE_RESPONSES], logged (_call_idx p))
  end.

(** The single definition [get_tool_definitions] returns (its parameter
    schema is never read). *)
Record ToolDefinition := {
  td_name : str;
  td_description : str
}.

(** [MockSkillSet]: the result table, and the list
    [get_tool_definitions] answers (the tests replace that method by one
    returning the empty list). *)
Record MockSkillSet := {
  _results : gmap str SkillResult;
  tool_definitions : list ToolDefinition
}.

Definition WEB_SEARCH : str := Eval cbv in lit "web-search".

Definition new_skill_set : MockSkillSet :=
  {| _results := ∅;
     tool_definitions :=
       [{| td_name := WEB_SEARCH;
           td_description := [25628; 32034; 32593; 32476]%N |}] |}.

Definition set_result (skill_name : str) (result : str) (k : MockSkillSet)
    : MockSkillSet :=
  {| _results :=
       <[skill_name :=
           {| success := true; result := result;
              summary := take 80 result; error := None |}]> (_results k);
     tool_definitions := tool_definitions k |}.

Definition without_tools (k : MockSkillSet) : MockSkillSet :=
  {| _results := _results k; tool_definitions := [] |}.

Definition UNKNOWN_SKILL : str := Eval cbv in lit "Unknown skill".

Definition skill_set_execute_skill (skill_name : str) (k : MockSkillSet)
    : SkillResult :=
  default {| success := false; result := []; summary := [];
             error := Some UNKNOWN_SKILL |}
          (_results k !! skill_name).

Record World := {
  provider : MockLLMProvider;
  skill_set : MockSkillSet
}.

Definition on_provider {A} (f : MockLLMProvider -> A * MockLLMProvider)
    (w : World) : outcome A * World :=
  let '(a, p) := f (provider w) in
  (Ok a, {| provider := p; skill_set := skill_set w |}).

#[export] Instance collaborators : Collaborators World := {|
  tool_definition := ToolDefinition;
  chat_complete messages _ := on_provider (provider_chat_complete messages);
  chat messages := on_provider (provider_chat messages);
  execute_skill name w := (skill_set_execute_skill name (skill_set w), w);
  get_tool_definitions w := tool_definitions (skill_set w)
|}.

End Mock.

(** * Vocabulary of the properties *)

Module DA := DirectAgentSimulator.

Module E2E := E2EConversationEngine.

(** [round_starts] with positions counted from [i]. *)
Definition round_starts_from (i : nat) (h : list LLMMessage) : list nat :=
  map fst (filter (fun p => is_user p.2 = true) (enumerate_from i h)).

(** Position [n] is a cut of [h] when nothing is removed or [h[n]] is a
    user message. *)
Definition round_cut (h : list LLMMessage) (n : nat) : Prop :=
  n = 0%nat ∨ ∃ u, h !! n = Some u ∧ is_user u = true.

(** What the round trim leaves: at most [R] rounds, or, for [R = 0] (where
    [round_starts[-0]] is the first round start), a history that begins with
    a user message. *)
Definition round_trimmed (R : Z) (h : list LLMMessage) : Prop :=
  Z.of_nat (count_rounds h) ≤ R
  ∨ (R = 0 ∧ ∃ u t, h = u :: t ∧ is_user u = true).

(** An assistant message that carries tool calls. *)
Definition requests_tools (m : LLMMessage) : bool :=
  is_assistant m && truthy_opt (tool_calls m).

(** The assistant message [a] carries the invocation the tool message [t]
    answers. *)
Definition requested_by (a t : LLMMessage) : bool :=
  is_assistant a
  && match tool_calls a, tool_call_id t with
     | Some tcs, Some id => bool_decide (id ∈ map tc_id tcs)
     | _, _ => false
     end.

(** The verdict on position [i] of [history] in the validator's loop. *)
Definition tool_verdict (history : list LLMMessage) (p : nat * LLMMessage)
    : list violation :=
  let '(i, msg) := p in
  if is_tool msg then
    if scan_back (rev (take i history)) then [] else [ToolWithoutAssistant i]
  else [].

(** Some assistant message with tool calls lies before position [i] of [h]
    with no user message in between: what the validator's backward scan
    looks for. *)
Definition has_tool_request_before (h : list LLMMessage) (i : nat) : Prop :=
  ∃ j a, (j < i)%nat ∧ h !! j = Some a ∧ requests_tools a = true
         ∧ ∀ k m, (j < k < i)%nat → h !! k = Some m → is_user m = false.

(** Some assistant message before position [i], in the same round, carries
    the invocation id of the tool message [t]. *)
Definition has_requester_before (h : list LLMMessage) (i : nat)
    (t : LLMMessage) : Prop :=
  ∃ j a, (j < i)%nat ∧ h !! j = Some a ∧ requested_by a t = true
         ∧ ∀ k m, (j < k < i)%nat → h !! k = Some m → is_user m = false.

(** The assistant message a tool message is matched against while reading a
    history from left to right: the latest one carrying tool calls, forgotten
    at each user message. *)
Definition step (st : option LLMMessage) (m : LLMMessage) : option LLMMessage :=
  if requests_tools m then Some m
  else if is_user m then None
  else st.

(** Every tool message of [h] answers an invocation of the assistant message
    in force when it is read, starting from [st]. *)
Fixpoint linked (st : option LLMMessage) (h : list LLMMessage) : bool :=
  match h with
  | [] => true
  | m :: h' =>
      (if is_tool m then
         match st with Some a => requested_by a m | None => false end
       else true)
      && linked (step st m) h'
  end.

(** A history is empty or begins with a user message. *)
Definition starts_with_user (h : list LLMMessage) : bool :=
  match h with [] => true | m :: _ => is_user m end.

(** The structural invariant of a stored history. *)
Definition well_linked (h : list LLMMessage) : Prop :=
  starts_with_user h = true ∧ linked None h = true.

(** What the state [st] records about the messages [pre] already read. *)
Definition tracks (pre : list LLMMessage) (st : option LLMMessage) : Prop :=
  ∀ a, st = Some a →
    ∃ j, pre !! j = Some a
         ∧ ∀ k m, (j < k)%nat → pre !! k = Some m → is_user m = false.

(** [tools] answers the invocations [tcs], one tool message each, in
    order. *)
Definition answers (tcs : list ToolCall) (tools : list LLMMessage) : Prop :=
  Forall2 (fun tc m => is_tool m = true ∧ tool_call_id m = Some (tc_id tc))
          tcs tools.

(** The messages a tool loop adds to the transcript: groups made of an
    assistant message carrying a non-empty list of invocations followed by
    their answers. *)
Inductive tool_groups : list LLMMessage → Prop :=
| tool_groups_nil : tool_groups []
| tool_groups_cons a tcs tools rest :
    is_assistant a = true →
    tool_calls a = Some tcs →
    truthy tcs = true →
    answers tcs tools →
    tool_groups rest →
    tool_groups (a :: tools ++ rest).

(** The plain assistant message appended for the reply, if any. *)
Definition final_message (full_response : str) : list LLMMessage :=
  if truthy (strip full_response)
  then [plain_message ASSISTANT full_response]
  else [].

(** The history after the commit loop and the final append, before the
    trim, given the transcript and the reply. *)
Definition committed (h messages : list LLMMessage) (full_response : str)
    : list LLMMessage :=
  h ++ map DA.stored (drop (1 + length h) messages)
    ++ final_message full_response.

(** The transcript a turn starts from. *)
Definition transcript (h : list LLMMessage) (task : str) : list LLMMessage :=
  [plain_message SYSTEM SYSTEM_PROMPT] ++ h ++ [plain_message USER task].

(** The messages a completed turn appends: the user message, the stored
    tool groups, and the final reply if any. *)
Definition new_round (task : str) (produced : list LLMMessage)
    (full_response : str) : list LLMMessage :=
  plain_message USER task
  :: map DA.stored produced ++ final_message full_response.

(** The roles a stored message can have. *)
Definition ledger_role (m : LLMMessage) : Prop :=
  role m = USER ∨ role m = ASSISTANT ∨ role m = TOOL.

(** The length bound on a stored tool message. *)
Definition tool_bounded (m : LLMMessage) : Prop :=
  is_tool m = true → content_len m ≤ 1500 + len TRUNCATION_MARKER.

(** The invariant of the stored history. *)
Definition history_invariant (h : list LLMMessage) : Prop :=
  well_linked h ∧ Forall ledger_role h ∧ Forall tool_bounded h.


(** The two messages a completed [chat] appends. *)
Definition e2e_round (user_input : str) (assistant_reply : option str)
    : list LLMMessage :=
  [plain_message USER user_input;
   {| role := ASSISTANT; content := assistant_reply; tool_calls := None;
      tool_call_id := None |}].

(** A round: a user message followed by messages of other roles. *)
Definition is_round (c : list LLMMessage) : Prop :=
  ∃ u rest, c = u :: rest ∧ is_user u = true
            ∧ Forall (fun m => is_user m = false) rest.

(** The budget loop on rounds: drop the oldest round while the total exceeds
    the budget and more than two rounds remain. *)
Fixpoint budget_rounds (B : Z) (cs : list (list LLMMessage))
    : list (list LLMMessage) :=
  match cs with
  | [] => []
  | c :: cs' =>
      if (sum_chars (concat cs) >? B) && (len cs >? 2)
      then budget_rounds B cs'
      else cs
  end.

(** The trimmer on rounds: keep the last [R], then apply the budget. *)
Definition trim_rounds (R : nat) (B : Z) (cs : list (list LLMMessage))
    : list (list LLMMessage) :=
  budget_rounds B (drop (length cs - R) cs).

(** The rounds kept after committing the round [c] to the kept rounds [H],
    and after committing a whole sequence of rounds one by one. *)
Definition retain (R : nat) (B : Z) (H : list (list LLMMessage))
    (c : list LLMMessage) : list (list LLMMessage) :=
  trim_rounds R B (H ++ [c]).

Definition retained (R : nat) (B : Z) (cs : list (list LLMMessage))
    : list (list LLMMessage) :=
  foldl (retain R B) [] cs.

(** An input together with the round committed for it. *)
Definition turn_round (x : str * list LLMMessage) : Prop :=
  ∃ rest, x.2 = plain_message USER x.1 :: rest
          ∧ Forall (fun m => is_user m = false) rest.

(** ** Notions that depend on the collaborators *)

Section Collaborating.
Context {W : Type} `{Collaborators W}.

(** The tool messages of one assistant message, and the world after the
    skills ran: [run_tool_calls] without the monad. *)
Fixpoint tool_results (tcs : list ToolCall) (w : W) : list LLMMessage * W :=
  match tcs with
  | [] => ([], w)
  | tc :: tcs' =>
      let '(r, w1) := execute_skill (tc_name tc) w in
      let '(ms, w2) := tool_results tcs' w1 in
      (DA.tool_message (tc_id tc) (skill_text r) :: ms, w2)
  end.

(** The states an agent goes through: created with an empty history; the
    collaborators may be reprogrammed between turns; a turn ends one way or
    the other. *)
Inductive reachable : DA.t W → Prop :=
| reachable_init w : reachable (DA.init w)
| reachable_world s w : reachable s → reachable (DA.with_world s w)
| reachable_turn s task r s' :
    reachable s → DA.execute_task task s = (r, s') → reachable s'.



(** The states the plain engine goes through, for any round limit. *)
Inductive e2e_reachable : E2E.t W → Prop :=
| e2e_reachable_init R w : e2e_reachable (E2E.init R w)
| e2e_reachable_world s w : e2e_reachable s → e2e_reachable (E2E.with_world s w)
| e2e_reachable_turn s prompt user_input r s' :
    e2e_reachable s → E2E.chat prompt user_input s = (r, s') →
    e2e_reachable s'.

(** Completed turns of the plain engine, one after the other, the
    collaborators being free to change in between, with the input and the
    committed round of each. *)
Inductive e2e_turns :
    E2E.t W → list (str * list LLMMessage) → E2E.t W → Prop :=
| e2e_turns_nil s : e2e_turns s [] s
| e2e_turns_snoc s0 trace s w prompt user_input reply s' :
    e2e_turns s0 trace s →
    E2E.chat prompt user_input (E2E.with_world s w) = (Ok reply, s') →
    e2e_turns s0 (trace ++ [(user_input, e2e_round user_input reply)]) s'.

(** The same for the agent; [produced] is what the tool loop of the turn
    added to the transcript. *)
Inductive da_turns :
    DA.t W → list (str * list LLMMessage) → DA.t W → Prop :=
| da_turns_nil s : da_turns s [] s
| da_turns_snoc s0 trace s w task reply s' produced s1 :
    da_turns s0 trace s →
    DA.execute_task task (DA.with_world s w) = (Ok reply, s') →
    DA.tool_loop DA.max_tool_rounds (get_tool_definitions w)
      (transcript (DA.conversation_history s) task) (DA.with_world s w)
    = (Ok (transcript (DA.conversation_history s) task ++ produced), s1) →
    da_turns s0 (trace ++ [(task, new_round task produced reply)]) s'.

(** [for task in tasks: agent.execute_task(task)], stopping at the first
    turn that raises. *)
Fixpoint run_tasks (tasks : list str) (s : DA.t W) : option (DA.t W) :=
  match tasks with
  | [] => Some s
  | task :: tasks' =>
      match DA.execute_task task s with
      | (Ok _, s') => run_tasks tasks' s'
      | (Raise _, _) => None
      end
  end.

End Collaborating.

(** ** Scenarios with the programmable collaborators *)

Import Mock.

(** Three one-message rounds of three characters each. *)
Definition three_short_rounds : list LLMMessage :=
  [plain_message USER [97; 97; 97]%N;
   plain_message USER [98; 98; 98]%N;
   plain_message USER [99; 99; 99]%N].

(** A round whose tool message answers an invocation nobody issued. *)
Definition mismatched_history : list LLMMessage :=
  [plain_message USER [113]%N;
   {| role := ASSISTANT; content := Some [];
      tool_calls := Some [{| tc_id := [97]%N; tc_name := [115]%N;
                             tc_arguments := [] |}];
      tool_call_id := None |};
   {| role := TOOL; content := Some [114]%N; tool_calls := None;
      tool_call_id := Some [98]%N |}].

Definition search_call : ToolCall :=
  {| tc_id := lit "call_search_001";
     tc_name := WEB_SEARCH;
     tc_arguments := lit "{}" |}.

(** The completion asks for a search, the next one asks for nothing, and
    the stream gives the reply; the search returns 1600 characters. *)
Definition search_world : World :=
  {| provider :=
       add_response (lit "final") None
         (add_response [] None
            (add_response (lit "searching") (Some [search_call])
               new_provider));
     skill_set := set_result WEB_SEARCH (repeat 65%N 1600) new_skill_set |}.

Definition search_task : str := Eval cbv in lit "find".

Definition search_turn : outcome str * DA.t World :=
  DA.execute_task search_task (DA.init search_world).

(** The first completion answers "A" without invocations; the stream then
    answers "B". *)
Definition two_texts_world : World :=
  {| provider :=
       add_response (lit "B") None (add_response (lit "A") None new_provider);
     skill_set := new_skill_set |}.

Definition repeated_call : ToolCall :=
  {| tc_id := lit "call"; tc_name := WEB_SEARCH; tc_arguments := lit "{}" |}.

(** Five completions in a row answer "T" with one invocation each; the
    stream then answers "B". *)
Definition five_rounds_world : World :=
  {| provider :=
       add_response (lit "B") None
         (Nat.iter 5 (add_response (lit "T") (Some [repeated_call]))
            new_provider);
     skill_set := set_result WEB_SEARCH (lit "r") new_skill_set |}.

(** No tools, and a stream that yields nothing. *)
Definition blank_world : World :=
  {| provider := add_response [] None new_provider;
     skill_set := without_tools new_skill_set |}.

(** No tools, and a stream that yields two spaces. *)
Definition spaces_world : World :=
  {| provider := add_response [32; 32]%N None new_provider;
     skill_set := without_tools new_skill_set |}.

Definition long_input (i : N) : str := repeat (48 + i)%N 5000.

Definition long_inputs : list str := map long_input [1; 2; 3; 4; 5; 6]%N.

Definition long_world : World :=
  {| provider := new_provider; skill_set := new_skill_set |}.

Definition long_final : DA.t World :=
  default (DA.init long_world) (run_tasks long_inputs (DA.init long_world)).

Definition plain_world : World :=
  {| provider := new_provider; skill_set := new_skill_set |}.

Definition short_input (i : N) : str := [113; 48 + i]%N.

Definition e2e_next (q : str) (s : E2E.t World) : E2E.t World :=
  (E2E.chat [] q (E2E.with_world s (E2E.world s))).2.

Definition e2e_state0 : E2E.t World := E2E.init (Z.of_nat 2) plain_world.
Definition e2e_state1 : E2E.t World := e2e_next (short_input 1) e2e_state0.
Definition e2e_state2 : E2E.t World := e2e_next (short_input 2) e2e_state1.
Definition e2e_state3 : E2E.t World := e2e_next (short_input 3) e2e_state2.

Definition short_trace : list (str * list LLMMessage) :=
  map (fun i => (short_input i, e2e_round (short_input i) (Some [])))
      [1; 2; 3]%N.

(** A history that is a lone tool message. *)
Definition orphan_history : list LLMMessage := [plain_message TOOL []].

Module Flaky.

Definition OUTAGE : exn := CollaboratorError (lit "timeout").

Definition unknown_skill : SkillResult :=
  {| success := false; result := []; summary := [];
     error := Some UNKNOWN_SKILL |}.

(** Collaborators whose state counts the completions made: the first
    completion asks for a search, the later ones for nothing; every skill is
    unknown; the stream raises. *)
#[global] Instance collaborators : Collaborators nat := {|
  tool_definition := unit;
  chat_complete _ _ n :=
    (Ok (if Nat.eqb n 0
         then {| resp_content := Some (lit "searching");
                 resp_tool_calls := Some [search_call] |}
         else {| resp_content := Some []; resp_tool_calls := None |}),
     S n);
  chat _ n := (Raise OUTAGE, n);
  execute_skill _ n := (unknown_skill, n);
  get_tool_definitions _ := [tt]
|}.

End Flaky.

(** * The rest of the harness and its callers

    The helpers of [backend/tests/test_multi_turn.py] that read a history or
    the provider's log ([count_roles], [extract_session_summary], the
    assertion helpers, [TestResult]), the retrying caller of the plain
    engine in [backend/tests/run_e2e.py] ([call_with_retry]), and the
    request dependencies of [backend/auth/dependencies.py]. *)

(** ** More Python primitives *)

Module PyText.

(** [s.startswith(prefix)] *)
Fixpoint startswith (s prefix : str) : bool :=
  match prefix, s with
  | [], _ => true
  | _ :: _, [] => false
  | c :: prefix', d :: s' => bool_decide (c = d) && startswith s' prefix'
  end.

(** [needle in hay] on two strings. *)
Fixpoint contains (hay needle : str) : bool :=
  startswith hay needle
  || match hay with
     | [] => false
     | _ :: hay' => contains hay' needle
     end.

(** [sep.join(parts)] *)
Fixpoint join (sep : str) (parts : list str) : str :=
  match parts with
  | [] => []
  | x :: parts' =>
      match parts' with
      | [] => x
      | _ :: _ => x ++ sep ++ join sep parts'
      end
  end.

End PyText.

Import PyText.

(** ** Helpers of [test_multi_turn.py] *)

(** [count_roles]: the dictionary from each role present to its number of
    messages. *)
Definition count_roles (history : list LLMMessage) : gmap str Z :=
  foldl (fun counts m => <[role m := default 0 (counts !! role m) + 1]> counts)
        ∅ history.

(** The filter of the comprehension in [extract_session_summary]:
    [m.role == "assistant" and m.content and not m.tool_calls]. *)
Definition plain_reply (m : LLMMessage) : bool :=
  is_assistant m && truthy_opt (content m) && negb (truthy_opt (tool_calls m)).

(** [DirectAgentSimulator.extract_session_summary]: the value stored under
    the only key, ["final_report"], of the dictionary it returns. *)
Definition extract_session_summary (conversation_history : list LLMMessage)
    : str :=
  if truthy conversation_history then
    let assistant_msgs :=
      map (fun m => default [] (content m))
          (filter (fun m => plain_reply m = true) conversation_history) in
    if truthy assistant_msgs
    then take 2000 (default [] (index assistant_msgs (-1)))
    else []
  else [].


(** [" ".join(m.content or "" for m in messages)] *)
Definition joined_contents (messages : list LLMMessage) : str :=
  join [32]%N (map (fun m => or_empty (content m)) messages).


(** The error strings of the three assertion helpers, with the values they
    interpolate. *)
Inductive assertion_error :=
| NeverCalled (description : str)
| CallIndexOutOfRangeOf (description : str) (call_index : Z) (calls : Z)
| CallIndexOutOfRange (description : str) (call_index : Z)
| ContextMissingKeyword (description kw : str)
| ContextMissingRole (description role : str)
| ReplyMissingKeyword (description kw : str).

Definition assert_context_contains (p : MockLLMProvider) (keywords : list str)
    (call_index : Z) (description : str) : list assertion_error :=
  if negb (truthy (all_call_log p)) then [NeverCalled description]
  else
    match index (all_call_log p) call_index with
    | None =>
        [CallIndexOutOfRangeOf description call_index (len (all_call_log p))]
    | Some messages =>
        let context_text := joined_contents messages in
        flat_map
          (fun kw =>
             if negb (contains context_text kw)
             then [ContextMissingKeyword description kw]
             else [])
          keywords
    end.

Definition assert_context_has_role (p : MockLLMProvider) (role_ : str)
    (call_index : Z) (description : str) : list assertion_error :=
  if negb (truthy (all_call_log p)) then [NeverCalled description]
  else
    match index (all_call_log p) call_index with
    | None => [CallIndexOutOfRange description call_index]
    | Some messages =>
        if negb (existsb (fun m => bool_decide (role m = role_)) messages)
        then [ContextMissingRole description role_]
        else []
    end.

Definition assert_response_quality (response : str)
    (expected_keywords : list str) (description : str)
    : list assertion_error :=
  flat_map
    (fun kw =>
       if negb (contains response kw)
       then [ReplyMissingKeyword description kw]
       else [])
    expected_keywords.

(** [TestResult], without its rendering [__str__]. *)
Module TestResult.

Record t := {
  name : str;
  passed : bool;
  errors : list str;
  details : list str
}.

(** [TestResult(name)] *)
Definition init (name : str) : t :=
  {| name := name; passed := true; errors := []; details := [] |}.

Definition add_error (msg : str) (r : t) : t :=
  {| name := name r; passed := false; errors := errors r ++ [msg];
     details := details r |}.

Definition add_detail (msg : str) (r : t) : t :=
  {| name := name r; passed := passed r; errors := errors r;
     details := details r ++ [msg] |}.

End TestResult.

(** ** The retrying caller of [run_e2e.py] *)

(** [str(e)]: the text of an IndexError raised by a list subscript, and
    the description of what a collaborator raised. *)
Definition str_of_exn (e : exn) : str :=
  match e with
  | IndexError => lit "list index out of range"
  | CollaboratorError description => description
  end.

(** "限流" *)
Definition RATE_LIMIT_ZH : str := [38480; 27969]%N.

Section Retry.
Context {St A : Type}.

(** Python's [str.lower], whose Unicode tables are not part of the
    sources. *)
Variable lower : str → str.

(** [if "429" in err_str or "rate" in err_str.lower() or "限流" in err_str] *)
Definition is_rate_limit (e : exn) : bool :=
  let err_str := str_of_exn e in
  contains err_str (lit "429")
  || contains (lower err_str) (lit "rate")
  || contains err_str RATE_LIMIT_ZH.

(** The loop [for attempt in range(max_retries + 1)] from [attempt] on,
    with [attempts] iterations left.  The state pairs the state of the
    called coroutine with the list of the delays slept so far; what the loop
    prints is left out.  Falling off the loop returns [None]. *)
Fixpoint retry_from (attempts : nat) (attempt : Z) (max_retries base_delay : Z)
    (coro_func : M St A) : M (St * list Z) (option A) :=
  match attempts with
  | O => ret None
  | S attempts' =>
      fun '(s, slept) =>
        match coro_func s with
        | (Ok result, s') => (Ok (Some result), (s', slept))
        | (Raise e, s') =>
            if is_rate_limit e && (attempt <? max_retries) then
              let delay := base_delay * 2 ^ attempt in
              let delay := Z.min delay 120 in
              retry_from attempts' (attempt + 1) max_retries base_delay
                coro_func (s', slept ++ [delay])
            else (Raise e, (s', slept))
        end
  end.

Definition call_with_retry (coro_func : M St A) (max_retries base_delay : Z)
    : M (St * list Z) (option A) :=
  retry_from (Z.to_nat (max_retries + 1)) 0 max_retries base_delay coro_func.

End Retry.

(** ** Authentication dependencies ([auth/dependencies.py]) *)

Module Auth.

(** [fastapi.HTTPException] *)
Record HTTPException := {
  status_code : Z;
  detail : str;
  headers : option (list (str * str))
}.

(** A dependency returns or raises an [HTTPException]. *)
Inductive http (A : Type) :=
| Return (a : A)
| Abort (e : HTTPException).
Arguments Return {A} a.
Arguments Abort {A} e.

(** [HTTPAuthorizationCredentials] *)
Record HTTPAuthorizationCredentials := {
  scheme : str;
  credentials : str
}.

(** [AuthProvider], of which only [verify_token] is called: it answers a
    user id or [None]. *)
Record AuthProvider := {
  verify_token : str → option str
}.

(** What [SessionManager.get_session_info] answers when it is not [None]:
    an object, true as such, whose [user_id] is read. *)
Record SessionInfo := {
  user_id : option str
}.

(** A value of the dictionary [get_session_info_from_db] answers: [None], a
    string, or anything else, which is never equal to a string. *)
Inductive value :=
| VNone
| VStr (s : str)
| VOther.

Definition HTTP_401_UNAUTHORIZED : Z := 401.

Definition BEARER : option (list (str * str)) :=
  Some [(lit "WWW-Authenticate", lit "Bearer")].

Definition get_current_user
    (creds : option HTTPAuthorizationCredentials) (auth : AuthProvider)
    : http str :=
  match creds with
  | None =>
      Abort {| status_code := HTTP_401_UNAUTHORIZED;
               detail := lit "Not authenticated";
               headers := BEARER |}
  | Some c =>
      match verify_token auth (credentials c) with
      | None =>
          Abort {| status_code := HTTP_401_UNAUTHORIZED;
                   detail := lit "Invalid or expired token";
                   headers := BEARER |}
      | Some user_id => Return user_id
      end
  end.

Definition get_optional_user
    (creds : option HTTPAuthorizationCredentials) (auth : AuthProvider)
    : option str :=
  match creds with
  | None => None
  | Some c => verify_token auth (credentials c)
  end.

Section Dependencies.

(** The provider [get_auth_provider()] answers; how the module builds and
    keeps it is left out. *)
Variable get_auth_provider : AuthProvider.

(** The two queries of the session manager: the cache and the database. *)
Variable get_session_info : str → option SessionInfo.
Variable get_session_info_from_db : str → option (gmap str value).

Definition verify_token_from_query (token : option str)
    (auth : option AuthProvider) : http str :=
  if negb (truthy_opt token) then
    Abort {| status_code := HTTP_401_UNAUTHORIZED;
             detail := lit "Not authenticated (token query param required)";
             headers := None |}
  else
    let auth :=
      match auth with
      | None => get_auth_provider
      | Some auth => auth
      end in
    match verify_token auth (default [] token) with
    | None =>
        Abort {| status_code := HTTP_401_UNAUTHORIZED;
                 detail := lit "Invalid or expired token";
                 headers := None |}
    | Some user_id => Return user_id
    end.

(** [x != user_id] for a dictionary value [x]. *)
Definition differs (x : option value) (user_id : str) : bool :=
  match x with
  | Some (VStr s) => negb (bool_decide (s = user_id))
  | _ => true
  end.

(** [HTTPException(status_code=404, detail="Session not found")] *)
Definition SESSION_NOT_FOUND : HTTPException :=
  {| status_code := 404; detail := lit "Session not found"; headers := None |}.

(** The cache is asked first, the database when the cache has no object
    for the session: [if not session_data or
    session_data.get("user_id") != user_id: raise ...]. *)
Definition verify_session_owner (session_id : str) (user_id_ : str)
    : http unit :=
  match get_session_info session_id with
  | Some session_info =>
      if negb (bool_decide (user_id session_info = Some user_id_))
      then Abort SESSION_NOT_FOUND
      else Return tt
  | None =>
      let session_data := get_session_info_from_db session_id in
      if match session_data with
         | None => true
         | Some d => bool_decide (d = ∅) || differs (d !! lit "user_id") user_id_
         end
      then Abort SESSION_NOT_FOUND
      else Return tt
  end.

End Dependencies.

End Auth.

(** ** Vocabulary of the further properties *)

(** The number of messages of [history] whose role is [r]. *)
Definition occurrences (r : str) (history : list LLMMessage) : nat :=
  length (filter (fun m => role m = r) history).

(** [needle] occurs in [hay]. *)
Definition occurs_in (needle hay : str) : Prop :=
  ∃ before after, hay = before ++ needle ++ after.

(** The calls made on a [TestResult]. *)
Inductive test_result_call :=
| AddError (msg : str)
| AddDetail (msg : str).

Definition test_result_step (r : TestResult.t) (c : test_result_call)
    : TestResult.t :=
  match c with
  | AddError msg => TestResult.add_error msg r
  | AddDetail msg => TestResult.add_detail msg r
  end.

(** The messages of the [AddError] calls, and of the [AddDetail] calls. *)
Definition error_messages (calls : list test_result_call) : list str :=
  flat_map (fun c => match c with AddError msg => [msg] | _ => [] end) calls.

Definition detail_messages (calls : list test_result_call) : list str :=
  flat_map (fun c => match c with AddDetail msg => [msg] | _ => [] end) calls.

(** The queue after a series of [add_response] calls, and the response
    each call queues. *)
Definition add_responses (rs : list (str * option (list ToolCall)))
    (p : MockLLMProvider) : MockLLMProvider :=
  foldl (fun p r => add_response r.1 r.2 p) p rs.

Definition queued (r : str * option (list ToolCall)) : Response :=
  {| resp_content := Some r.1; resp_tool_calls := r.2 |}.

(** What [chat_complete] answers once the queue is used up. *)
Definition EMPTY_RESPONSE : Response :=
  {| resp_content := Some []; resp_tool_calls := None |}.

(** [[await provider.chat_complete(m, config) for m in transcripts]] *)
Fixpoint complete_all (transcripts : list (list LLMMessage))
    (p : MockLLMProvider) : list Response * MockLLMProvider :=
  match transcripts with
  | [] => ([], p)
  | m :: transcripts' =>
      let '(r, p1) := provider_chat_complete m p in
      let '(rs, p2) := complete_all transcripts' p1 in
      (r :: rs, p2)
  end.

(** [k] calls in a row, each raising a rate-limit error, lead from [s]
    to [s']. *)
Inductive rate_limited_calls {St A : Type} (lower : str → str)
    (coro_func : M St A) : nat → St → St → Prop :=
| rate_limited_none s : rate_limited_calls lower coro_func 0 s s
| rate_limited_more k s e s1 s2 :
    coro_func s = (Raise e, s1) → is_rate_limit lower e = true →
    rate_limited_calls lower coro_func k s1 s2 →
    rate_limited_calls lower coro_func (S k) s s2.

(** The delays before retries number [from], ..., [from + k - 1]. *)
Definition backoff (base_delay : Z) (from : Z) (k : nat) : list Z :=
  map (fun i => Z.min (base_delay * 2 ^ (from + Z.of_nat i)) 120) (seq 0 k).

(** What [call_with_retry] returns for the outcome of its last call. *)
Definition retried {A} (r : outcome A) : outcome (option A) :=
  match r with
  | Ok a => Ok (Some a)
  | Raise e => Raise e
  end.

(** ** Further scenarios *)

(** Lower-casing of the ASCII letters. *)
Definition ascii_lower (s : str) : str :=
  map (fun c => if (65 <=? c)%N && (c <=? 90)%N then (c + 32)%N else c) s.

(** A call that is rate-limited twice and then answers; its state counts
    the calls. *)
Definition limited_twice : M nat str :=
  fun n =>
    if (n <? 2)%nat then (Raise (CollaboratorError (lit "HTTP 429")), S n)
    else (Ok (lit "ok"), S n).

(** A provider that knows one token. *)
Definition one_token_provider : Auth.AuthProvider :=
  {| Auth.verify_token t :=
       if bool_decide (t = lit "t0") then Some (lit "alice") else None |}.

(** A second turn after the search turn, on the collaborators as the first
    turn left them. *)
Definition follow_up_task : str := Eval cbv in lit "more".

Definition follow_up_turn : outcome str * DA.t World :=
  DA.execute_task follow_up_task
    (DA.with_world search_turn.2 (DA.world search_turn.2)).

(** * Properties *)

(** ** Roles *)

Lemma is_user_not_tool m : is_user m = true → is_tool m = false.
Proof.
  unfold is_user, is_tool. intros Hu%bool_decide_eq_true.
  apply bool_decide_eq_false. by rewrite Hu.
Qed.

Lemma is_user_not_assistant m : is_user m = true → is_assistant m = false.
Proof.
  unfold is_user, is_assistant. intros Hu%bool_decide_eq_true.
  apply bool_decide_eq_false. by rewrite Hu.
Qed.

Lemma is_tool_not_user m : is_tool m = true → is_user m = false.
Proof.
  intros Ht. destruct (is_user m) eqn:Hu; [|done].
  apply is_user_not_tool in Hu. congruence.
Qed.

Lemma is_tool_not_assistant m : is_tool m = true → is_assistant m = false.
Proof.
  unfold is_tool, is_assistant. intros Hu%bool_decide_eq_true.
  apply bool_decide_eq_false. by rewrite Hu.
Qed.

Lemma is_assistant_not_user m : is_assistant m = true → is_user m = false.
Proof.
  intros Ha. destruct (is_user m) eqn:Hu; [|done].
  apply is_user_not_assistant in Hu. congruence.
Qed.

Lemma is_assistant_not_tool m : is_assistant m = true → is_tool m = false.
Proof.
  intros Ha. destruct (is_tool m) eqn:Hu; [|done].
  apply is_tool_not_assistant in Hu. congruence.
Qed.

(** ** Counting rounds *)

Lemma count_rounds_nil : count_rounds [] = 0%nat.
Proof. done. Qed.

Lemma count_rounds_cons m h :
  count_rounds (m :: h) =
  ((if is_user m then 1 else 0) + count_rounds h)%nat.
Proof.
  unfold count_rounds. rewrite filter_cons.
  destruct (is_user m); case_decide; simpl; congruence.
Qed.

Lemma count_rounds_app h1 h2 :
  count_rounds (h1 ++ h2) = (count_rounds h1 + count_rounds h2)%nat.
Proof. unfold count_rounds. by rewrite filter_app, length_app. Qed.

Lemma count_rounds_take_drop n h :
  (count_rounds (take n h) + count_rounds (drop n h))%nat = count_rounds h.
Proof. by rewrite <- count_rounds_app, take_drop. Qed.

Lemma count_rounds_le_length h : (count_rounds h ≤ length h)%nat.
Proof. unfold count_rounds. apply length_filter. Qed.

Lemma count_rounds_no_user h :
  Forall (fun m => is_user m = false) h → count_rounds h = 0%nat.
Proof.
  induction 1 as [|m h Hm _ IH]; [done|].
  rewrite count_rounds_cons, Hm, IH. done.
Qed.

(** ** Round starts *)

Lemma round_starts_from_0 h : round_starts h = round_starts_from 0 h.
Proof. done. Qed.

Lemma round_starts_from_cons i m h :
  round_starts_from i (m :: h) =
  if is_user m then i :: round_starts_from (S i) h
  else round_starts_from (S i) h.
Proof.
  unfold round_starts_from. simpl. rewrite filter_cons. simpl.
  destruct (is_user m); case_decide; simpl; congruence.
Qed.

Lemma length_round_starts_from i h :
  length (round_starts_from i h) = count_rounds h.
Proof.
  revert i. induction h as [|m h IH]; intros i; [done|].
  rewrite round_starts_from_cons, count_rounds_cons.
  destruct (is_user m); simpl; by rewrite IH.
Qed.

Lemma length_round_starts h : length (round_starts h) = count_rounds h.
Proof. apply length_round_starts_from. Qed.

(** The [k]-th round start is the position of a user message with exactly
    [k] user messages before it. *)
Lemma round_starts_from_lookup h i k n :
  round_starts_from i h !! k = Some n →
  ∃ u, (i ≤ n)%nat ∧ h !! (n - i)%nat = Some u ∧ is_user u = true
       ∧ count_rounds (take (n - i) h) = k.
Proof.
  revert i k. induction h as [|m h IH]; intros i k; [done|].
  rewrite round_starts_from_cons. destruct (is_user m) eqn:Hm.
  - destruct k as [|k]; simpl.
    + intros [= <-]. exists m. rewrite Nat.sub_diag. simpl. eauto.
    + intros (u & Hle & Hu & Huser & Hc)%IH. exists u.
      replace (n - i)%nat with (S (n - S i)) by lia. simpl.
      rewrite count_rounds_cons, Hm, Hc. eauto with lia.
  - intros (u & Hle & Hu & Huser & Hc)%IH. exists u.
    replace (n - i)%nat with (S (n - S i)) by lia. simpl.
    rewrite count_rounds_cons, Hm, Hc. eauto with lia.
Qed.

Lemma round_starts_lookup h k n :
  round_starts h !! k = Some n →
  ∃ u, h !! n = Some u ∧ is_user u = true ∧ count_rounds (take n h) = k.
Proof.
  intros (u & _ & Hu & Huser & Hc)%round_starts_from_lookup.
  rewrite Nat.sub_0_r in *. eauto.
Qed.

Lemma count_rounds_drop_start h k n :
  round_starts h !! k = Some n →
  count_rounds (drop n h) = (count_rounds h - k)%nat.
Proof.
  intros (u & _ & _ & Hc)%round_starts_lookup.
  pose proof (count_rounds_take_drop n h). lia.
Qed.

(** A history that begins with a user message has its first round start
    at position 0. *)
Lemma round_starts_head_user u h :
  is_user u = true → round_starts (u :: h) !! 0%nat = Some 0%nat.
Proof.
  intros Hu. rewrite round_starts_from_0, round_starts_from_cons, Hu. done.
Qed.

(** ** Byte volume *)

Lemma sum_chars_app h1 h2 : sum_chars (h1 ++ h2) = sum_chars h1 + sum_chars h2.
Proof.
  induction h1 as [|m h1 IH]; simpl; [done|].
  fold (sum_chars (h1 ++ h2)). fold (sum_chars h1). lia.
Qed.

Lemma sum_chars_take_drop n h :
  sum_chars (take n h) + sum_chars (drop n h) = sum_chars h.
Proof. by rewrite <- sum_chars_app, take_drop. Qed.

Lemma content_len_nonneg m : 0 ≤ content_len m.
Proof. unfold content_len, len. lia. Qed.

Lemma sum_chars_nonneg h : 0 ≤ sum_chars h.
Proof.
  induction h as [|m h IH]; simpl; [done|].
  fold (sum_chars h). pose proof (content_len_nonneg m). lia.
Qed.

(** ** Cuts at round boundaries *)

Lemma round_cut_0 h : round_cut h 0.
Proof. by left. Qed.

Lemma round_cut_user h n u :
  h !! n = Some u → is_user u = true → round_cut h n.
Proof. right. eauto. Qed.

Lemma round_cut_compose h n1 n2 :
  round_cut h n1 → round_cut (drop n1 h) n2 → round_cut h (n1 + n2).
Proof.
  intros H1 [-> | (u & Hu & Huser)].
  - by rewrite Nat.add_0_r.
  - right. exists u. by rewrite lookup_drop in Hu.
Qed.

Lemma drop_user_head (h : list LLMMessage) n u :
  h !! n = Some u → drop n h = u :: drop (S n) h.
Proof. intros Hu. by erewrite drop_S. Qed.

(** ** Python indexing from the end *)

Lemma index_from_end {A} (l : list A) (k : Z) :
  0 < k → k < len l → index l (- k) = l !! (length l - Z.to_nat k)%nat.
Proof.
  unfold index, len. intros Hk Hlen.
  replace (0 <=? - k) with false by lia. simpl.
  replace (- Z.of_nat (length l) <=? - k) with true by lia.
  replace (- k <? 0) with true by lia. simpl.
  f_equal. lia.
Qed.

Lemma index_zero {A} (l : list A) : 0 < len l → index l (- 0) = l !! 0%nat.
Proof.
  unfold index, len. intros Hlen. change (- 0) with 0.
  replace (0 <=? 0) with true by lia.
  replace (0 <? Z.of_nat (length l)) with true by lia. done.
Qed.

(** ** The round trim *)

Lemma round_trim_noop R h starts :
  len starts ≤ R → round_trim R h starts = Ok (h, starts).
Proof.
  intros Hle. unfold round_trim.
  replace (len starts >? R) with false by lia. done.
Qed.

Lemma round_trim_cut R h :
  0 ≤ R → R < Z.of_nat (count_rounds h) →
  ∃ n u, round_trim R h (round_starts h)
         = Ok (drop n h, round_starts (drop n h))
       ∧ h !! n = Some u ∧ is_user u = true
       ∧ count_rounds (drop n h)
         = (if R =? 0 then count_rounds h else Z.to_nat R).
Proof.
  intros HR Hlt. unfold round_trim, len.
  rewrite length_round_starts.
  replace (Z.of_nat (count_rounds h) >? R) with true by lia.
  destruct (Z.eqb_spec R 0) as [-> | Hne].
  - rewrite index_zero by (unfold len; rewrite length_round_starts; lia).
    destruct (round_starts h !! 0%nat) as [n|] eqn:Hn.
    + destruct (round_starts_lookup _ _ _ Hn) as (u & Hu & Huser & Hc).
      exists n, u. repeat split; try done.
      rewrite (count_rounds_drop_start _ _ _ Hn). lia.
    + apply lookup_ge_None in Hn. rewrite length_round_starts in Hn. lia.
  - rewrite index_from_end
      by (unfold len; rewrite ?length_round_starts; lia).
    rewrite length_round_starts.
    destruct (round_starts h !! (count_rounds h - Z.to_nat R)%nat)
      as [n|] eqn:Hn.
    + destruct (round_starts_lookup _ _ _ Hn) as (u & Hu & Huser & Hc).
      exists n, u. repeat split; try done.
      rewrite (count_rounds_drop_start _ _ _ Hn). lia.
    + apply lookup_ge_None in Hn. rewrite length_round_starts in Hn. lia.
Qed.

(** ** The budget loop *)

Lemma budget_loop_stop fuel B h total starts :
  (total >? B) && (len starts >? 2) = false →
  budget_loop fuel B h total starts = (h, total, starts).
Proof. intros Hc. destruct fuel; simpl; [done|]. by rewrite Hc. Qed.

(** With the loop variables in the relation the code maintains, and fuel for
    every round beyond the second, the loop ends because its condition
    fails, having removed a prefix that ends at a round boundary. *)
Lemma budget_loop_exit fuel B h :
  (count_rounds h ≤ fuel + 2)%nat →
  ∃ n, budget_loop fuel B h (sum_chars h) (round_starts h)
       = (drop n h, sum_chars (drop n h), round_starts (drop n h))
     ∧ round_cut h n
     ∧ (sum_chars (drop n h) >? B)
       && (Z.of_nat (count_rounds (drop n h)) >? 2) = false
     ∧ (count_rounds (drop n h) ≤ count_rounds h)%nat
     ∧ ((2 ≤ count_rounds h)%nat → (2 ≤ count_rounds (drop n h))%nat)
     ∧ (n = 0%nat ∨ (sum_chars h > B ∧ (2 < count_rounds h)%nat)).
Proof.
  revert h. induction fuel as [|fuel IH]; intros h Hfuel.
  - exists 0%nat. rewrite drop_0. simpl. split; [done|].
    split; [apply round_cut_0|].
    split; [|by auto]. apply andb_false_iff. right. lia.
  - simpl.
    destruct ((sum_chars h >? B) && (len (round_starts h) >? 2)) eqn:Hc.
    + apply andb_true_iff in Hc as [Hs Hl].
      unfold len in Hl. rewrite length_round_starts in Hl.
      replace (len (round_starts h) >? 1) with true
        by (unfold len; rewrite length_round_starts; lia).
      destruct (round_starts h !! 1%nat) as [n1|] eqn:Hn1; simpl.
      2:{ apply lookup_ge_None in Hn1. rewrite length_round_starts in Hn1. lia. }
      destruct (round_starts_lookup _ _ _ Hn1) as (u & Hu & Huser & Hcnt).
      pose proof (count_rounds_drop_start _ _ _ Hn1) as Hdrop.
      replace (sum_chars h - sum_chars (take n1 h))
        with (sum_chars (drop n1 h))
        by (pose proof (sum_chars_take_drop n1 h); lia).
      destruct (IH (drop n1 h)) as (n2 & Heq & Hcut & Hexit & Hle & Hge & _);
        [lia|].
      exists (n1 + n2)%nat. rewrite Heq.
      pose proof (round_cut_compose h n1 n2 (round_cut_user _ _ _ Hu Huser) Hcut).
      rewrite drop_drop in *.
      split; [done|]. split; [done|].
      split; [done|]. split; [lia|]. split; [lia|]. right. lia.
    + exists 0%nat. rewrite drop_0. split; [done|].
      split; [apply round_cut_0|].
      split; [|by auto]. unfold len in Hc. by rewrite length_round_starts in Hc.
Qed.

Lemma budget_trim_exit B h :
  ∃ n, budget_trim B h (round_starts h) = drop n h
     ∧ round_cut h n
     ∧ (sum_chars (drop n h) >? B)
       && (Z.of_nat (count_rounds (drop n h)) >? 2) = false
     ∧ (count_rounds (drop n h) ≤ count_rounds h)%nat
     ∧ ((2 ≤ count_rounds h)%nat → (2 ≤ count_rounds (drop n h))%nat)
     ∧ (n = 0%nat ∨ (sum_chars h > B ∧ (2 < count_rounds h)%nat)).
Proof.
  destruct (budget_loop_exit (length h) B h) as (n & Heq & Hrest).
  { pose proof (count_rounds_le_length h). lia. }
  exists n. unfold budget_trim. by rewrite Heq.
Qed.

Lemma budget_trim_stop B h :
  (sum_chars h >? B) && (Z.of_nat (count_rounds h) >? 2) = false →
  budget_trim B h (round_starts h) = h.
Proof.
  intros Hc. unfold budget_trim. rewrite budget_loop_stop; [done|].
  unfold len. by rewrite length_round_starts.
Qed.

(** ** The trimmer as a whole *)

Lemma round_trim_zero_head u t :
  is_user u = true →
  round_trim 0 (u :: t) (round_starts (u :: t))
  = Ok (u :: t, round_starts (u :: t)).
Proof.
  intros Hu. unfold round_trim.
  assert (0 < len (round_starts (u :: t))) as Hlen.
  { unfold len. rewrite length_round_starts, count_rounds_cons, Hu. lia. }
  replace (len (round_starts (u :: t)) >? 0) with true by lia.
  rewrite index_zero by done.
  by rewrite (round_starts_head_user u t Hu), drop_0.
Qed.

Lemma round_trimmed_noop R h :
  round_trimmed R h → round_trim R h (round_starts h) = Ok (h, round_starts h).
Proof.
  intros [Hle | (-> & u & t & -> & Hu)].
  - apply round_trim_noop. unfold len. by rewrite length_round_starts.
  - by apply round_trim_zero_head.
Qed.

Lemma round_trimmed_drop R h n :
  round_trimmed R h → round_cut h n → round_trimmed R (drop n h).
Proof.
  intros Htr [-> | (u & Hu & Huser)]; [by rewrite drop_0|].
  destruct Htr as [Hle | (-> & _)].
  - left. pose proof (count_rounds_take_drop n h). lia.
  - right. split; [done|]. exists u, (drop (S n) h).
    split; [by apply drop_user_head | done].
Qed.

Lemma round_trim_spec R h :
  0 ≤ R →
  ∃ n, round_trim R h (round_starts h)
       = Ok (drop n h, round_starts (drop n h))
     ∧ round_cut h n
     ∧ round_trimmed R (drop n h)
     ∧ (Z.of_nat (count_rounds h) ≤ R → n = 0%nat)
     ∧ (1 ≤ R → R < Z.of_nat (count_rounds h) →
        count_rounds (drop n h) = Z.to_nat R).
Proof.
  intros HR. destruct (Z_lt_le_dec R (Z.of_nat (count_rounds h))) as [Hlt|Hle].
  - destruct (round_trim_cut R h HR Hlt) as (n & u & Heq & Hu & Huser & Hc).
    exists n. split; [done|]. split; [by eapply round_cut_user|].
    split; [|split; [lia|]].
    + destruct (Z.eqb_spec R 0) as [-> | Hne].
      * right. split; [done|]. exists u, (drop (S n) h).
        split; [by apply drop_user_head | done].
      * left. lia.
    + intros H1 _. destruct (Z.eqb_spec R 0); [lia | done].
  - exists 0%nat. rewrite drop_0. split.
    { apply round_trim_noop. unfold len. by rewrite length_round_starts. }
    split; [apply round_cut_0|]. split; [by left|]. split; [done | lia].
Qed.

(** The shape of every result of [trim] for a non-negative round bound. *)
Lemma trim_spec h R B :
  0 ≤ R →
  ∃ n, trim h R B = Ok (drop n h)
     ∧ round_cut h n
     ∧ round_trimmed R (drop n h)
     ∧ (sum_chars (drop n h) >? B)
       && (Z.of_nat (count_rounds (drop n h)) >? 2) = false.
Proof.
  intros HR. unfold trim.
  destruct (round_trim_spec R h HR) as (n1 & -> & Hcut1 & Htr & _).
  destruct (budget_trim_exit B (drop n1 h)) as (n2 & -> & Hcut2 & Hexit & _).
  exists (n1 + n2)%nat.
  pose proof (round_cut_compose _ _ _ Hcut1 Hcut2) as Hcut.
  pose proof (round_trimmed_drop _ _ _ Htr Hcut2) as Htr2.
  rewrite drop_drop in *. done.
Qed.

Lemma trim_fixpoint h R B :
  round_trimmed R h →
  (sum_chars h >? B) && (Z.of_nat (count_rounds h) >? 2) = false →
  trim h R B = Ok h.
Proof.
  intros Htr Hexit. unfold trim.
  rewrite (round_trimmed_noop _ _ Htr). by rewrite budget_trim_stop.
Qed.

Lemma trim_conversation_history_trim R h :
  0 ≤ R → _trim_conversation_history R h = trim h R MAX_HISTORY_CHARS.
Proof.
  intros HR. unfold _trim_conversation_history.
  destruct h as [|m h]; [|done]. simpl.
  unfold trim. rewrite round_trim_noop by (unfold len; simpl; lia). done.
Qed.

(** C4: the trimmer is idempotent: for every history and every pair of
    bounds, a number of rounds [R] and a byte budget [B], [trim] returns a
    history on which a second [trim] with the same bounds returns it
    unchanged; so do the two engines' trimmers, whose budget is fixed. *)
Theorem trim_idempotent (h : list LLMMessage) (R : nat) (B : Z) :
  (∃ h', trim h (Z.of_nat R) B = Ok h' ∧ trim h' (Z.of_nat R) B = Ok h')
  ∧ (∃ h', _trim_conversation_history (Z.of_nat R) h = Ok h'
         ∧ _trim_conversation_history (Z.of_nat R) h' = Ok h')
  ∧ (∃ h', _trim_history (Z.of_nat R) h = Ok h'
         ∧ _trim_history (Z.of_nat R) h' = Ok h').
Proof.
  assert (∀ B', ∃ h', trim h (Z.of_nat R) B' = Ok h'
                    ∧ trim h' (Z.of_nat R) B' = Ok h') as Htrim.
  { intros B'.
    destruct (trim_spec h (Z.of_nat R) B') as (n & Heq & _ & Htr & Hexit);
      [lia|].
    exists (drop n h). split; [done|]. by apply trim_fixpoint. }
  split; [apply Htrim|]. split.
  - rewrite trim_conversation_history_trim by lia.
    destruct (Htrim MAX_HISTORY_CHARS) as (h' & H1 & H2).
    exists h'. by rewrite trim_conversation_history_trim by lia.
  - apply Htrim.
Qed.

(** C5: on a history with at least two rounds the byte-budget stage leaves
    at least two rounds, whatever the budget; when what it leaves is still
    over the budget, exactly two rounds are left; and the trimmer as a
    whole, in either engine, keeps at least two rounds as soon as its round
    bound allows two. *)
Theorem budget_trim_floor (h : list LLMMessage) (B : Z) :
  (2 ≤ count_rounds h)%nat →
  (2 ≤ count_rounds (budget_trim B h (round_starts h)))%nat
  ∧ (sum_chars (budget_trim B h (round_starts h)) > B →
     count_rounds (budget_trim B h (round_starts h)) = 2%nat)
  ∧ (∀ R h', 2 ≤ R → trim h R B = Ok h' → (2 ≤ count_rounds h')%nat)
  ∧ (∀ R h', 2 ≤ R → _trim_conversation_history R h = Ok h' →
       (2 ≤ count_rounds h')%nat)
  ∧ (∀ R h', 2 ≤ R → _trim_history R h = Ok h' → (2 ≤ count_rounds h')%nat).
Proof.
  intros H2.
  assert (∀ B' R h', 2 ≤ R → trim h R B' = Ok h' → (2 ≤ count_rounds h')%nat)
    as Htrim; [|split; [|split; [|split; [by apply Htrim|split]]]].
  - intros B' R h' HR. unfold trim.
    destruct (round_trim_spec R h) as (n1 & -> & _ & _ & Hnoop & Hcnt); [lia|].
    destruct (budget_trim_exit B' (drop n1 h))
      as (n2 & -> & _ & _ & _ & Hge2 & _).
    intros [= <-]. apply Hge2.
    destruct (Z_lt_le_dec R (Z.of_nat (count_rounds h))) as [Hlt|Hle].
    + rewrite Hcnt by lia. lia.
    + rewrite (Hnoop Hle), drop_0. done.
  - destruct (budget_trim_exit B h) as (n & -> & _ & _ & _ & Hge & _).
    by apply Hge.
  - destruct (budget_trim_exit B h) as (n & -> & _ & Hexit & _ & Hge & _).
    intros Hover. apply andb_false_iff in Hexit as [Hs | Hc]; [lia|].
    specialize (Hge H2). lia.
  - intros R h' HR. rewrite trim_conversation_history_trim by lia.
    by apply Htrim.
  - intros R h' HR. by apply Htrim.
Qed.

(** Round limits that are not positive.  With [max_rounds = 0] the index
    [round_starts[-0]] is the first round start, so that no round is
    dropped; with a negative [max_rounds] the index counts from the front
    and may be out of range. *)
Lemma zero_round_limit_drops_no_round :
  _trim_history 0 three_short_rounds = Ok three_short_rounds.
Proof. reflexivity. Qed.

Lemma negative_round_limit_counts_from_front :
  trim three_short_rounds (-1) 100 = Ok (drop 1 three_short_rounds)
  ∧ trim (drop 2 three_short_rounds) (-1) 100 = Raise IndexError.
Proof. split; reflexivity. Qed.

Lemma budget_trim_floor_witness :
  (2 ≤ count_rounds (budget_trim 4 three_short_rounds
                       (round_starts three_short_rounds)))%nat
  ∧ sum_chars (budget_trim 4 three_short_rounds
                 (round_starts three_short_rounds)) = 6.
Proof.
  split.
  - apply (budget_trim_floor three_short_rounds 4). vm_compute. lia.
  - reflexivity.
Defined.

(** ** The validator *)

Lemma validate_unfold first rest :
  validate_message_sequence (first :: rest) =
  (if bool_decide (role first = USER) then [] else [FirstNotUser (role first)])
  ++ flat_map (tool_verdict (first :: rest)) (enumerate (first :: rest)).
Proof. done. Qed.

Lemma in_enumerate_from {A} (h : list A) k i m :
  In (i, m) (enumerate_from k h) ↔ (k ≤ i)%nat ∧ h !! (i - k)%nat = Some m.
Proof.
  revert k. induction h as [|x h IH]; intros k; simpl.
  - split; [done | by intros [_ ?]].
  - rewrite IH. split.
    + intros [[= -> ->] | [Hle Hm]].
      * rewrite Nat.sub_diag. done.
      * replace (i - k)%nat with (S (i - S k)) by lia. split; [lia | done].
    + intros [Hle Hm]. destruct (decide (i = k)) as [-> | Hne].
      * rewrite Nat.sub_diag in Hm. left. simpl in Hm. congruence.
      * right. replace (i - k)%nat with (S (i - S k)) in Hm by lia.
        split; [lia | done].
Qed.

Lemma in_enumerate {A} (h : list A) i m :
  In (i, m) (enumerate h) ↔ h !! i = Some m.
Proof.
  unfold enumerate. rewrite in_enumerate_from, Nat.sub_0_r.
  split; [by intros [_ ?] | split; [lia | done]].
Qed.

(** The validator reports position [i] exactly when it holds a tool message
    whose backward scan fails. *)
Lemma in_validate_tool h i :
  In (ToolWithoutAssistant i) (validate_message_sequence h) ↔
  ∃ t, h !! i = Some t ∧ is_tool t = true
       ∧ scan_back (rev (take i h)) = false.
Proof.
  destruct h as [|first rest]; [by split; [|intros (? & ? & _)]|].
  rewrite validate_unfold, in_app_iff, in_flat_map. split.
  - intros [Hin | ([j t] & Hin & Hv)].
    { case_bool_decide; simpl in Hin; [done|]. by destruct Hin. }
    apply in_enumerate in Hin. unfold tool_verdict in Hv.
    destruct (is_tool t) eqn:Ht; [|done].
    destruct (scan_back _) eqn:Hs; [done|].
    destruct Hv as [[= ->] | []]. eauto.
  - intros (t & Hi & Ht & Hs). right. exists (i, t).
    split; [by apply in_enumerate|].
    unfold tool_verdict. rewrite Ht, Hs. by left.
Qed.

Lemma in_validate_first h r :
  In (FirstNotUser r) (validate_message_sequence h) ↔
  ∃ first, h !! 0%nat = Some first ∧ role first = r ∧ r ≠ USER.
Proof.
  destruct h as [|first rest]; [by split; [|intros (? & ? & _)]|].
  rewrite validate_unfold, in_app_iff, in_flat_map. split.
  - intros [Hin | ([j t] & _ & Hv)].
    + case_bool_decide; simpl in Hin; [done|].
      destruct Hin as [[= <-] | []]. eauto.
    + unfold tool_verdict in Hv.
      destruct (is_tool t); [|done]. destruct (scan_back _); [done|].
      by destruct Hv.
  - intros (f & [= <-] & <- & Hne). left.
    case_bool_decide; [done | by left].
Qed.

(** The backward scan succeeds exactly when some assistant message with
    tool calls lies before the tool message with no user message in
    between. *)
Lemma scan_back_iff (pre : list LLMMessage) :
  scan_back (rev pre) = true ↔
  ∃ j a, pre !! j = Some a ∧ requests_tools a = true
         ∧ ∀ k m, (j < k)%nat → pre !! k = Some m → is_user m = false.
Proof.
  induction pre as [|m pre IH] using rev_ind.
  - simpl. split; [done | by intros (? & ? & ? & _)].
  - rewrite rev_app_distr. simpl. fold (requests_tools m).
    destruct (requests_tools m) eqn:Hreq.
    { split; [|done]. intros _. exists (length pre), m.
      rewrite list_lookup_middle by done. split; [done|]. split; [done|].
      intros k m' Hk Hm'. apply lookup_lt_Some in Hm'.
      rewrite length_app in Hm'. simpl in Hm'. lia. }
    destruct (is_user m) eqn:Hu.
    { split; [done|]. intros (j & a & Hj & Ha & Hbetween).
      pose proof (lookup_lt_Some _ _ _ Hj) as Hlt.
      rewrite length_app in Hlt. simpl in Hlt.
      destruct (decide (j = length pre)) as [-> | Hne].
      - rewrite list_lookup_middle in Hj by done. congruence.
      - assert (is_user m = false); [|congruence].
        apply (Hbetween (length pre)); [lia|].
        by rewrite list_lookup_middle. }
    rewrite IH. split.
    + intros (j & a & Hj & Ha & Hbetween). exists j, a.
      pose proof (lookup_lt_Some _ _ _ Hj) as Hlt.
      rewrite lookup_app_l by done. split; [done|]. split; [done|].
      intros k m' Hk Hm'.
      destruct (decide (k = length pre)) as [-> | Hne].
      * rewrite list_lookup_middle in Hm' by done. congruence.
      * pose proof (lookup_lt_Some _ _ _ Hm') as Hlt'.
        rewrite length_app in Hlt'. simpl in Hlt'.
        rewrite lookup_app_l in Hm' by lia. eauto.
    + intros (j & a & Hj & Ha & Hbetween).
      pose proof (lookup_lt_Some _ _ _ Hj) as Hlt.
      rewrite length_app in Hlt. simpl in Hlt.
      destruct (decide (j = length pre)) as [-> | Hne].
      { rewrite list_lookup_middle in Hj by done. congruence. }
      exists j, a. rewrite lookup_app_l in Hj by lia.
      split; [done|]. split; [done|].
      intros k m' Hk Hm'. apply (Hbetween k m' Hk).
      pose proof (lookup_lt_Some _ _ _ Hm').
      by rewrite lookup_app_l by lia.
Qed.

Lemma scan_back_take h i :
  scan_back (rev (take i h)) = true ↔ has_tool_request_before h i.
Proof.
  rewrite scan_back_iff. unfold has_tool_request_before. split.
  - intros (j & a & Hj & Ha & Hbetween).
    apply lookup_take_Some in Hj as [Hj Hlt]. exists j, a.
    split; [done|]. split; [done|]. split; [done|].
    intros k m [Hjk Hki] Hm. apply (Hbetween k m Hjk).
    by rewrite lookup_take_lt.
  - intros (j & a & Hlt & Hj & Ha & Hbetween). exists j, a.
    split; [by rewrite lookup_take_lt|]. split; [done|].
    intros k m Hjk Hm. apply lookup_take_Some in Hm as [Hm Hki].
    by apply (Hbetween k m).
Qed.

(** C8, as the validator behaves: a non-empty history whose first message is
    not a user message is reported; and a tool message is reported exactly
    when, scanning backward up to the previous user message, no assistant
    message carrying tool calls is met.  The invocation ids are not
    compared. *)
Theorem validate_reports (h : list LLMMessage) :
  (∀ first rest, h = first :: rest → role first ≠ USER →
     In (FirstNotUser (role first)) (validate_message_sequence h))
  ∧ (∀ i t, h !! i = Some t → is_tool t = true →
       (In (ToolWithoutAssistant i) (validate_message_sequence h)
        ↔ ¬ has_tool_request_before h i)).
Proof.
  split.
  - intros first rest -> Hne. apply in_validate_first. by exists first.
  - intros i t Hi Ht. rewrite in_validate_tool, <- scan_back_take. split.
    + intros (_ & _ & _ & Hs). by rewrite Hs.
    + intros Hs. exists t. split; [done|]. split; [done|].
      by destruct (scan_back _).
Qed.

(** The validator accepts [mismatched_history], although no message of it
    carries the invocation id of its tool message. *)
Lemma validate_ignores_invocation_ids :
  validate_message_sequence mismatched_history = []
  ∧ ∃ t, mismatched_history !! 2%nat = Some t ∧ is_tool t = true
         ∧ ¬ has_requester_before mismatched_history 2 t.
Proof.
  split; [reflexivity|]. eexists. split; [reflexivity|]. split; [reflexivity|].
  intros (j & a & Hlt & Hj & Ha & _).
  destruct j as [|[|j]]; [| |lia]; simpl in Hj; injection Hj as <-;
    vm_compute in Ha; discriminate.
Qed.

(** ** Tool-chain linkage *)

Lemma linked_app st h1 h2 :
  linked st (h1 ++ h2) = linked st h1 && linked (foldl step st h1) h2.
Proof.
  revert st. induction h1 as [|m h1 IH]; intros st; simpl; [done|].
  by rewrite IH, andb_assoc.
Qed.

Lemma step_user st u : is_user u = true → step st u = None.
Proof.
  intros Hu. unfold step, requests_tools.
  by rewrite (is_user_not_assistant _ Hu), Hu.
Qed.

Lemma linked_user_head st u h :
  is_user u = true → linked st (u :: h) = linked None h.
Proof.
  intros Hu. simpl. by rewrite (is_user_not_tool _ Hu), (step_user _ _ Hu).
Qed.

Lemma well_linked_nil : well_linked [].
Proof. done. Qed.

Lemma well_linked_drop h n :
  well_linked h → round_cut h n → well_linked (drop n h).
Proof.
  intros Hwl [-> | (u & Hu & Huser)]; [by rewrite drop_0|].
  destruct Hwl as [_ Hl].
  rewrite <- (take_drop n h), linked_app in Hl.
  apply andb_true_iff in Hl as [_ Hl].
  rewrite (drop_user_head _ _ _ Hu) in *.
  split; [done|]. by rewrite linked_user_head in *.
Qed.

Lemma well_linked_commit h u rest :
  well_linked h → is_user u = true → linked None rest = true →
  well_linked (h ++ u :: rest).
Proof.
  intros [Hs Hl] Hu Hrest. split.
  - destruct h; [done | done].
  - by rewrite linked_app, Hl, linked_user_head.
Qed.

Lemma requested_by_requests_tools a t :
  requested_by a t = true → requests_tools a = true.
Proof.
  unfold requested_by, requests_tools.
  intros [Ha Hid]%andb_true_iff. rewrite Ha. simpl.
  destruct (tool_calls a) as [[|tc tcs]|]; try done.
  destruct (tool_call_id t); [|done].
  apply bool_decide_eq_true in Hid. by apply elem_of_nil in Hid.
Qed.

Lemma tracks_nil : tracks [] None.
Proof. by intros a. Qed.

Lemma tracks_step pre st m : tracks pre st → tracks (pre ++ [m]) (step st m).
Proof.
  intros Htr a. unfold step.
  destruct (requests_tools m) eqn:Hreq.
  { intros [= <-]. exists (length pre).
    rewrite list_lookup_middle by done. split; [done|].
    intros k m' Hk Hm'. apply lookup_lt_Some in Hm'.
    rewrite length_app in Hm'. simpl in Hm'. lia. }
  destruct (is_user m) eqn:Hu; [done|].
  intros (j & Hj & Hbetween)%Htr. exists j.
  pose proof (lookup_lt_Some _ _ _ Hj).
  rewrite lookup_app_l by done. split; [done|].
  intros k m' Hk Hm'. destruct (decide (k = length pre)) as [-> | Hne].
  - rewrite list_lookup_middle in Hm' by done. congruence.
  - pose proof (lookup_lt_Some _ _ _ Hm') as Hlt.
    rewrite length_app in Hlt. simpl in Hlt.
    rewrite lookup_app_l in Hm' by lia. eauto.
Qed.

Lemma linked_requester_from h pre st :
  tracks pre st → linked st h = true →
  ∀ i t, h !! i = Some t → is_tool t = true →
         has_requester_before (pre ++ h) (length pre + i) t.
Proof.
  revert pre st. induction h as [|m h IH]; intros pre st Htr Hl i t Hi Ht;
    [done|].
  simpl in Hl. apply andb_true_iff in Hl as [Hm Hl].
  destruct i as [|i]; simpl in Hi.
  - injection Hi as ->. rewrite Ht in Hm.
    destruct st as [a|]; [|done].
    destruct (Htr a eq_refl) as (j & Hj & Hbetween).
    pose proof (lookup_lt_Some _ _ _ Hj). exists j, a.
    split; [lia|]. rewrite lookup_app_l by done.
    split; [done|]. split; [done|].
    intros k m' Hk Hm'. rewrite lookup_app_l in Hm' by lia.
    apply (Hbetween k m'); [lia | done].
  - specialize (IH (pre ++ [m]) (step st m) (tracks_step _ _ _ Htr) Hl i t Hi Ht).
    rewrite <- app_assoc, length_app in IH. simpl in IH.
    by replace (length pre + S i)%nat with (length pre + 1 + i)%nat by lia.
Qed.

Lemma has_requester_tool_request h i t :
  has_requester_before h i t → has_tool_request_before h i.
Proof.
  intros (j & a & Hlt & Hj & Ha & Hbetween). exists j, a.
  eauto using requested_by_requests_tools.
Qed.

(** A well-linked history passes the validator, and each of its tool
    messages has its requester in its own round. *)
Lemma well_linked_valid h :
  well_linked h →
  validate_message_sequence h = []
  ∧ ∀ i t, h !! i = Some t → is_tool t = true → has_requester_before h i t.
Proof.
  intros [Hs Hl].
  assert (∀ i t, h !! i = Some t → is_tool t = true →
                 has_requester_before h i t) as Hreq.
  { intros i t Hi Ht.
    apply (linked_requester_from h [] None tracks_nil Hl i t Hi Ht). }
  split; [|done].
  destruct (validate_message_sequence h) as [|v vs] eqn:Hv; [done|].
  assert (In v (validate_message_sequence h)) as Hin by (rewrite Hv; by left).
  destruct v as [r | i].
  - apply in_validate_first in Hin as (first & Hfirst & <- & Hne).
    destruct h as [|m h]; [done|]. injection Hfirst as ->.
    simpl in Hs. by apply bool_decide_eq_true in Hs.
  - apply in_validate_tool in Hin as (t & Hi & Ht & Hscan).
    pose proof (Hreq i t Hi Ht) as Hr.
    apply has_requester_tool_request, scan_back_take in Hr. congruence.
Qed.

(** ** The turn of [DirectAgentSimulator] *)

Section DirectAgentFacts.
Context {W : Type} `{Collaborators W}.

Lemma with_world_same (s : DA.t W) : DA.with_world s (DA.world s) = s.
Proof. by destruct s. Qed.

Lemma with_world_twice (s : DA.t W) w1 w2 :
  DA.with_world (DA.with_world s w1) w2 = DA.with_world s w2.
Proof. done. Qed.

Lemma run_tool_calls_eq tcs msgs (s : DA.t W) :
  DA.run_tool_calls tcs msgs s =
  (Ok (msgs ++ (tool_results tcs (DA.world s)).1),
   DA.with_world s (tool_results tcs (DA.world s)).2).
Proof.
  revert msgs s. induction tcs as [|tc tcs IH]; intros msgs s; simpl.
  - by rewrite app_nil_r, with_world_same.
  - unfold bind, DA.call_total, DA.call.
    destruct (execute_skill (tc_name tc) (DA.world s)) as [r w1] eqn:Hr.
    rewrite IH. simpl.
    destruct (tool_results tcs w1) as [ms w2]. simpl.
    by rewrite <- app_assoc.
Qed.

Lemma tool_results_answers tcs w : answers tcs (tool_results tcs w).1.
Proof.
  revert w. induction tcs as [|tc tcs IH]; intros w; simpl; [constructor|].
  destruct (execute_skill (tc_name tc) w) as [r w1].
  specialize (IH w1). destruct (tool_results tcs w1) as [ms w2].
  by constructor.
Qed.

Lemma tool_loop_spec n tds msgs (s : DA.t W) r s' :
  DA.tool_loop n tds msgs s = (r, s') →
  DA.conversation_history s' = DA.conversation_history s
  ∧ match r with
    | Ok msgs' => ∃ produced, msgs' = msgs ++ produced ∧ tool_groups produced
    | Raise _ => True
    end.
Proof.
  revert msgs s. induction n as [|n IH]; intros msgs s; simpl.
  { intros [= <- <-]. split; [done|]. exists []. rewrite app_nil_r.
    split; [done | constructor]. }
  destruct (truthy tds); simpl.
  2:{ intros [= <- <-]. split; [done|]. exists []. rewrite app_nil_r.
      split; [done | constructor]. }
  unfold bind at 1. unfold DA.call.
  destruct (chat_complete msgs (Some tds) (DA.world s)) as [[resp|e] w1].
  2:{ by intros [= <- <-]. }
  destruct (resp_tool_calls resp) as [tcs|] eqn:Htcs; simpl.
  2:{ intros [= <- <-]. split; [done|]. exists []. rewrite app_nil_r.
      split; [done | constructor]. }
  destruct (truthy tcs) eqn:Htruthy; simpl.
  2:{ intros [= <- <-]. split; [done|]. exists []. rewrite app_nil_r.
      split; [done | constructor]. }
  unfold bind. rewrite run_tool_calls_eq. simpl.
  intros Hloop. apply IH in Hloop as [Hh Hr]. split; [done|].
  destruct r as [msgs'|e]; [|done].
  destruct Hr as (produced & -> & Hgroups).
  exists (DA.assistant_tool_message (resp_content resp) (Some tcs)
          :: (tool_results tcs w1).1 ++ produced).
  split; [by rewrite <- !app_assoc|].
  eapply tool_groups_cons; eauto using tool_results_answers.
Qed.

(** *** What the commit stores *)

Lemma stored_not_tool m : is_tool m = false → DA.stored m = m.
Proof. intros Ht. unfold DA.stored. by rewrite Ht. Qed.

Lemma stored_role m : role (DA.stored m) = role m.
Proof. unfold DA.stored. by destruct (_ && _). Qed.

Lemma stored_tool_call_id m : tool_call_id (DA.stored m) = tool_call_id m.
Proof. unfold DA.stored. by destruct (_ && _). Qed.

Lemma stored_is_tool m : is_tool (DA.stored m) = is_tool m.
Proof. unfold is_tool. by rewrite stored_role. Qed.

Lemma stored_is_user m : is_user (DA.stored m) = is_user m.
Proof. unfold is_user. by rewrite stored_role. Qed.

Lemma stored_requested_by a m :
  requested_by a (DA.stored m) = requested_by a m.
Proof. unfold requested_by. by rewrite stored_tool_call_id. Qed.

Lemma stored_step st m : is_tool m = true → step st (DA.stored m) = st.
Proof.
  intros Ht. rewrite <- stored_is_tool in Ht. unfold step, requests_tools.
  by rewrite (is_tool_not_assistant _ Ht), (is_tool_not_user _ Ht).
Qed.

(** The content stored for a tool message: unchanged up to 1500
    characters, otherwise the first 1500 followed by the notice. *)
Lemma stored_tool_content m c :
  is_tool m = true → content m = Some c →
  content (DA.stored m)
  = Some (if len c >? 1500 then take 1500 c ++ TRUNCATION_MARKER else c).
Proof.
  intros Ht Hc. unfold DA.stored. rewrite Ht, Hc. simpl.
  destruct c as [|x c]; simpl; [done|].
  by destruct (len (x :: c) >? 1500).
Qed.

Lemma stored_tool_bound m :
  is_tool m = true →
  content_len (DA.stored m) ≤ 1500 + len TRUNCATION_MARKER.
Proof.
  intros Ht. unfold content_len.
  destruct (content m) as [c|] eqn:Hc.
  - rewrite (stored_tool_content m c Ht Hc).
    destruct (Z.gtb_spec (len c) 1500) as [Hgt|Hle].
    + unfold or_empty, len in *.
      change (length TRUNCATION_MARKER) with 18%nat.
      destruct (truthy _); [|simpl; lia].
      rewrite length_app, length_take.
      change (length TRUNCATION_MARKER) with 18%nat. lia.
    + unfold or_empty, len in *.
      change (length TRUNCATION_MARKER) with 18%nat.
      destruct (truthy c); simpl; lia.
  - unfold DA.stored. rewrite Ht, Hc. simpl. rewrite Hc. done.
Qed.

(** *** The commit *)

Lemma for_each_append (l : list LLMMessage) (s : DA.t W) :
  for_each l (fun msg => DA.append_history (DA.stored msg)) s
  = (Ok tt, {| DA.conversation_history :=
                 DA.conversation_history s ++ map DA.stored l;
               DA.world := DA.world s |}).
Proof.
  revert s. induction l as [|m l IH]; intros s; simpl.
  - rewrite app_nil_r. by destruct s.
  - unfold bind, DA.append_history at 1. rewrite IH. simpl.
    by rewrite <- app_assoc.
Qed.

(** [execute_task] step by step: the tool loop, the streamed reply, the
    commit and the trim. *)
Lemma execute_task_eq task (s : DA.t W) :
  DA.execute_task task s =
  match DA.tool_loop DA.max_tool_rounds (get_tool_definitions (DA.world s))
          (transcript (DA.conversation_history s) task) s with
  | (Raise e, s1) => (Raise e, s1)
  | (Ok messages, s1) =>
      match chat messages (DA.world s1) with
      | (Raise e, w2) => (Raise e, DA.with_world s1 w2)
      | (Ok chunks, w2) =>
          let h := committed (DA.conversation_history s1) messages
                     (concat chunks) in
          match _trim_conversation_history 6 h with
          | Ok h' =>
              (Ok (concat chunks),
               {| DA.conversation_history := h'; DA.world := w2 |})
          | Raise e =>
              (Raise e, {| DA.conversation_history := h; DA.world := w2 |})
          end
      end
  end.
Proof.
  unfold DA.execute_task, transcript. unfold bind at 1, get at 1.
  unfold bind at 1.
  destruct (DA.tool_loop _ _ _ s) as [[messages|e] s1]; [|done].
  unfold bind at 1, DA.call.
  destruct (chat messages (DA.world s1)) as [[chunks|e] w2]; [|done].
  unfold bind at 1, get at 1. unfold bind at 1.
  rewrite for_each_append. unfold bind at 1. unfold committed, final_message.
  simpl DA.conversation_history. simpl DA.world.
  destruct (truthy (strip (concat chunks))); simpl.
  - unfold DA.append_history, bind, DA.trim_conversation_history, bind, get.
    simpl. rewrite <- !app_assoc.
    destruct (_trim_conversation_history 6 _); done.
  - unfold ret, bind, DA.trim_conversation_history, bind, get.
    simpl. rewrite !app_nil_r.
    destruct (_trim_conversation_history 6 _); done.
Qed.

(** *** The round a turn commits *)

Lemma answers_tools tcs tools :
  answers tcs tools →
  Forall (fun m => is_tool m = true
                   ∧ ∃ tc, tc ∈ tcs ∧ tool_call_id m = Some (tc_id tc)) tools.
Proof.
  induction 1 as [|tc m tcs tools [Ht Hid] _ IH]; constructor.
  - split; [done|]. exists tc. split; [left | done].
  - eapply Forall_impl; [exact IH|]. simpl.
    intros m' (Ht' & tc' & Hin & Hid'). split; [done|].
    exists tc'. split; [by right | done].
Qed.

Lemma tool_groups_roles produced :
  tool_groups produced →
  Forall (fun m => is_assistant m = true ∨ is_tool m = true) produced.
Proof.
  induction 1 as [|a tcs tools rest Ha _ _ Hans%answers_tools _ IH];
    [constructor|].
  constructor; [by left|]. apply Forall_app. split; [|done].
  eapply Forall_impl; [exact Hans|]. simpl. by intros m [Ht _]; right.
Qed.

Lemma final_message_assistant reply :
  Forall (fun m => is_assistant m = true) (final_message reply).
Proof.
  unfold final_message. destruct (truthy _); repeat constructor.
Qed.

Lemma new_round_roles produced reply :
  tool_groups produced →
  Forall (fun m => is_assistant m = true ∨ is_tool m = true)
         (map DA.stored produced ++ final_message reply).
Proof.
  intros Hg%tool_groups_roles. apply Forall_app. split.
  - apply Forall_fmap. eapply Forall_impl; [exact Hg|]. simpl.
    intros m [Ha | Ht].
    + left. by rewrite stored_not_tool by by apply is_assistant_not_tool.
    + right. by rewrite stored_is_tool.
  - eapply Forall_impl; [apply final_message_assistant|]. by left.
Qed.

Lemma new_round_no_user produced reply :
  tool_groups produced →
  Forall (fun m => is_user m = false)
         (map DA.stored produced ++ final_message reply).
Proof.
  intros Hg. eapply Forall_impl; [by apply new_round_roles|]. simpl.
  intros m [Ha | Ht]; [by apply is_assistant_not_user | by apply is_tool_not_user].
Qed.

Lemma linked_final st reply : linked st (final_message reply) = true.
Proof.
  unfold final_message. destruct (truthy _); [|done]. reflexivity.
Qed.

Lemma linked_answers a tcs tools rest :
  is_assistant a = true → tool_calls a = Some tcs → answers tcs tools →
  linked (Some a) (map DA.stored tools ++ rest) = linked (Some a) rest.
Proof.
  intros Ha Htcs Hans%answers_tools.
  induction Hans as [|m tools (Ht & tc & Hin & Hid) _ IH]; [done|].
  simpl. rewrite stored_is_tool, Ht, stored_requested_by, stored_step by done.
  rewrite IH. unfold requested_by. rewrite Ha, Htcs, Hid. simpl.
  rewrite bool_decide_eq_true_2; [done|].
  apply list_elem_of_fmap. by exists tc.
Qed.

Lemma new_round_linked produced reply st :
  tool_groups produced →
  linked st (map DA.stored produced ++ final_message reply) = true.
Proof.
  intros Hg. revert st.
  induction Hg as [|a tcs tools rest Ha Htcs Htr Hans _ IH]; intros st.
  - apply linked_final.
  - rewrite map_cons, map_app, <- app_comm_cons, <- app_assoc.
    rewrite stored_not_tool by by apply is_assistant_not_tool.
    simpl. rewrite (is_assistant_not_tool _ Ha). simpl.
    assert (step st a = Some a) as ->.
    { unfold step, requests_tools. rewrite Ha, Htcs. simpl. by rewrite Htr. }
    by rewrite (linked_answers a tcs), IH.
Qed.

Lemma round_cut_commit h u rest n :
  is_user u = true → Forall (fun m => is_user m = false) rest →
  round_cut (h ++ u :: rest) n → (n ≤ length h)%nat.
Proof.
  intros Hu Hrest [-> | (m & Hm & Huser)]; [lia|].
  destruct (decide (n ≤ length h)%nat) as [|Hgt]; [done|].
  rewrite lookup_app_r in Hm by lia.
  destruct (n - length h)%nat as [|k] eqn:Hk; [lia|]. simpl in Hm.
  rewrite Forall_lookup in Hrest. specialize (Hrest _ _ Hm). congruence.
Qed.

Lemma drop_transcript h task produced :
  drop (1 + length h) (transcript h task ++ produced)
  = plain_message USER task :: produced.
Proof.
  unfold transcript. simpl. rewrite <- app_assoc.
  by rewrite drop_app_length.
Qed.

(** A completed turn: the loop added [produced] to the transcript, the
    stream gave the reply, and the history is a suffix, cut at a round
    boundary, of the old history followed by the whole new round. *)
Lemma execute_task_ok task (s : DA.t W) reply s' :
  DA.execute_task task s = (Ok reply, s') →
  let h := DA.conversation_history s in
  ∃ produced s1 chunks n,
    DA.tool_loop DA.max_tool_rounds (get_tool_definitions (DA.world s))
      (transcript h task) s = (Ok (transcript h task ++ produced), s1)
    ∧ chat (transcript h task ++ produced) (DA.world s1)
      = (Ok chunks, DA.world s')
    ∧ reply = concat chunks
    ∧ tool_groups produced
    ∧ (n ≤ length h)%nat
    ∧ round_cut (h ++ new_round task produced reply) n
    ∧ DA.conversation_history s' = drop n h ++ new_round task produced reply.
Proof.
  intros Hex h. rewrite execute_task_eq in Hex. fold h in Hex.
  destruct (DA.tool_loop _ _ _ s) as [[messages|e] s1] eqn:Hloop; [|done].
  destruct (tool_loop_spec _ _ _ _ _ _ Hloop) as (Hh & produced & -> & Hg).
  destruct (chat _ (DA.world s1)) as [[chunks|e] w2] eqn:Hchat; [|done].
  cbv zeta in Hex. rewrite Hh in Hex. fold h in Hex.
  unfold committed in Hex. rewrite drop_transcript in Hex.
  rewrite trim_conversation_history_trim in Hex by lia.
  change (h ++ map DA.stored (plain_message USER task :: produced)
            ++ final_message (concat chunks))
    with (h ++ new_round task produced (concat chunks)) in Hex.
  destruct (trim_spec (h ++ new_round task produced (concat chunks)) 6
              MAX_HISTORY_CHARS) as (n & Htrim & Hcut & _); [lia|].
  rewrite Htrim in Hex. injection Hex as <- <-.
  pose proof (round_cut_commit h (plain_message USER task) _ n eq_refl
                (new_round_no_user produced (concat chunks) Hg) Hcut)
    as Hn.
  exists produced, s1, chunks, n. simpl.
  repeat split; try done. by rewrite drop_app_le.
Qed.

(** A turn that raises leaves the history as it was. *)
Lemma execute_task_raise task (s : DA.t W) e s' :
  DA.execute_task task s = (Raise e, s') →
  DA.conversation_history s' = DA.conversation_history s.
Proof.
  rewrite execute_task_eq.
  destruct (DA.tool_loop _ _ _ s) as [[messages|e1] s1] eqn:Hloop.
  - destruct (tool_loop_spec _ _ _ _ _ _ Hloop) as [Hh _].
    destruct (chat _ (DA.world s1)) as [[chunks|e2] w2] eqn:Hchat.
    + cbv zeta. rewrite trim_conversation_history_trim by lia.
      destruct (trim_spec (committed (DA.conversation_history s1) messages
                             (concat chunks)) 6 MAX_HISTORY_CHARS)
        as (n & -> & _); [lia|]. done.
    + by intros [= <- <-].
  - destruct (tool_loop_spec _ _ _ _ _ _ Hloop) as [Hh _].
    by intros [= <- <-].
Qed.

(** *** Reachable agent states *)

Lemma new_round_ledger_role task produced reply :
  tool_groups produced → Forall ledger_role (new_round task produced reply).
Proof.
  intros Hg. constructor; [by left|].
  eapply Forall_impl; [by apply new_round_roles|]. simpl.
  intros m [Ha%bool_decide_eq_true | Ht%bool_decide_eq_true];
    unfold ledger_role; auto.
Qed.

Lemma new_round_tool_bounded task produced reply :
  Forall tool_bounded (new_round task produced reply).
Proof.
  constructor; [done|]. apply Forall_app. split.
  - apply Forall_fmap, Forall_forall. intros m _ Ht. simpl in *.
    rewrite stored_is_tool in Ht. by apply stored_tool_bound.
  - eapply Forall_impl; [apply final_message_assistant|].
    intros m Ha Ht. apply is_assistant_not_tool in Ha. congruence.
Qed.

Lemma new_round_well_linked h task produced reply :
  well_linked h → tool_groups produced →
  well_linked (h ++ new_round task produced reply).
Proof.
  intros Hwl Hg. apply well_linked_commit; [done | done |].
  by apply new_round_linked.
Qed.

Lemma history_invariant_turn task (s : DA.t W) reply s' :
  history_invariant (DA.conversation_history s) →
  DA.execute_task task s = (Ok reply, s') →
  history_invariant (DA.conversation_history s').
Proof.
  intros (Hwl & Hroles & Hbound) Hex.
  destruct (execute_task_ok _ _ _ _ Hex)
    as (produced & s1 & chunks & n & _ & _ & _ & Hg & Hn & Hcut & Hh').
  rewrite Hh'. rewrite <- drop_app_le by done. split; [|split].
  - apply well_linked_drop; [|done]. by apply new_round_well_linked.
  - apply Forall_drop, Forall_app. split; [done|].
    by apply new_round_ledger_role.
  - apply Forall_drop, Forall_app. split; [done|].
    apply new_round_tool_bounded.
Qed.

Lemma reachable_invariant (s : DA.t W) :
  reachable s → history_invariant (DA.conversation_history s).
Proof.
  induction 1 as [w | s w _ IH | s task r s' _ IH Hex].
  - split; [apply well_linked_nil|]. split; constructor.
  - done.
  - destruct r as [reply|e].
    + by eapply history_invariant_turn.
    + by rewrite (execute_task_raise _ _ _ _ Hex).
Qed.

(** C1: after every committed turn of an agent the validator finds nothing
    to report in the history, whatever the collaborators answered; and every
    tool message retained after the trim still has, earlier in its own
    round, the assistant message that carries its invocation id. *)
Theorem committed_turn_valid (s : DA.t W) task reply s' :
  reachable s →
  DA.execute_task task s = (Ok reply, s') →
  validate_message_sequence (DA.conversation_history s') = []
  ∧ ∀ i t, DA.conversation_history s' !! i = Some t → is_tool t = true →
           has_requester_before (DA.conversation_history s') i t.
Proof.
  intros Hreach Hex. apply well_linked_valid.
  apply (reachable_invariant s') .
  by eapply reachable_turn.
Qed.


(** C9, as the commit behaves: a completed turn leaves a suffix of the old
    history followed by the user message, the stored messages of the tool
    loop and then, last, one plain assistant message carrying the reply when
    the reply has a character that is not white space, and nothing when it
    has none. *)
Theorem reply_appended_when_not_blank (s : DA.t W) task reply s' :
  DA.execute_task task s = (Ok reply, s') →
  ∃ produced s1 n,
    DA.tool_loop DA.max_tool_rounds (get_tool_definitions (DA.world s))
      (transcript (DA.conversation_history s) task) s
    = (Ok (transcript (DA.conversation_history s) task ++ produced), s1)
    ∧ Forall (fun m => is_assistant m = true ∧ requests_tools m = true
                       ∨ is_tool m = true) produced
    ∧ DA.conversation_history s'
      = drop n (DA.conversation_history s)
        ++ plain_message USER task :: map DA.stored produced
        ++ (if truthy (strip reply) then [plain_message ASSISTANT reply]
            else []).
Proof.
  intros Hex.
  destruct (execute_task_ok _ _ _ _ Hex)
    as (produced & s1 & chunks & n & Hloop & _ & _ & Hg & _ & _ & Hh').
  exists produced, s1, n. split; [done|]. split; [|done].
  clear -Hg. induction Hg as [|a tcs tools rest Ha Htcs Htr Hans _ IH];
    [constructor|].
  constructor.
  { left. split; [done|]. unfold requests_tools. rewrite Ha, Htcs. done. }
  apply Forall_app. split; [|done].
  apply answers_tools in Hans. eapply Forall_impl; [exact Hans|].
  simpl. intros m [Ht _]. by right.
Qed.

(** C6, as the orchestrator behaves: the reply of a completed turn is the
    concatenation of the chunks streamed by the final [chat] call, made on
    the transcript as the tool loop left it; a completion without
    invocations only stops the loop, and its text is used nowhere. *)
Theorem reply_is_streamed (s : DA.t W) task reply s' :
  DA.execute_task task s = (Ok reply, s') →
  (∃ produced s1 chunks,
     DA.tool_loop DA.max_tool_rounds (get_tool_definitions (DA.world s))
       (transcript (DA.conversation_history s) task) s
     = (Ok (transcript (DA.conversation_history s) task ++ produced), s1)
     ∧ chat (transcript (DA.conversation_history s) task ++ produced)
         (DA.world s1) = (Ok chunks, DA.world s')
     ∧ reply = concat chunks)
  ∧ (∀ n tds msgs (s0 : DA.t W) resp w',
       truthy tds = true →
       chat_complete msgs (Some tds) (DA.world s0) = (Ok resp, w') →
       truthy_opt (resp_tool_calls resp) = false →
       DA.tool_loop (S n) tds msgs s0 = (Ok msgs, DA.with_world s0 w')).
Proof.
  intros Hex. split.
  - destruct (execute_task_ok _ _ _ _ Hex)
      as (produced & s1 & chunks & n & Hloop & Hchat & Hr & _).
    by exists produced, s1, chunks.
  - intros n tds msgs s0 resp w' Htds Hresp Hnone. simpl.
    rewrite Htds. simpl. unfold bind, DA.call. rewrite Hresp, Hnone. done.
Qed.

(** *** Failures *)

(** One iteration of the tool loop. *)
Lemma tool_loop_S n tds msgs (s : DA.t W) :
  DA.tool_loop (S n) tds msgs s =
  if negb (truthy tds) then (Ok msgs, s)
  else
    match chat_complete msgs (Some tds) (DA.world s) with
    | (Raise e, w') => (Raise e, DA.with_world s w')
    | (Ok resp, w') =>
        if negb (truthy_opt (resp_tool_calls resp))
        then (Ok msgs, DA.with_world s w')
        else
          let tcs := default [] (resp_tool_calls resp) in
          DA.tool_loop n tds
            (msgs ++ DA.assistant_tool_message (resp_content resp)
                       (resp_tool_calls resp)
                  :: (tool_results tcs w').1)
            (DA.with_world s (tool_results tcs w').2)
    end.
Proof.
  simpl. destruct (truthy tds); simpl; [|done].
  unfold bind at 1. unfold DA.call.
  destruct (chat_complete msgs (Some tds) (DA.world s)) as [[resp|e] w'];
    [|done].
  destruct (truthy_opt (resp_tool_calls resp)); simpl; [|done].
  unfold bind. rewrite run_tool_calls_eq. simpl.
  by rewrite <- app_assoc.
Qed.


End DirectAgentFacts.

(** ** The turn of [E2EConversationEngine] *)

Lemma round_trim_ok R h r :
  round_trim R h (round_starts h) = Ok r →
  ∃ n, r = (drop n h, round_starts (drop n h)).
Proof.
  unfold round_trim. destruct (len (round_starts h) >? R).
  - destruct (index _ _) as [n|]; [|done]. intros [= <-]. eauto.
  - intros [= <-]. exists 0%nat. by rewrite drop_0.
Qed.

(** Whatever the bounds, a successful trim returns a suffix. *)
Lemma trim_suffix h R B h' : trim h R B = Ok h' → ∃ n, h' = drop n h.
Proof.
  unfold trim.
  destruct (round_trim R h (round_starts h)) as [r|e] eqn:Hr; [|done].
  destruct (round_trim_ok _ _ _ Hr) as (n1 & ->).
  destruct (budget_trim_exit B (drop n1 h)) as (n2 & -> & _).
  intros [= <-]. exists (n1 + n2)%nat. by rewrite drop_drop.
Qed.

Section E2EFacts.
Context {W : Type} `{Collaborators W}.

(** [chat] step by step: the completion, the two appends and the trim. *)
Lemma chat_eq prompt user_input (s : E2E.t W) :
  E2E.chat prompt user_input s =
  match chat_complete
          ([plain_message SYSTEM prompt] ++ E2E.conversation_history s
           ++ [plain_message USER user_input]) None (E2E.world s) with
  | (Raise e, w1) => (Raise e, E2E.with_world s w1)
  | (Ok resp, w1) =>
      let h := E2E.conversation_history s
               ++ e2e_round user_input (resp_content resp) in
      match _trim_history (E2E.max_rounds s) h with
      | Ok h' =>
          (Ok (resp_content resp),
           {| E2E.conversation_history := h';
              E2E.max_rounds := E2E.max_rounds s; E2E.world := w1 |})
      | Raise e =>
          (Raise e,
           {| E2E.conversation_history := h;
              E2E.max_rounds := E2E.max_rounds s; E2E.world := w1 |})
      end
  end.
Proof.
  unfold E2E.chat. unfold bind at 1, get at 1. unfold bind at 1, E2E.call.
  destruct (chat_complete _ None (E2E.world s)) as [[resp|e] w1]; [|done].
  unfold bind, E2E.append_history, E2E.trim_history, bind, get. simpl.
  rewrite <- app_assoc. simpl.
  by destruct (_trim_history _ _).
Qed.

Lemma e2e_round_roles user_input reply :
  Forall ledger_role (e2e_round user_input reply).
Proof.
  constructor; [by left|]. constructor; [by right; left|]. constructor.
Qed.

Lemma e2e_reachable_roles (s : E2E.t W) :
  e2e_reachable s → Forall ledger_role (E2E.conversation_history s).
Proof.
  induction 1 as [R w | s w _ IH | s prompt q r s' _ IH Hchat].
  - constructor.
  - done.
  - rewrite chat_eq in Hchat.
    destruct (chat_complete _ None (E2E.world s)) as [[resp|e] w1].
    + cbv zeta in Hchat.
      assert (Forall ledger_role
                (E2E.conversation_history s ++ e2e_round q (resp_content resp)))
        as Hall by (apply Forall_app; eauto using e2e_round_roles).
      destruct (_trim_history _ _) as [h'|e] eqn:Htrim.
      * injection Hchat as <- <-. simpl.
        apply trim_suffix in Htrim as (n & ->). by apply Forall_drop.
      * by injection Hchat as <- <-.
    + by injection Hchat as <- <-.
Qed.

(** C10: no stored message has the system role: after every sequence of
    turns of either engine, completed or not, each message of the history
    has role user, assistant or tool. *)
Theorem no_system_message_stored :
  (∀ s : DA.t W, reachable s →
     Forall (fun m => ledger_role m ∧ role m ≠ SYSTEM)
            (DA.conversation_history s))
  ∧ (∀ s : E2E.t W, e2e_reachable s →
     Forall (fun m => ledger_role m ∧ role m ≠ SYSTEM)
            (E2E.conversation_history s)).
Proof.
  assert (∀ m, ledger_role m → ledger_role m ∧ role m ≠ SYSTEM) as Hsys.
  { intros m Hm. split; [done|]. by destruct Hm as [-> | [-> | ->]]. }
  split; intros s Hs.
  - apply reachable_invariant in Hs as (_ & Hroles & _).
    eapply Forall_impl; eauto.
  - apply e2e_reachable_roles in Hs. eapply Forall_impl; eauto.
Qed.
End E2EFacts.

(** ** Histories as sequences of rounds *)

Lemma round_starts_from_no_user i rest h :
  Forall (fun m => is_user m = false) rest →
  round_starts_from i (rest ++ h) = round_starts_from (i + length rest) h.
Proof.
  intros Hrest. revert i.
  induction Hrest as [|m rest Hm _ IH]; intros i; simpl.
  - by rewrite Nat.add_0_r.
  - rewrite round_starts_from_cons, Hm, IH. f_equal. lia.
Qed.

Lemma round_starts_from_round i c h :
  is_round c →
  round_starts_from i (c ++ h) = i :: round_starts_from (i + length c) h.
Proof.
  intros (u & rest & -> & Hu & Hrest). simpl.
  rewrite round_starts_from_cons, Hu, round_starts_from_no_user by done.
  do 2 f_equal. lia.
Qed.

Lemma round_starts_from_concat cs i k :
  Forall is_round cs → (k < length cs)%nat →
  round_starts_from i (concat cs) !! k
  = Some (i + length (concat (take k cs)))%nat.
Proof.
  intros Hcs. revert i k.
  induction Hcs as [|c cs Hc _ IH]; intros i k Hk; simpl in *; [lia|].
  rewrite round_starts_from_round by done.
  destruct k as [|k]; simpl.
  - by rewrite Nat.add_0_r.
  - rewrite IH by lia. rewrite length_app. f_equal. lia.
Qed.

Lemma round_starts_concat cs k :
  Forall is_round cs → (k < length cs)%nat →
  round_starts (concat cs) !! k = Some (length (concat (take k cs))).
Proof. intros. by rewrite round_starts_from_0, round_starts_from_concat. Qed.

Lemma count_rounds_round c : is_round c → count_rounds c = 1%nat.
Proof.
  intros (u & rest & -> & Hu & Hrest).
  by rewrite count_rounds_cons, Hu, count_rounds_no_user.
Qed.

Lemma count_rounds_concat cs :
  Forall is_round cs → count_rounds (concat cs) = length cs.
Proof.
  induction 1 as [|c cs Hc _ IH]; simpl; [done|].
  by rewrite count_rounds_app, count_rounds_round, IH.
Qed.

Lemma drop_concat_take {A} (cs : list (list A)) k :
  drop (length (concat (take k cs))) (concat cs) = concat (drop k cs).
Proof.
  rewrite <- (take_drop k cs) at 2. by rewrite concat_app, drop_app_length.
Qed.

Lemma budget_loop_rounds fuel B cs :
  Forall is_round cs → (length cs ≤ fuel + 2)%nat →
  (budget_loop fuel B (concat cs) (sum_chars (concat cs))
     (round_starts (concat cs))).1.1
  = concat (budget_rounds B cs).
Proof.
  intros Hcs. revert fuel.
  induction Hcs as [|c cs Hc Hcs IH]; intros fuel Hfuel.
  { rewrite budget_loop_stop; [done|]. apply andb_false_r. }
  assert (len (round_starts (concat (c :: cs))) = len (c :: cs)) as Hlen.
  { unfold len. rewrite length_round_starts, count_rounds_concat; [done|].
    by constructor. }
  destruct fuel as [|fuel].
  { cbn [budget_loop budget_rounds].
    replace (len (c :: cs) >? 2) with false by (unfold len; lia).
    by rewrite andb_false_r. }
  cbn [budget_loop budget_rounds]. rewrite Hlen.
  destruct ((sum_chars (concat (c :: cs)) >? B) && (len (c :: cs) >? 2))
    eqn:Hcond; [|done].
  apply andb_true_iff in Hcond as [_ Hl].
  replace (len (c :: cs) >? 1) with true by lia.
  rewrite (round_starts_concat (c :: cs) 1);
    [|by constructor|unfold len in Hl; lia].
  cbn [default from_option id].
  rewrite (drop_concat_take (c :: cs) 1).
  replace (sum_chars (concat (c :: cs))
           - sum_chars (take (length (concat (take 1 (c :: cs))))
                          (concat (c :: cs))))
    with (sum_chars (concat cs)).
  2:{ pose proof (sum_chars_take_drop
                    (length (concat (take 1 (c :: cs)))) (concat (c :: cs)))
        as Hsum.
      rewrite (drop_concat_take (c :: cs) 1) in Hsum.
      change (drop 1 (c :: cs)) with cs in Hsum. lia. }
  change (drop 1 (c :: cs)) with cs.
  apply IH. simpl length in Hfuel. lia.
Qed.

Lemma budget_trim_rounds B cs :
  Forall is_round cs →
  budget_trim B (concat cs) (round_starts (concat cs))
  = concat (budget_rounds B cs).
Proof.
  intros Hcs. unfold budget_trim. apply budget_loop_rounds; [done|].
  pose proof (count_rounds_le_length (concat cs)).
  rewrite count_rounds_concat in * by done. lia.
Qed.

(** The trimmer on a history made of rounds, for a positive round bound. *)
Lemma trim_concat (R : nat) B cs :
  (1 ≤ R)%nat → Forall is_round cs →
  trim (concat cs) (Z.of_nat R) B = Ok (concat (trim_rounds R B cs)).
Proof.
  intros HR Hcs. unfold trim, trim_rounds, round_trim.
  assert (len (round_starts (concat cs)) = len cs) as Hlen.
  { unfold len. by rewrite length_round_starts, count_rounds_concat. }
  rewrite Hlen. destruct (Z.gtb_spec (len cs) (Z.of_nat R)) as [Hgt|Hle].
  - unfold len in Hgt.
    rewrite index_from_end by (rewrite ?Hlen; unfold len; lia).
    rewrite length_round_starts, count_rounds_concat, Nat2Z.id by done.
    rewrite round_starts_concat by (done || lia).
    rewrite drop_concat_take.
    by rewrite budget_trim_rounds by by apply Forall_drop.
  - unfold len in Hle.
    replace (length cs - R)%nat with 0%nat by lia. rewrite drop_0.
    by rewrite budget_trim_rounds.
Qed.

(** ** Retention over a sequence of turns *)

Lemma sum_concat_take_le n (l : list (list LLMMessage)) :
  sum_chars (concat (take n l)) ≤ sum_chars (concat l).
Proof.
  rewrite <- (take_drop n l) at 2. rewrite concat_app, sum_chars_app.
  pose proof (sum_chars_nonneg (concat (drop n l))). lia.
Qed.

Lemma sum_concat_drop_le n (l : list (list LLMMessage)) :
  sum_chars (concat (drop n l)) ≤ sum_chars (concat l).
Proof.
  rewrite <- (take_drop n l) at 2. rewrite concat_app, sum_chars_app.
  pose proof (sum_chars_nonneg (concat (take n l))). lia.
Qed.

Lemma sum_concat_window lim p m (l : list (list LLMMessage)) :
  (lim ≤ p)%nat →
  sum_chars (concat (drop p (take m l))) ≤ sum_chars (concat (drop lim l)).
Proof.
  intros Hp. destruct (decide (p ≤ m)%nat) as [Hpm|Hpm].
  - replace m with (p + (m - p))%nat by lia.
    rewrite <- take_drop_commute.
    etrans; [apply sum_concat_take_le|].
    replace p with (lim + (p - lim))%nat at 1 by lia.
    rewrite <- drop_drop. apply sum_concat_drop_le.
  - rewrite drop_ge by (rewrite length_take; lia). simpl.
    apply sum_chars_nonneg.
Qed.

Lemma budget_rounds_drop B X :
  ∃ p, budget_rounds B X = drop p X ∧ (p ≤ length X)%nat
       ∧ ∀ q, (q < p)%nat →
           sum_chars (concat (drop q X)) > B ∧ (2 < length (drop q X))%nat.
Proof.
  induction X as [|c X (p & Heq & Hp & Hover)].
  { exists 0%nat. split; [done|]. split; [done|]. lia. }
  cbn [budget_rounds].
  destruct ((sum_chars (concat (c :: X)) >? B) && (len (c :: X) >? 2))
    eqn:Hcond.
  - apply andb_true_iff in Hcond as [Hs Hl]. unfold len in Hl. exists (S p).
    split; [done|]. split; [simpl; lia|].
    intros [|q] Hq; [rewrite drop_0; lia|]. apply Hover. lia.
  - exists 0%nat. split; [done|]. split; [lia|]. lia.
Qed.

Lemma budget_rounds_sublist B X :
  Forall is_round X → Forall is_round (budget_rounds B X).
Proof.
  intros HX. destruct (budget_rounds_drop B X) as (p & -> & _).
  by apply Forall_drop.
Qed.

Lemma retained_rounds R B cs :
  Forall is_round cs → Forall is_round (retained R B cs).
Proof.
  induction cs as [|c cs IH] using rev_ind; intros Hcs; [constructor|].
  apply Forall_app in Hcs as [Hcs Hc].
  unfold retained. rewrite foldl_snoc. fold (retained R B cs).
  unfold retain, trim_rounds. apply budget_rounds_sublist, Forall_drop.
  apply Forall_app. auto.
Qed.

(** While the last [R] rounds of the whole sequence fit in the budget, or
    [R] is within the floor of two rounds, each prefix of the sequence
    retains a suffix that starts no later than they do and holds at most [R]
    rounds. *)
Lemma retained_prefix R B cs k :
  (1 ≤ R ≤ length cs)%nat →
  (R ≤ 2)%nat ∨ sum_chars (concat (drop (length cs - R) cs)) ≤ B →
  (k ≤ length cs)%nat →
  ∃ j, (j ≤ k)%nat ∧ (j ≤ length cs - R)%nat ∧ (k - j ≤ R)%nat
       ∧ retained R B (take k cs) = drop j (take k cs).
Proof.
  intros HR Hsum. induction k as [|k IH]; intros Hk.
  { exists 0%nat. repeat split; lia. }
  destruct IH as (j & Hjk & Hj & Hlen & Heq); [lia|].
  destruct (lookup_lt_is_Some_2 cs k) as [c Hc]; [lia|].
  rewrite (take_S_r _ _ _ Hc). unfold retained. rewrite foldl_snoc.
  fold (retained R B (take k cs)). rewrite Heq.
  unfold retain, trim_rounds.
  rewrite <- drop_app_le by (rewrite length_take; lia).
  rewrite <- (take_S_r _ _ _ Hc).
  rewrite length_drop, length_take, drop_drop.
  replace (S k `min` length cs)%nat with (S k) by lia.
  set (j1 := (j + (S k - j - R))%nat).
  destruct (budget_rounds_drop B (drop j1 (take (S k) cs)))
    as (p & -> & Hp & Hover).
  rewrite length_drop, length_take in Hp. rewrite drop_drop.
  exists (j1 + p)%nat. split; [lia|]. split; [|split; [lia | done]].
  destruct p as [|p]; [lia|].
  destruct (decide (j1 + p < length cs - R)%nat) as [|Hge]; [lia|].
  destruct (Hover 0%nat ltac:(lia)) as [_ Hfloor].
  rewrite drop_0, length_drop, length_take in Hfloor.
  destruct Hsum as [Hfew | Hsum]; [lia|].
  destruct (Hover p ltac:(lia)) as [Hp' _]. rewrite drop_drop in Hp'.
  pose proof (sum_concat_window (length cs - R) (j1 + p) (S k) cs
                ltac:(lia)).
  lia.
Qed.

(** The rounds retained after [N] turns are the last [R] of them, provided
    these fit in the budget or [R] is at most two. *)
Lemma retained_last R B cs :
  (1 ≤ R ≤ length cs)%nat →
  (R ≤ 2)%nat ∨ sum_chars (concat (drop (length cs - R) cs)) ≤ B →
  retained R B cs = drop (length cs - R) cs.
Proof.
  intros HR Hsum.
  destruct (retained_prefix R B cs (length cs) HR Hsum)
    as (j & _ & Hj & Hlen & Heq); [lia|].
  rewrite take_ge in Heq by lia. rewrite Heq. f_equal. lia.
Qed.

(** ** Sequences of completed turns *)

Lemma turn_round_is_round x : turn_round x → is_round x.2.
Proof. intros (rest & -> & Hrest). by exists (plain_message USER x.1), rest. Qed.

Lemma turn_rounds_are_rounds trace :
  Forall turn_round trace → Forall is_round (map snd trace).
Proof.
  induction 1 as [|x trace Hx _ IH]; simpl; constructor;
    auto using turn_round_is_round.
Qed.

(** What the retention lemma says of a history built turn by turn. *)
Lemma retention_conclusion (R : nat) B trace h :
  Forall turn_round trace →
  h = concat (retained R B (map snd trace)) →
  (1 ≤ R ≤ length trace)%nat →
  (R ≤ 2)%nat
  ∨ sum_chars (concat (map snd (drop (length trace - R) trace))) ≤ B →
  h = concat (map snd (drop (length trace - R) trace))
  ∧ count_rounds h = R
  ∧ ∃ q c, trace !! (length trace - R)%nat = Some (q, c)
           ∧ head h = Some (plain_message USER q).
Proof.
  intros Htrace -> HR Hsum.
  rewrite <- skipn_map in Hsum |- *.
  pose proof (length_map snd trace) as Hlen.
  rewrite retained_last; rewrite ?Hlen; [|done..].
  split; [done|]. split.
  - rewrite count_rounds_concat
      by (apply Forall_drop; by apply turn_rounds_are_rounds).
    rewrite length_drop, Hlen. lia.
  - destruct (lookup_lt_is_Some_2 trace (length trace - R)) as [[q c] Hqc];
      [lia|].
    exists q, c. split; [done|].
    rewrite skipn_map, (drop_S _ _ _ Hqc). simpl.
    rewrite Forall_lookup in Htrace.
    destruct (Htrace _ _ Hqc) as (rest & Hc & _). simpl in Hc. by rewrite Hc.
Qed.

Section Turns.
Context {W : Type} `{Collaborators W}.

Lemma e2e_round_turn_round q reply : turn_round (q, e2e_round q reply).
Proof. eexists. split; [done|]. by repeat constructor. Qed.

Lemma new_round_turn_round task produced reply :
  tool_groups produced → turn_round (task, new_round task produced reply).
Proof. intros Hg. eexists. split; [done|]. by apply new_round_no_user. Qed.

Lemma commit_round (R : nat) B cs c :
  (1 ≤ R)%nat → Forall is_round cs → is_round c →
  trim (concat (retained R B cs) ++ c) (Z.of_nat R) B
  = Ok (concat (retained R B (cs ++ [c]))).
Proof.
  intros HR Hcs Hc.
  replace (concat (retained R B cs) ++ c)
    with (concat (retained R B cs ++ [c]))
    by (rewrite concat_app; simpl; by rewrite app_nil_r).
  rewrite trim_concat; [|done|].
  - unfold retained at 2. by rewrite foldl_snoc.
  - apply Forall_app. split; [by apply retained_rounds | by constructor].
Qed.

Lemma e2e_turns_history (R : nat) s0 trace (s : E2E.t W) :
  (1 ≤ R)%nat → e2e_turns s0 trace s →
  E2E.conversation_history s0 = [] → E2E.max_rounds s0 = Z.of_nat R →
  E2E.max_rounds s = Z.of_nat R
  ∧ Forall turn_round trace
  ∧ E2E.conversation_history s
    = concat (retained R MAX_HISTORY_CHARS (map snd trace)).
Proof.
  intros HR Hturns Hh0 HR0.
  induction Hturns as [s | s0 trace s w prompt q reply s' _ IH Hchat].
  { split; [done|]. split; [constructor|]. by rewrite Hh0. }
  destruct (IH Hh0 HR0) as (HRs & Htrace & Hh).
  rewrite chat_eq in Hchat. simpl in Hchat.
  destruct (chat_complete _ None w) as [[resp|e] w1]; [|done].
  rewrite HRs, Hh in Hchat. unfold _trim_history in Hchat.
  rewrite map_app. simpl map.
  rewrite (commit_round R _ (map snd trace)) in Hchat;
    [|done|by apply turn_rounds_are_rounds
     |apply (turn_round_is_round (q, _)), e2e_round_turn_round].
  injection Hchat as <- <-. simpl. split; [done|]. split; [|done].
  apply Forall_app. split; [done|]. constructor; [|constructor].
  apply e2e_round_turn_round.
Qed.

(** The trim a completed turn of the agent ends with. *)
Lemma execute_task_trim task (s : DA.t W) reply s' produced s1 :
  DA.execute_task task s = (Ok reply, s') →
  DA.tool_loop DA.max_tool_rounds (get_tool_definitions (DA.world s))
    (transcript (DA.conversation_history s) task) s
  = (Ok (transcript (DA.conversation_history s) task ++ produced), s1) →
  tool_groups produced
  ∧ trim (DA.conversation_history s ++ new_round task produced reply) 6
      MAX_HISTORY_CHARS = Ok (DA.conversation_history s').
Proof.
  intros Hex Hloop. rewrite execute_task_eq, Hloop in Hex.
  destruct (tool_loop_spec _ _ _ _ _ _ Hloop) as (Hh & produced' & Heq & Hg).
  apply app_inv_head in Heq as <-. split; [done|].
  destruct (chat _ (DA.world s1)) as [[chunks|e] w2]; [|done].
  cbv zeta in Hex. rewrite Hh in Hex. unfold committed in Hex.
  rewrite drop_transcript, trim_conversation_history_trim in Hex by lia.
  change (DA.conversation_history s
          ++ map DA.stored (plain_message USER task :: produced)
          ++ final_message (concat chunks))
    with (DA.conversation_history s
          ++ new_round task produced (concat chunks)) in Hex.
  destruct (trim (_ ++ new_round task produced (concat chunks)) 6
              MAX_HISTORY_CHARS) as [h'|e] eqn:Htrim; [|done].
  by injection Hex as <- <-.
Qed.

Lemma da_turns_history s0 trace (s : DA.t W) :
  da_turns s0 trace s →
  DA.conversation_history s0 = [] →
  Forall turn_round trace
  ∧ DA.conversation_history s
    = concat (retained 6 MAX_HISTORY_CHARS (map snd trace)).
Proof.
  intros Hturns Hh0.
  induction Hturns
    as [s | s0 trace s w task reply s' produced s1 _ IH Hex Hloop].
  { split; [constructor|]. by rewrite Hh0. }
  destruct (IH Hh0) as (Htrace & Hh).
  destruct (execute_task_trim _ _ _ _ _ _ Hex Hloop) as [Hg Htrim].
  simpl in Htrim. rewrite Hh in Htrim.
  rewrite map_app. simpl map.
  rewrite (commit_round 6 _ (map snd trace)) in Htrim;
    [|lia|by apply turn_rounds_are_rounds
     |by apply (turn_round_is_round (task, _)), new_round_turn_round].
  injection Htrim as <-. split; [|done].
  apply Forall_app. split; [done|]. constructor; [|constructor].
  by apply new_round_turn_round.
Qed.
End Turns.

Section Retention.
Context {W : Type} `{Collaborators W}.

(** C2, as the trimmer behaves: after [N] completed turns in a row of a
    fresh engine whose round limit [R] is at least 1 (the agent's is 6), with
    [N ≥ R], and provided [R] is at most 2 or the messages committed by the
    last [R] turns hold at most 24000 characters, the history is exactly what
    these [R] turns committed: it has [R] user messages and its first message
    is the user message of turn [N − R + 1]. *)
Theorem last_rounds_retained :
  (∀ (R : nat) w trace (s : E2E.t W),
     (1 ≤ R ≤ length trace)%nat →
     e2e_turns (E2E.init (Z.of_nat R) w) trace s →
     (R ≤ 2)%nat
     ∨ sum_chars (concat (map snd (drop (length trace - R) trace)))
       ≤ MAX_HISTORY_CHARS →
     E2E.conversation_history s
       = concat (map snd (drop (length trace - R) trace))
     ∧ count_rounds (E2E.conversation_history s) = R
     ∧ ∃ q c, trace !! (length trace - R)%nat = Some (q, c)
              ∧ head (E2E.conversation_history s)
                = Some (plain_message USER q))
  ∧ (∀ w trace (s : DA.t W),
       (6 ≤ length trace)%nat →
       da_turns (DA.init w) trace s →
       sum_chars (concat (map snd (drop (length trace - 6) trace)))
         ≤ MAX_HISTORY_CHARS →
       DA.conversation_history s
         = concat (map snd (drop (length trace - 6) trace))
       ∧ count_rounds (DA.conversation_history s) = 6%nat
       ∧ ∃ q c, trace !! (length trace - 6)%nat = Some (q, c)
                ∧ head (DA.conversation_history s)
                  = Some (plain_message USER q)).
Proof.
  split.
  - intros R w trace s HR Hturns Hsum.
    destruct (e2e_turns_history R _ _ _ ltac:(lia) Hturns eq_refl eq_refl)
      as (_ & Htrace & Hh).
    by apply (retention_conclusion R MAX_HISTORY_CHARS trace).
  - intros w trace s HN Hturns Hsum.
    destruct (da_turns_history _ _ _ Hturns eq_refl) as (Htrace & Hh).
    apply (retention_conclusion 6 MAX_HISTORY_CHARS trace); auto. lia.
Qed.
End Retention.

(** ** Running several turns *)

Section Runs.
Context {W : Type} `{Collaborators W}.

Lemma da_turns_extend s0 trace (s : DA.t W) task reply s' :
  da_turns s0 trace s → DA.execute_task task s = (Ok reply, s') →
  ∃ round, da_turns s0 (trace ++ [(task, round)]) s'.
Proof.
  intros Hturns Hex.
  destruct (execute_task_ok _ _ _ _ Hex)
    as (produced & s1 & _ & _ & Hloop & _).
  exists (new_round task produced reply).
  rewrite <- (with_world_same s) in Hex, Hloop.
  by eapply da_turns_snoc.
Qed.

Lemma run_tasks_turns tasks (s : DA.t W) s' s0 trace :
  run_tasks tasks s = Some s' → da_turns s0 trace s →
  ∃ trace', da_turns s0 (trace ++ trace') s' ∧ map fst trace' = tasks.
Proof.
  revert s trace. induction tasks as [|task tasks IH]; intros s trace; simpl.
  { intros [= <-] Hturns. exists []. by rewrite app_nil_r. }
  destruct (DA.execute_task task s) as [[reply|e] s1] eqn:Hex; [|done].
  intros Hrun Hturns.
  destruct (da_turns_extend _ _ _ _ _ _ Hturns Hex) as (round & Hturns1).
  destruct (IH _ _ Hrun Hturns1) as (trace' & Hturns' & Hfst).
  exists ((task, round) :: trace'). rewrite <- app_assoc in Hturns'.
  split; [done|]. simpl. by rewrite Hfst.
Qed.
End Runs.

(** ** The scenarios *)

(** *** A turn with one search *)

Lemma search_turn_completes :
  search_turn = (Ok (lit "final"), search_turn.2).
Proof. vm_compute. reflexivity. Qed.

Lemma committed_turn_valid_witness :
  validate_message_sequence (DA.conversation_history search_turn.2) = []
  ∧ ∀ i t, DA.conversation_history search_turn.2 !! i = Some t →
           is_tool t = true →
           has_requester_before (DA.conversation_history search_turn.2) i t.
Proof.
  apply (committed_turn_valid (DA.init search_world) search_task
           (lit "final") search_turn.2).
  - apply reachable_init.
  - vm_compute. reflexivity.
Defined.


(** The stored search result: 1500 characters and the notice. *)
Lemma search_result_stored :
  map content_len (filter (fun m => is_tool m = true)
                     (DA.conversation_history search_turn.2))
  = [1500 + len TRUNCATION_MARKER].
Proof. vm_compute. reflexivity. Qed.

Lemma reply_appended_when_not_blank_witness :
  ∃ produced s1 n,
    DA.tool_loop DA.max_tool_rounds
      (get_tool_definitions (DA.world (DA.init search_world)))
      (transcript (DA.conversation_history (DA.init search_world)) search_task)
      (DA.init search_world)
    = (Ok (transcript (DA.conversation_history (DA.init search_world))
             search_task ++ produced), s1)
    ∧ Forall (fun m => is_assistant m = true ∧ requests_tools m = true
                       ∨ is_tool m = true) produced
    ∧ DA.conversation_history search_turn.2
      = drop n (DA.conversation_history (DA.init search_world))
        ++ plain_message USER search_task :: map DA.stored produced
        ++ (if truthy (strip (lit "final"))
            then [plain_message ASSISTANT (lit "final")]
            else []).
Proof.
  apply (reply_appended_when_not_blank (DA.init search_world) search_task
           (lit "final") search_turn.2).
  vm_compute. reflexivity.
Defined.

Lemma reply_is_streamed_witness :
  ∃ produced s1 chunks,
    DA.tool_loop DA.max_tool_rounds
      (get_tool_definitions (DA.world (DA.init search_world)))
      (transcript (DA.conversation_history (DA.init search_world)) search_task)
      (DA.init search_world)
    = (Ok (transcript (DA.conversation_history (DA.init search_world))
             search_task ++ produced), s1)
    ∧ chat (transcript (DA.conversation_history (DA.init search_world))
              search_task ++ produced) (DA.world s1)
      = (Ok chunks, DA.world search_turn.2)
    ∧ lit "final" = concat chunks.
Proof.
  apply (reply_is_streamed (DA.init search_world) search_task
           (lit "final") search_turn.2).
  vm_compute. reflexivity.
Defined.

(** *** Replies that are not the loop's last completion *)

(** In [two_texts_world] the completion that ends the tool loop carries the
    text "A" and the turn replies "B"; in [five_rounds_world] the loop uses
    up its five rounds, the last completion carries "T", and the turn
    replies "B". *)
Lemma reply_is_not_the_loop_ending_text :
  ((chat_complete (transcript [] search_task)
      (Some (get_tool_definitions two_texts_world)) two_texts_world).1
   = Ok {| resp_content := Some (lit "A"); resp_tool_calls := None |}
   ∧ (DA.execute_task search_task (DA.init two_texts_world)).1
     = Ok (lit "B"))
  ∧ (_responses (provider five_rounds_world) !! 4%nat
     = Some {| resp_content := Some (lit "T");
               resp_tool_calls := Some [repeated_call] |}
     ∧ _call_idx (provider (DA.world
         (DA.execute_task search_task (DA.init five_rounds_world)).2))
       = 6%nat
     ∧ (DA.execute_task search_task (DA.init five_rounds_world)).1
       = Ok (lit "B")).
Proof. vm_compute. repeat split; reflexivity. Qed.

(** *** Blank replies *)

(** A completed turn whose reply is empty, or made of spaces, appends the
    user message only. *)
Lemma blank_reply_not_appended :
  ((DA.execute_task search_task (DA.init blank_world)).1 = Ok []
   ∧ DA.conversation_history
       (DA.execute_task search_task (DA.init blank_world)).2
     = [plain_message USER search_task])
  ∧ ((DA.execute_task search_task (DA.init spaces_world)).1
     = Ok [32; 32]%N
     ∧ DA.conversation_history
         (DA.execute_task search_task (DA.init spaces_world)).2
       = [plain_message USER search_task]).
Proof. vm_compute. repeat split; reflexivity. Qed.

(** *** Six long turns *)

(** Six completed turns in a row, each with an input of 5000 characters:
    the byte budget evicts two of the six rounds, so that four user messages
    remain and the oldest is the third input. *)
Lemma six_long_turns_keep_four :
  run_tasks long_inputs (DA.init long_world) = Some long_final
  ∧ length long_inputs = 6%nat
  ∧ count_rounds (DA.conversation_history long_final) = 4%nat
  ∧ head (DA.conversation_history long_final)
    = Some (plain_message USER (long_input 3)).
Proof. vm_compute. repeat split; reflexivity. Qed.

(** *** Three short turns of the plain engine with a limit of two rounds *)

Lemma short_turns : e2e_turns e2e_state0 short_trace e2e_state3.
Proof.
  refine (e2e_turns_snoc e2e_state0 (take 2 short_trace) e2e_state2
            (E2E.world e2e_state2) [] (short_input 3) (Some []) e2e_state3
            _ _); [|vm_compute; reflexivity].
  refine (e2e_turns_snoc e2e_state0 (take 1 short_trace) e2e_state1
            (E2E.world e2e_state1) [] (short_input 2) (Some []) e2e_state2
            _ _); [|vm_compute; reflexivity].
  refine (e2e_turns_snoc e2e_state0 [] e2e_state0
            (E2E.world e2e_state0) [] (short_input 1) (Some []) e2e_state1
            _ _); [|vm_compute; reflexivity].
  apply e2e_turns_nil.
Qed.

Lemma last_rounds_retained_witness :
  E2E.conversation_history e2e_state3
  = concat (map snd (drop (length short_trace - 2) short_trace))
  ∧ count_rounds (E2E.conversation_history e2e_state3) = 2%nat
  ∧ ∃ q c, short_trace !! (length short_trace - 2)%nat = Some (q, c)
           ∧ head (E2E.conversation_history e2e_state3)
             = Some (plain_message USER q).
Proof.
  apply (proj1 last_rounds_retained 2%nat plain_world short_trace e2e_state3).
  - simpl. lia.
  - exact short_turns.
  - right. vm_compute. discriminate.
Defined.

(** *** A turn that is not committed *)

Lemma validate_reports_witness :
  In (FirstNotUser TOOL) (validate_message_sequence orphan_history)
  ∧ In (ToolWithoutAssistant 0) (validate_message_sequence orphan_history).
Proof.
  destruct (validate_reports orphan_history) as [Hfirst Htool]. split.
  - apply (Hfirst (plain_message TOOL []) [] eq_refl). discriminate.
  - apply (Htool 0%nat (plain_message TOOL []) eq_refl eq_refl).
    intros (j & a & Hlt & _). lia.
Defined.


Lemma no_system_message_stored_witness :
  Forall (fun m => ledger_role m ∧ role m ≠ SYSTEM)
         (DA.conversation_history search_turn.2).
Proof.
  apply (proj1 (no_system_message_stored (W:=World))).
  eapply reachable_turn; [apply reachable_init|].
  unfold search_turn. apply surjective_pairing.
Defined.

(** * Further properties *)

(** ** Python text *)

Lemma startswith_spec s p : startswith s p = true ↔ ∃ rest, s = p ++ rest.
Proof.
  revert s. induction p as [|c p IH]; intros s.
  - destruct s; simpl; split; eauto.
  - destruct s as [|d s]; simpl.
    + split; [done|]. intros [rest Hr]. discriminate.
    + rewrite andb_true_iff, bool_decide_eq_true, IH. split.
      * intros [-> [rest ->]]. eauto.
      * intros [rest Hr]. injection Hr as -> ->. eauto.
Qed.

Lemma contains_spec hay needle :
  contains hay needle = true ↔ occurs_in needle hay.
Proof.
  unfold occurs_in. induction hay as [|c hay IH]; cbn [contains].
  - rewrite orb_false_r, startswith_spec. split.
    + intros [rest Hr]. by exists [], rest.
    + intros (a & b & Hab). destruct a; [|done]. simpl in Hab. eauto.
  - rewrite orb_true_iff, startswith_spec, IH. split.
    + intros [[rest Hr]|(a & b & ->)].
      * by exists [], rest.
      * by exists (c :: a), b.
    + intros (a & b & Hab). destruct a as [|c' a].
      * left. simpl in Hab. eauto.
      * right. injection Hab as -> ->. eauto.
Qed.

Lemma contains_empty hay : contains hay [] = true.
Proof. apply contains_spec. by exists [], hay. Qed.


Lemma index_last {A} (l : list A) : truthy l = true → index l (-1) = last l.
Proof.
  intros Hl. rewrite last_lookup. unfold index, len.
  destruct l as [|x l]; [done|]. clear Hl.
  assert (Hn : Z.of_nat (length (x :: l)) = Z.of_nat (length l) + 1)
    by (simpl length; lia).
  rewrite Hn.
  replace ((0 <=? -1) && (-1 <? Z.of_nat (length l) + 1)) with false by done.
  replace ((- (Z.of_nat (length l) + 1) <=? -1) && (-1 <? 0)) with true
    by (symmetry; apply andb_true_iff; split; [apply Z.leb_le; lia|done]).
  f_equal. simpl. lia.
Qed.

(** ** The session summary *)

Lemma extract_session_summary_last h :
  extract_session_summary h
  = match last (filter (fun m => plain_reply m = true) h) with
    | Some m => take 2000 (default [] (content m))
    | None => []
    end.
Proof.
  unfold extract_session_summary.
  destruct (truthy h) eqn:Hh; [|by destruct h].
  destruct (filter _ h) as [|m l _] using rev_ind; [done|].
  rewrite map_app, last_snoc. simpl map.
  replace (truthy (_ ++ _)) with true by (by destruct (map _ l)).
  rewrite index_last by (by destruct (map _ l)).
  by rewrite last_snoc.
Qed.

Lemma filter_none {A} (P : A → Prop) `{∀ x, Decision (P x)} (l : list A) :
  filter P l = [] ↔ Forall (fun x => ¬ P x) l.
Proof.
  induction l as [|x l IH]; [by rewrite filter_nil|].
  rewrite filter_cons, Forall_cons. destruct (decide (P x)); [|tauto].
  split; [done|]. by intros [? _].
Qed.

Lemma plain_reply_content m :
  plain_reply m = true → ∃ c cs, content m = Some (c :: cs).
Proof.
  unfold plain_reply. intros [[_ Hc]%andb_true_iff _]%andb_true_iff.
  destruct (content m) as [[|c cs]|]; try done. eauto.
Qed.

Lemma extract_session_summary_at pre m post :
  plain_reply m = true →
  Forall (fun m' => plain_reply m' = false) post →
  extract_session_summary (pre ++ m :: post)
  = take 2000 (or_empty (content m)).
Proof.
  intros Hm Hpost. rewrite extract_session_summary_last.
  rewrite filter_app, filter_cons. destruct (decide _) as [_|]; [|done].
  assert (Hnone : filter (fun m => plain_reply m = true) post = []).
  { apply filter_none. eapply Forall_impl; [exact Hpost|].
    intros m' Hf. simpl in Hf. by rewrite Hf. }
  rewrite Hnone. rewrite last_snoc.
  destruct (plain_reply_content m Hm) as (c & cs & ->). done.
Qed.

(** X1: the session summary is the first 2000 characters of the last
    assistant message that has a non-empty content and no tool calls; it is
    empty exactly when the history has no such message. *)
Theorem session_summary_is_last_plain_reply (h : list LLMMessage) :
  len (extract_session_summary h) ≤ 2000
  ∧ (extract_session_summary h = []
     ↔ Forall (fun m => plain_reply m = false) h)
  ∧ (∀ pre m post,
       h = pre ++ m :: post → plain_reply m = true →
       Forall (fun m' => plain_reply m' = false) post →
       extract_session_summary h = take 2000 (or_empty (content m))).
Proof.
  split; [|split].
  - rewrite extract_session_summary_last.
    destruct (last _); [|done]. unfold len. rewrite length_take. lia.
  - rewrite extract_session_summary_last.
    destruct (last _) as [m|] eqn:Hlast.
    + assert (Hin : m ∈ filter (fun m => plain_reply m = true) h).
      { rewrite last_lookup in Hlast. by eapply list_elem_of_lookup_2. }
      apply list_elem_of_filter in Hin as [Hm Hin].
      destruct (plain_reply_content m Hm) as (c & cs & Hc).
      rewrite Hc. split; [done|]. intros Hall.
      rewrite Forall_forall in Hall. specialize (Hall m Hin). congruence.
    + apply last_None in Hlast. split; [intros _|done].
      apply filter_none in Hlast. eapply Forall_impl; [exact Hlast|].
      intros m Hm. simpl in Hm. by destruct (plain_reply m).
  - intros pre m post -> Hm Hpost. by apply extract_session_summary_at.
Qed.

Lemma strip_truthy s : truthy (strip s) = true → truthy s = true.
Proof. by destruct s. Qed.

Section SummaryAfterTurn.
Context {W : Type} `{Collaborators W}.

(** X2: after a completed turn whose reply is not blank, the session summary
    is the first 2000 characters of that reply. *)
Theorem summary_after_turn_is_reply (s : DA.t W) task reply s' :
  DA.execute_task task s = (Ok reply, s') →
  truthy (strip reply) = true →
  extract_session_summary (DA.conversation_history s') = take 2000 reply.
Proof.
  intros Hex Hreply.
  destruct (execute_task_ok task s reply s' Hex)
    as (produced & s1 & chunks & n & _ & _ & _ & _ & _ & _ & ->).
  unfold new_round, final_message. rewrite Hreply.
  pose proof (strip_truthy reply Hreply) as Ht.
  replace (drop n (DA.conversation_history s)
           ++ plain_message USER task
              :: map DA.stored produced ++ [plain_message ASSISTANT reply])
    with ((drop n (DA.conversation_history s)
           ++ plain_message USER task :: map DA.stored produced)
          ++ plain_message ASSISTANT reply :: [])
    by (by rewrite <- app_assoc).
  rewrite extract_session_summary_at; [|by destruct reply|done].
  by destruct reply.
Qed.

End SummaryAfterTurn.

Lemma summary_after_turn_is_reply_witness :
  extract_session_summary (DA.conversation_history search_turn.2)
  = take 2000 (lit "final").
Proof.
  apply (summary_after_turn_is_reply (DA.init search_world) search_task
           (lit "final") search_turn.2).
  - vm_compute. reflexivity.
  - vm_compute. reflexivity.
Defined.

(** ** Counting roles *)

Lemma count_roles_snoc h m :
  count_roles (h ++ [m])
  = <[role m := default 0 (count_roles h !! role m) + 1]> (count_roles h).
Proof. unfold count_roles. by rewrite foldl_snoc. Qed.

Lemma occurrences_snoc r h m :
  occurrences r (h ++ [m])
  = (occurrences r h + if decide (role m = r) then 1 else 0)%nat.
Proof.
  unfold occurrences. rewrite filter_app, length_app, filter_cons, filter_nil.
  by destruct (decide (role m = r)).
Qed.

Lemma count_roles_get h r :
  count_roles h !! r
  = if decide (occurrences r h = 0%nat) then None
    else Some (Z.of_nat (occurrences r h)).
Proof.
  induction h as [|m h IH] using rev_ind; [done|].
  rewrite count_roles_snoc, occurrences_snoc.
  destruct (decide (role m = r)) as [->|Hne].
  - rewrite lookup_insert_eq, IH.
    destruct (decide (occurrences r h = 0%nat)) as [->|Hn]; simpl.
    + done.
    + destruct (decide _); [lia|]. f_equal. lia.
  - rewrite lookup_insert_ne by done. rewrite IH, Nat.add_0_r. done.
Qed.

Lemma count_rounds_occurrences h : count_rounds h = occurrences USER h.
Proof.
  unfold count_rounds, occurrences.
  induction h as [|m h IH]; [done|].
  rewrite !filter_cons.
  destruct (decide (is_user m = true)) as [Hu|Hu];
    destruct (decide (role m = USER)) as [Hr|Hr];
    simpl; try (by rewrite IH); exfalso.
  - apply Hr. unfold is_user in Hu. by apply bool_decide_eq_true in Hu.
  - apply Hu. unfold is_user. by apply bool_decide_eq_true.
Qed.

(** X3: [count_roles] maps each role to the number of messages with that
    role; a role with no message is a missing key; the entry of ["user"] is
    [count_rounds]. *)
Theorem count_roles_counts (h : list LLMMessage) (r : str) :
  default 0 (count_roles h !! r) = Z.of_nat (occurrences r h)
  ∧ (count_roles h !! r = None ↔ Forall (fun m => role m ≠ r) h)
  ∧ default 0 (count_roles h !! USER) = Z.of_nat (count_rounds h).
Proof.
  assert (Hget : ∀ r, default 0 (count_roles h !! r)
                      = Z.of_nat (occurrences r h)).
  { intros r'. rewrite count_roles_get.
    destruct (decide _) as [->|]; done. }
  split; [apply Hget|split].
  - rewrite count_roles_get. unfold occurrences.
    rewrite <- filter_none.
    destruct (decide _) as [Hz|Hz].
    + split; [intros _|done]. by apply length_zero_iff_nil.
    + split; [done|]. intros Hnil. by rewrite Hnil in Hz.
  - by rewrite Hget, count_rounds_occurrences.
Qed.

(** ** Validity of histories put together and cut *)

Lemma validate_nil_iff h :
  validate_message_sequence h = []
  ↔ starts_with_user h = true
    ∧ ∀ i t, h !! i = Some t → is_tool t = true →
             scan_back (rev (take i h)) = true.
Proof.
  split.
  - intros Hv. split.
    + destruct h as [|first rest]; [done|]. simpl.
      destruct (is_user first) eqn:Hu; [done|].
      assert (Hin : In (FirstNotUser (role first))
                      (validate_message_sequence (first :: rest))).
      { apply in_validate_first. exists first. split; [done|].
        split; [done|]. unfold is_user in Hu.
        by apply bool_decide_eq_false in Hu. }
      rewrite Hv in Hin. destruct Hin.
    + intros i t Hi Ht.
      destruct (scan_back (rev (take i h))) eqn:Hs; [done|].
      assert (Hin : In (ToolWithoutAssistant i) (validate_message_sequence h))
        by (apply in_validate_tool; eauto).
      rewrite Hv in Hin. destruct Hin.
  - intros [Hstart Htools].
    destruct (validate_message_sequence h) as [|v vs] eqn:Hv; [done|].
    assert (Hin : In v (validate_message_sequence h))
      by (rewrite Hv; by left).
    destruct v as [r|i].
    + apply in_validate_first in Hin as (first & H0 & Hr & Hne).
      destruct h as [|m h]; [done|]. simpl in H0, Hstart.
      injection H0 as ->. unfold is_user in Hstart.
      apply bool_decide_eq_true in Hstart. congruence.
    + apply in_validate_tool in Hin as (t & Hi & Ht & Hs).
      rewrite (Htools i t Hi Ht) in Hs. done.
Qed.

Lemma scan_back_app_true a b :
  scan_back a = true → scan_back (a ++ b) = true.
Proof.
  induction a as [|m a IH]; [done|]. simpl.
  destruct (is_assistant m && truthy_opt (tool_calls m)); [done|].
  destruct (is_user m); [done|]. exact IH.
Qed.

Lemma scan_back_app_user a b u :
  u ∈ a → is_user u = true → scan_back (a ++ b) = scan_back a.
Proof.
  intros Hin Hu. induction a as [|m a IH]; [by apply elem_of_nil in Hin|].
  simpl. destruct (is_assistant m && truthy_opt (tool_calls m)); [done|].
  destruct (is_user m) eqn:Hm; [done|].
  apply elem_of_cons in Hin as [->|Hin]; [congruence|]. by apply IH.
Qed.

Lemma validate_app h1 h2 :
  validate_message_sequence h1 = [] → validate_message_sequence h2 = [] →
  validate_message_sequence (h1 ++ h2) = [].
Proof.
  rewrite !validate_nil_iff. intros [Hs1 Ht1] [Hs2 Ht2]. split.
  - by destruct h1.
  - intros i t Hi Ht. destruct (decide (i < length h1)%nat) as [Hlt|Hge].
    + rewrite lookup_app_l in Hi by done.
      rewrite take_app_le by lia. eauto.
    + rewrite lookup_app_r in Hi by lia.
      rewrite take_app_ge by lia. rewrite rev_app_distr.
      apply scan_back_app_true. eauto.
Qed.

Lemma validate_prefix h1 h2 :
  validate_message_sequence (h1 ++ h2) = [] →
  validate_message_sequence h1 = [].
Proof.
  rewrite !validate_nil_iff. intros [Hs Ht]. split.
  - by destruct h1.
  - intros i t Hi Htool.
    pose proof (lookup_lt_Some _ _ _ Hi) as Hlt.
    specialize (Ht i t). rewrite lookup_app_l in Ht by done.
    rewrite take_app_le in Ht by lia. eauto.
Qed.

Lemma validate_drop_cut h n :
  validate_message_sequence h = [] → round_cut h n →
  validate_message_sequence (drop n h) = [].
Proof.
  intros Hv [->|(u & Hn & Hu)]; [by rewrite drop_0|].
  apply validate_nil_iff in Hv as [_ Ht]. apply validate_nil_iff.
  rewrite (drop_user_head h n u Hn). split; [done|].
  intros i t Hi Htool.
  destruct i as [|i]; [simpl in Hi; injection Hi as ->;
                       apply is_user_not_tool in Hu; congruence|].
  rewrite <- (drop_user_head h n u Hn) in *.
  rewrite lookup_drop in Hi. specialize (Ht _ _ Hi Htool).
  rewrite <- take_take_drop, rev_app_distr in Ht.
  rewrite (scan_back_app_user _ _ u) in Ht; [done| |done].
  apply list_elem_of_In, in_rev. rewrite rev_involutive.
  rewrite (drop_user_head h n u Hn). simpl. by left.
Qed.

Lemma round_trim_cut_of R h r :
  round_trim R h (round_starts h) = Ok r →
  ∃ n, r = (drop n h, round_starts (drop n h)) ∧ round_cut h n.
Proof.
  unfold round_trim. destruct (_ >? _).
  - destruct (index _ _) as [n|] eqn:Hidx; [|done].
    intros [= <-]. exists n. split; [done|].
    assert (∃ k, round_starts h !! k = Some n) as [k Hk].
    { unfold index in Hidx.
      destruct (_ && _); [eauto|]. destruct (_ && _); [eauto|done]. }
    destruct (round_starts_lookup h k n Hk) as (u & Hu & Hus & _).
    by eapply round_cut_user.
  - intros [= <-]. exists 0%nat. rewrite drop_0. split; [done|].
    apply round_cut_0.
Qed.

Lemma trim_cut h R B h' :
  trim h R B = Ok h' → ∃ n, h' = drop n h ∧ round_cut h n.
Proof.
  unfold trim.
  destruct (round_trim R h (round_starts h)) as [[h1 st1]|e] eqn:Hr; [|done].
  destruct (round_trim_cut_of R h _ Hr) as (n1 & [= -> ->] & Hc1).
  intros [= <-].
  destruct (budget_trim_exit B (drop n1 h)) as (n2 & -> & Hc2 & _).
  exists (n1 + n2)%nat. rewrite drop_drop. split; [done|].
  by apply round_cut_compose.
Qed.

(** X4: histories that pass the validator can be put together, and a prefix
    of a history that passes the validator passes it. *)
Theorem validate_concatenation (h1 h2 : list LLMMessage) :
  (validate_message_sequence h1 = [] → validate_message_sequence h2 = [] →
   validate_message_sequence (h1 ++ h2) = [])
  ∧ (validate_message_sequence (h1 ++ h2) = [] →
     validate_message_sequence h1 = []).
Proof. split; [apply validate_app|apply validate_prefix]. Qed.

(** X5: whatever the bounds, a trim that returns maps a history that passes
    the validator to one that passes it. *)
Theorem trim_preserves_validity (h : list LLMMessage) (R B : Z) h' :
  validate_message_sequence h = [] →
  trim h R B = Ok h'
  ∨ _trim_conversation_history R h = Ok h'
  ∨ _trim_history R h = Ok h' →
  validate_message_sequence h' = [].
Proof.
  intros Hv Htrim.
  assert (Hcut : ∃ n, h' = drop n h ∧ round_cut h n).
  { destruct Htrim as [Ht|[Ht|Ht]].
    - by eapply trim_cut.
    - unfold _trim_conversation_history in Ht.
      destruct (negb (truthy h)).
      + injection Ht as <-. exists 0%nat. rewrite drop_0.
        split; [done|apply round_cut_0].
      + by eapply trim_cut.
    - by eapply trim_cut. }
  destruct Hcut as (n & -> & Hcut). by apply validate_drop_cut.
Qed.

Lemma trim_preserves_validity_witness :
  validate_message_sequence (drop 1 three_short_rounds) = [].
Proof.
  apply (trim_preserves_validity three_short_rounds (-1) 100).
  - vm_compute. reflexivity.
  - left. vm_compute. reflexivity.
Defined.

(** ** What the trimmer bounds *)

Section Bounds.
Context {W : Type} `{Collaborators W}.

Lemma trimmed_bounds h R h' :
  1 ≤ R → trim h R MAX_HISTORY_CHARS = Ok h' →
  Z.of_nat (count_rounds h') ≤ R
  ∧ (sum_chars h' ≤ MAX_HISTORY_CHARS ∨ (count_rounds h' ≤ 2)%nat).
Proof.
  intros HR Ht.
  destruct (trim_spec h R MAX_HISTORY_CHARS) as (n & Hn & _ & Hr & Hb);
    [lia|].
  rewrite Hn in Ht. injection Ht as <-. split.
  - destruct Hr as [Hr|[-> _]]; [done|lia].
  - apply andb_false_iff in Hb as [Hb|Hb].
    + left. rewrite Z.gtb_ltb in Hb. by apply Z.ltb_ge in Hb.
    + right. rewrite Z.gtb_ltb in Hb. apply Z.ltb_ge in Hb. lia.
Qed.

(** X6: after any number of turns the stored history holds at most the round
    limit of user messages (6 for the agent), and at most 24000 characters
    unless it is down to at most two rounds. *)
Theorem history_stays_bounded :
  (∀ s : DA.t W, reachable s →
     (count_rounds (DA.conversation_history s) ≤ 6)%nat
     ∧ (sum_chars (DA.conversation_history s) ≤ MAX_HISTORY_CHARS
        ∨ (count_rounds (DA.conversation_history s) ≤ 2)%nat))
  ∧ (∀ s : E2E.t W, e2e_reachable s → 1 ≤ E2E.max_rounds s →
       Z.of_nat (count_rounds (E2E.conversation_history s)) ≤ E2E.max_rounds s
       ∧ (sum_chars (E2E.conversation_history s) ≤ MAX_HISTORY_CHARS
          ∨ (count_rounds (E2E.conversation_history s) ≤ 2)%nat)).
Proof.
  split.
  - intros s Hs. induction Hs as [w|s w _ IH|s task r s' _ IH Hex].
    + split; [vm_compute; lia|]. left. by vm_compute.
    + exact IH.
    + destruct r as [reply|e].
      * destruct (execute_task_ok task s reply s' Hex)
          as (produced & s1 & chunks & n & Hloop & _).
        destruct (execute_task_trim task s reply s' produced s1 Hex Hloop)
          as [_ Ht].
        apply trimmed_bounds in Ht as [H6 Hb]; [|lia]. split; [lia|done].
      * by rewrite (execute_task_raise task s e s' Hex).
  - intros s Hs.
    induction Hs as [R w|s w _ IH|s prompt q r s' _ IH Hex]; intros HR.
    + simpl in *. change (count_rounds []) with 0%nat.
      split; [lia|]. left. by vm_compute.
    + by apply IH.
    + rewrite chat_eq in Hex.
      destruct (chat_complete _ _ _) as [[resp|e] w1].
      * simpl in Hex.
        destruct (_trim_history _ _) as [h'|e] eqn:Ht.
        -- injection Hex as <- <-. simpl in *.
           by apply (trimmed_bounds _ _ _ HR Ht).
        -- injection Hex as <- <-. simpl in HR.
           destruct (trim_spec
                       (E2E.conversation_history s
                        ++ e2e_round q (resp_content resp))
                       (E2E.max_rounds s) MAX_HISTORY_CHARS)
             as (n & Hn & _); [lia|].
           unfold _trim_history in Ht. congruence.
      * injection Hex as <- <-. by apply IH.
Qed.

End Bounds.

Lemma history_stays_bounded_witness :
  (count_rounds (DA.conversation_history search_turn.2) ≤ 6)%nat
  ∧ (sum_chars (DA.conversation_history search_turn.2) ≤ MAX_HISTORY_CHARS
     ∨ (count_rounds (DA.conversation_history search_turn.2) ≤ 2)%nat).
Proof.
  apply (proj1 history_stays_bounded search_turn.2).
  apply (reachable_turn (DA.init search_world) search_task (Ok (lit "final"))).
  - apply reachable_init.
  - vm_compute. reflexivity.
Defined.

(** ** Results of a test *)

Lemma test_result_fold calls r :
  TestResult.errors (foldl test_result_step r calls)
  = TestResult.errors r ++ error_messages calls
  ∧ TestResult.details (foldl test_result_step r calls)
    = TestResult.details r ++ detail_messages calls
  ∧ TestResult.name (foldl test_result_step r calls) = TestResult.name r
  ∧ TestResult.passed (foldl test_result_step r calls)
    = TestResult.passed r && negb (truthy (error_messages calls)).
Proof.
  revert r. induction calls as [|c calls IH]; intros r.
  - cbn. by rewrite !app_nil_r, andb_true_r.
  - simpl foldl. destruct (IH (test_result_step r c)) as (He & Hd & Hn & Hp).
    rewrite He, Hd, Hn, Hp.
    destruct c; simpl; by rewrite <- ?app_assoc, ?andb_false_r.
Qed.

(** X7: whatever calls are made on a new [TestResult], it is passed exactly
    when no error was added, and it lists the errors and the details in the
    order they were added. *)
Theorem test_result_passed_iff_no_error (name : str)
    (calls : list test_result_call) :
  let r := foldl test_result_step (TestResult.init name) calls in
  (TestResult.passed r = true ↔ TestResult.errors r = [])
  ∧ TestResult.errors r = error_messages calls
  ∧ TestResult.details r = detail_messages calls
  ∧ TestResult.name r = name.
Proof.
  intros r. subst r.
  destruct (test_result_fold calls (TestResult.init name))
    as (He & Hd & Hn & Hp).
  rewrite He, Hd, Hn, Hp. simpl. repeat split; try done.
  - by destruct (error_messages calls).
  - by intros ->.
Qed.

(** ** The programmable provider *)

Lemma chunks_of_spec fuel (s : str) :
  (length s ≤ fuel)%nat →
  concat (chunks_of fuel s) = s
  ∧ Forall (fun c => 1 ≤ len c ≤ 20) (chunks_of fuel s).
Proof.
  revert s. induction fuel as [|fuel IH]; intros s Hs.
  - destruct s; [done|simpl in Hs; lia].
  - destruct s as [|c s]; [done|].
    change (chunks_of (S fuel) (c :: s))
      with (take 20 (c :: s) :: chunks_of fuel (drop 20 (c :: s))).
    destruct (IH (drop 20 (c :: s))) as [Hc Hf].
    { rewrite length_drop. simpl length in *. lia. }
    split.
    + change (concat (?x :: ?l)) with (x ++ concat l).
      rewrite Hc. apply take_drop.
    + constructor; [|done]. unfold len. rewrite length_take.
      simpl length. lia.
Qed.

(** X8: the mock stream yields the queued content cut into chunks of 1 to
    20 characters, which put together give the content back; once the queue
    is used up it yields the one notice; every call is logged. *)
Theorem mock_stream_round_trip (p : MockLLMProvider)
    (messages : list LLMMessage) :
  (∀ resp, _responses p !! _call_idx p = Some resp →
     concat (provider_chat messages p).1 = or_empty (resp_content resp)
     ∧ Forall (fun c => 1 ≤ len c ≤ 20) (provider_chat messages p).1
     ∧ _call_idx (provider_chat messages p).2 = S (_call_idx p))
  ∧ (_responses p !! _call_idx p = None →
       (provider_chat messages p).1 = [NO_MORE_RESPONSES]
       ∧ _call_idx (provider_chat messages p).2 = _call_idx p)
  ∧ all_call_log (provider_chat messages p).2 = all_call_log p ++ [messages].
Proof.
  unfold provider_chat. split; [|split].
  - intros resp ->. simpl.
    destruct (chunks_of_spec (length (or_empty (resp_content resp)))
                (or_empty (resp_content resp))) as [Hc Hf]; done.
  - by intros ->.
  - by destruct (_ !! _).
Qed.

Lemma provider_chat_complete_eq m p :
  provider_chat_complete m p
  = (default EMPTY_RESPONSE (_responses p !! _call_idx p),
     {| _responses := _responses p;
        _call_idx := match _responses p !! _call_idx p with
                     | Some _ => S (_call_idx p)
                     | None => _call_idx p
                     end;
        call_log := call_log p ++ [m];
        all_call_log := all_call_log p ++ [m] |}).
Proof. unfold provider_chat_complete. by destruct (_ !! _). Qed.

Lemma add_responses_queue rs p :
  _responses (add_responses rs p) = _responses p ++ map queued rs
  ∧ _call_idx (add_responses rs p) = _call_idx p
  ∧ call_log (add_responses rs p) = call_log p
  ∧ all_call_log (add_responses rs p) = all_call_log p.
Proof.
  revert p. induction rs as [|r rs IH]; intros p.
  - simpl. by rewrite app_nil_r.
  - unfold add_responses. simpl foldl.
    destruct (IH (add_response r.1 r.2 p)) as (H1 & H2 & H3 & H4).
    unfold add_responses in *. rewrite H1, H2, H3, H4. simpl.
    by rewrite <- app_assoc.
Qed.

Lemma complete_all_spec ts p j :
  (j `min` length (_responses p))%nat = _call_idx p →
  (complete_all ts p).1
  = map (fun k => default EMPTY_RESPONSE (_responses p !! k))
        (seq j (length ts))
  ∧ call_log (complete_all ts p).2 = call_log p ++ ts
  ∧ all_call_log (complete_all ts p).2 = all_call_log p ++ ts.
Proof.
  revert p j. induction ts as [|m ts IH]; intros p j Hj.
  - simpl. by rewrite !app_nil_r.
  - simpl complete_all. rewrite provider_chat_complete_eq.
    set (p1 := {| _responses := _responses p; _call_idx := _;
                  call_log := _; all_call_log := _ |}).
    destruct (IH p1 (S j)) as (Hr & Hc & Ha).
    { subst p1. cbn [_responses _call_idx].
      destruct (_responses p !! _call_idx p) as [resp|] eqn:Hl.
      - apply lookup_lt_Some in Hl. lia.
      - apply lookup_ge_None in Hl. lia. }
    destruct (complete_all ts p1) as [rs p2]. simpl in *.
    rewrite Hr, Hc, Ha, <- !app_assoc. split; [|done]. f_equal.
    rewrite <- Hj.
    destruct (decide (j < length (_responses p))%nat) as [Hlt|Hge].
    + by rewrite Nat.min_l by lia.
    + rewrite Nat.min_r by lia.
      rewrite !(proj2 (lookup_ge_None _ _)) by lia. done.
Qed.

(** X9: responses are answered in the order they were queued, then the
    empty response; [reset] empties the queue and the current log and keeps
    the log of all calls, to which every transcript is appended in order. *)
Theorem mock_responses_fifo (rs : list (str * option (list ToolCall)))
    (transcripts : list (list LLMMessage)) (p : MockLLMProvider) :
  let p' := add_responses rs (reset p) in
  (complete_all transcripts p').1
  = map (fun k => default EMPTY_RESPONSE (map queued rs !! k))
        (seq 0 (length transcripts))
  ∧ call_log (complete_all transcripts p').2 = transcripts
  ∧ all_call_log (complete_all transcripts p').2
    = all_call_log p ++ transcripts.
Proof.
  intros p'. subst p'.
  destruct (add_responses_queue rs (reset p)) as (H1 & H2 & H3 & H4).
  destruct (complete_all_spec transcripts (add_responses rs (reset p)) 0)
    as (Hr & Hc & Ha).
  { by rewrite H2. }
  rewrite Hr, Hc, Ha, H1, H3, H4. done.
Qed.

(** ** The assertion helpers *)

Lemma index_nil {A} i : index (@nil A) i = None.
Proof.
  unfold index, len. simpl length. rewrite !lookup_nil.
  by repeat destruct (_ && _).
Qed.

Lemma missing_nil_iff {A E} (found : A → bool) (err : A → E) (l : list A) :
  flat_map (fun x => if negb (found x) then [err x] else []) l = []
  ↔ Forall (fun x => found x = true) l.
Proof.
  induction l as [|x l IH]; [done|]. simpl. rewrite Forall_cons.
  destruct (found x); simpl; [|by split; [|intros [? _]]].
  rewrite IH. tauto.
Qed.

Lemma Forall_contains text kws :
  Forall (fun kw => contains text kw = true) kws
  ↔ Forall (fun kw => occurs_in kw text) kws.
Proof. apply Forall_proper; [|done]. intros kw. apply contains_spec. Qed.

(** X10: [assert_response_quality] returns no error exactly when every
    expected keyword occurs in the response, and one error per missing
    keyword otherwise. *)
Theorem assert_response_quality_sound (response : str)
    (expected_keywords : list str) (description : str) :
  (assert_response_quality response expected_keywords description = []
   ↔ Forall (fun kw => occurs_in kw response) expected_keywords)
  ∧ assert_response_quality response expected_keywords description
    = map (ReplyMissingKeyword description)
          (filter (fun kw => contains response kw = false) expected_keywords).
Proof.
  split.
  - unfold assert_response_quality.
    by rewrite missing_nil_iff, Forall_contains.
  - unfold assert_response_quality.
    induction expected_keywords as [|kw kws IH]; [done|].
    simpl flat_map. rewrite filter_cons, IH.
    destruct (contains response kw); simpl.
    + by destruct (decide (true = false)).
    + by destruct (decide (false = false)).
Qed.

(** X11: the two context assertions return no error exactly when the call
    index names a logged call and that call's transcript holds every keyword
    in its contents joined by spaces, respectively a message of the role. *)
Theorem context_assertions_sound (p : MockLLMProvider) (call_index : Z)
    (description : str) :
  (∀ keywords,
     assert_context_contains p keywords call_index description = []
     ↔ ∃ messages, index (all_call_log p) call_index = Some messages
         ∧ Forall (fun kw => occurs_in kw (joined_contents messages)) keywords)
  ∧ (∀ r,
       assert_context_has_role p r call_index description = []
       ↔ ∃ messages, index (all_call_log p) call_index = Some messages
           ∧ ∃ m, m ∈ messages ∧ role m = r)
  ∧ (index (all_call_log p) call_index = None →
     ∀ keywords r,
       length (assert_context_contains p keywords call_index description)
       = 1%nat
       ∧ length (assert_context_has_role p r call_index description) = 1%nat).
Proof.
  unfold assert_context_contains, assert_context_has_role.
  split; [|split].
  - intros keywords. destruct (all_call_log p) as [|c log] eqn:Hlog.
    + simpl. rewrite index_nil. split; [done|]. by intros (? & ? & _).
    + simpl negb. cbv iota. destruct (index _ _) as [messages|].
      * rewrite missing_nil_iff, Forall_contains. split.
        -- intros Hf. eauto.
        -- by intros (? & [= <-] & Hf).
      * split; [done|]. by intros (? & ? & _).
  - intros r. destruct (all_call_log p) as [|c log] eqn:Hlog.
    + simpl. rewrite index_nil. split; [done|]. by intros (? & ? & _).
    + simpl negb. cbv iota. destruct (index _ _) as [messages|].
      * destruct (existsb _ messages) eqn:Hex; simpl.
        -- split; [intros _|done]. exists messages. split; [done|].
           apply existsb_exists in Hex as (m & Hin & Hm).
           exists m. split; [by apply list_elem_of_In|].
           by apply bool_decide_eq_true in Hm.
        -- split; [done|]. intros (? & [= <-] & m & Hin & Hm).
           assert (existsb (λ m, bool_decide (role m = r)) messages = true);
             [|congruence].
           apply existsb_exists. exists m.
           split; [by apply list_elem_of_In|by apply bool_decide_eq_true].
      * split; [done|]. by intros (? & ? & _).
  - intros Hnone keywords r. rewrite Hnone.
    by destruct (negb (truthy (all_call_log p))).
Qed.

(** ** What the provider is shown *)



Lemma mock_chat_log messages (w : World) chunks w' :
  chat messages w = (Ok chunks, w') →
  all_call_log (provider w') = all_call_log (provider w) ++ [messages]
  ∧ skill_set w' = skill_set w.
Proof.
  cbn. unfold on_provider, provider_chat.
  destruct (_ !! _); intros [= <- <-]; done.
Qed.




(** ** Calls of a turn on the mock collaborators *)

Lemma mock_tool_results tcs (w : World) : (tool_results tcs w).2 = w.
Proof.
  induction tcs as [|tc tcs IH]; [done|]. cbn.
  destruct (tool_results tcs w) as [ms w2] eqn:Hr. simpl in *. done.
Qed.

Lemma mock_tool_loop n tds msgs (s : DA.t World) :
  ∃ msgs' s' calls,
    DA.tool_loop n tds msgs s = (Ok msgs', s')
    ∧ DA.conversation_history s' = DA.conversation_history s
    ∧ skill_set (DA.world s') = skill_set (DA.world s)
    ∧ all_call_log (provider (DA.world s'))
      = all_call_log (provider (DA.world s)) ++ calls
    ∧ (length calls ≤ n)%nat
    ∧ (truthy tds = false → calls = [] ∧ msgs' = msgs).
Proof.
  revert msgs s. induction n as [|n IH]; intros msgs s.
  - exists msgs, s, []. rewrite app_nil_r. repeat split; first [done|simpl; lia].
  - rewrite tool_loop_S. destruct (truthy tds) eqn:Htds; simpl negb; cbv iota.
    2:{ exists msgs, s, []. rewrite app_nil_r. repeat split; first [done|simpl; lia]. }
    cbn [chat_complete collaborators]. unfold on_provider.
    rewrite provider_chat_complete_eq.
    set (resp := default EMPTY_RESPONSE _).
    set (p1 := {| _responses := _; _call_idx := _; call_log := _;
                  all_call_log := _ |}).
    destruct (negb (truthy_opt (resp_tool_calls resp))).
    + eexists msgs, _, [msgs]. split; [done|]. simpl.
      repeat split; first [done|simpl; lia].
    + rewrite mock_tool_results.
      edestruct IH as (msgs' & s' & calls & Hl & Hh & Hk & Ha & Hn & _).
      eexists msgs', s', (msgs :: calls). split; [exact Hl|].
      rewrite Hh, Hk, Ha. simpl. rewrite <- app_assoc.
      repeat split; first [done|simpl; lia].
Qed.

(** X13: on the mock collaborators every turn completes, and it calls the
    provider at least once and at most six times; without tool definitions
    it calls it exactly once, on the system prompt, the history and the new
    user message. *)
Theorem mock_turn_calls (s : DA.t World) (task : str) :
  ∃ reply s' calls,
    DA.execute_task task s = (Ok reply, s')
    ∧ all_call_log (provider (DA.world s'))
      = all_call_log (provider (DA.world s)) ++ calls
    ∧ (1 ≤ length calls ≤ 6)%nat
    ∧ (tool_definitions (skill_set (DA.world s)) = [] →
       calls = [transcript (DA.conversation_history s) task]).
Proof.
  rewrite execute_task_eq.
  destruct (mock_tool_loop DA.max_tool_rounds
              (get_tool_definitions (DA.world s))
              (transcript (DA.conversation_history s) task) s)
    as (msgs' & s1 & calls & Hl & Hh & Hk & Ha & Hn & Hnone).
  rewrite Hl.
  destruct (chat msgs' (DA.world s1)) as [[chunks|e] w2] eqn:Hchat.
  2:{ cbn in Hchat. unfold on_provider in Hchat.
      destruct (provider_chat _ _). done. }
  apply mock_chat_log in Hchat as [Hlog Hks].
  cbv zeta. rewrite trim_conversation_history_trim by lia.
  destruct (trim_spec (committed (DA.conversation_history s1) msgs'
                         (concat chunks)) 6 MAX_HISTORY_CHARS)
    as (n & -> & _); [lia|].
  eexists _, _, (calls ++ [msgs']). split; [done|]. simpl.
  rewrite Hlog, Ha, <- app_assoc. split; [done|].
  rewrite length_app. simpl. unfold DA.max_tool_rounds in Hn.
  split; [lia|]. intros Hno.
  destruct Hnone as [-> ->]; [|done].
  cbn. by rewrite Hno.
Qed.

(** ** The programmable skills *)

Section Invocations.
Context {W : Type} `{Collaborators W}.



End Invocations.

(** X15: a result set for a skill is what executing that skill returns, with
    a summary of at most 80 characters; other skills are not affected; a
    skill never set fails with "Unknown skill"; and the tool message of an
    invocation of the skill carries the result, or "无结果" when the result
    is empty. *)
Theorem skill_result_round_trip (k : MockSkillSet) (skill_name r : str) :
  skill_set_execute_skill skill_name (set_result skill_name r k)
  = {| success := true; result := r; summary := take 80 r; error := None |}
  ∧ len (summary (skill_set_execute_skill skill_name
                    (set_result skill_name r k))) ≤ 80
  ∧ (∀ other, other ≠ skill_name →
       skill_set_execute_skill other (set_result skill_name r k)
       = skill_set_execute_skill other k)
  ∧ (∀ other, _results k !! other = None →
       success (skill_set_execute_skill other k) = false
       ∧ skill_text (skill_set_execute_skill other k) = UNKNOWN_SKILL)
  ∧ (∀ (s : DA.t World) tc msgs,
       tc_name tc = skill_name →
       skill_set (DA.world s) = set_result skill_name r k →
       DA.run_tool_calls [tc] msgs s
       = (Ok (msgs ++ [{| role := TOOL;
                          content := Some (if truthy r then r else NO_RESULT);
                          tool_calls := None;
                          tool_call_id := Some (tc_id tc) |}]), s)).
Proof.
  assert (Hset : skill_set_execute_skill skill_name
                   (set_result skill_name r k)
                 = {| success := true; result := r; summary := take 80 r;
                      error := None |}).
  { unfold skill_set_execute_skill, set_result. simpl.
    by rewrite lookup_insert_eq. }
  split; [done|split; [|split; [|split]]].
  - rewrite Hset. unfold len. simpl. rewrite length_take. lia.
  - intros other Hne. unfold skill_set_execute_skill, set_result. simpl.
    by rewrite lookup_insert_ne.
  - intros other Hnone. unfold skill_set_execute_skill. by rewrite Hnone.
  - intros s tc msgs Htc Hk. rewrite run_tool_calls_eq. cbn.
    rewrite Hk, Htc, Hset. simpl. by destruct s.
Qed.

(** ** Turns of the plain engine *)

Lemma e2e_round_valid q reply :
  validate_message_sequence (e2e_round q reply) = [].
Proof. apply validate_nil_iff. split; [done|]. by intros [|[|i]] t [= <-]. Qed.

Lemma index_beyond {A} (l : list A) i : len l ≤ i → index l i = None.
Proof.
  intros Hi. unfold index.
  replace ((0 <=? i) && (i <? len l)) with false
    by (symmetry; apply andb_false_iff; right; apply Z.ltb_ge; lia).
  replace ((- len l <=? i) && (i <? 0)) with false; [done|].
  symmetry. apply andb_false_iff. right. apply Z.ltb_ge. unfold len in *. lia.
Qed.

Section PlainEngine.
Context {W : Type} `{Collaborators W}.

(** X16: with a round limit that is not negative, [chat] raises exactly
    when the completion raises, and then changes nothing of the engine but
    the collaborators; otherwise it returns the completion's content and the
    history is a suffix of the old one followed by the user message and the
    reply, which is appended whatever it is. *)
Theorem e2e_chat_outcome (s : E2E.t W) (prompt user_input : str) :
  0 ≤ E2E.max_rounds s →
  match chat_complete
          ([plain_message SYSTEM prompt] ++ E2E.conversation_history s
           ++ [plain_message USER user_input]) None (E2E.world s) with
  | (Raise e, w1) =>
      E2E.chat prompt user_input s = (Raise e, E2E.with_world s w1)
  | (Ok resp, w1) =>
      ∃ n, (n ≤ length (E2E.conversation_history s))%nat
           ∧ E2E.chat prompt user_input s
             = (Ok (resp_content resp),
                {| E2E.conversation_history :=
                     drop n (E2E.conversation_history s)
                     ++ e2e_round user_input (resp_content resp);
                   E2E.max_rounds := E2E.max_rounds s;
                   E2E.world := w1 |})
  end.
Proof.
  intros HR. rewrite chat_eq.
  destruct (chat_complete _ _ _) as [[resp|e] w1]; [|done]. cbv zeta.
  destruct (trim_spec
              (E2E.conversation_history s
               ++ e2e_round user_input (resp_content resp))
              (E2E.max_rounds s) MAX_HISTORY_CHARS HR)
    as (n & Hn & Hcut & _).
  unfold _trim_history. rewrite Hn.
  assert (Hle : (n ≤ length (E2E.conversation_history s))%nat).
  { eapply (round_cut_commit _ (plain_message USER user_input)); [done| |].
    2: exact Hcut. by repeat constructor. }
  exists n. split; [done|]. by rewrite drop_app_le.
Qed.

Lemma e2e_chat_history prompt q (s : E2E.t W) r s' :
  0 ≤ E2E.max_rounds s → E2E.chat prompt q s = (r, s') →
  E2E.max_rounds s' = E2E.max_rounds s
  ∧ match r with
    | Ok reply =>
        ∃ n, (n ≤ length (E2E.conversation_history s))%nat
             ∧ E2E.conversation_history s'
               = drop n (E2E.conversation_history s) ++ e2e_round q reply
    | Raise _ => E2E.conversation_history s' = E2E.conversation_history s
    end.
Proof.
  intros HR. rewrite chat_eq.
  destruct (chat_complete _ _ _) as [[resp|e] w1]; [|by intros [= <- <-]].
  cbv zeta.
  destruct (trim_spec
              (E2E.conversation_history s ++ e2e_round q (resp_content resp))
              (E2E.max_rounds s) MAX_HISTORY_CHARS HR)
    as (n & Hn & Hcut & _).
  unfold _trim_history. rewrite Hn. intros [= <- <-]. split; [done|].
  assert (Hle : (n ≤ length (E2E.conversation_history s))%nat).
  { eapply (round_cut_commit _ (plain_message USER q)); [done| |].
    2: exact Hcut. by repeat constructor. }
  exists n. split; [done|]. simpl. by rewrite drop_app_le.
Qed.

(** X17: whatever the round limit, the history of the plain engine passes
    the validator after every call of [chat], completed or not. *)
Theorem e2e_history_valid (s : E2E.t W) :
  e2e_reachable s →
  validate_message_sequence (E2E.conversation_history s) = [].
Proof.
  induction 1 as [R w|s w _ IH|s prompt q r s' _ IH Hex]; [done|done|].
  rewrite chat_eq in Hex.
  destruct (chat_complete _ _ _) as [[resp|e] w1];
    [|by injection Hex as <- <-].
  cbv zeta in Hex.
  pose proof (validate_app _ _ IH (e2e_round_valid q (resp_content resp)))
    as Hv.
  destruct (_trim_history _ _) as [h'|e] eqn:Ht; injection Hex as <- <-.
  - simpl. destruct (trim_cut _ _ _ _ Ht) as (n & -> & Hcut).
    by apply validate_drop_cut.
  - exact Hv.
Qed.

(** X18: with a negative round limit [-k] and fewer than [k] stored
    rounds, a [chat] whose completion returns raises IndexError after it has
    appended the user message and the reply. *)
Theorem e2e_negative_limit_raises_after_commit (s : E2E.t W)
    (prompt user_input : str) resp w1 :
  E2E.max_rounds s < 0 →
  Z.of_nat (count_rounds (E2E.conversation_history s)) < - E2E.max_rounds s →
  chat_complete
    ([plain_message SYSTEM prompt] ++ E2E.conversation_history s
     ++ [plain_message USER user_input]) None (E2E.world s) = (Ok resp, w1) →
  E2E.chat prompt user_input s
  = (Raise IndexError,
     {| E2E.conversation_history :=
          E2E.conversation_history s
          ++ e2e_round user_input (resp_content resp);
        E2E.max_rounds := E2E.max_rounds s;
        E2E.world := w1 |}).
Proof.
  intros HR Hc Hcomp. rewrite chat_eq, Hcomp. cbv zeta.
  replace (_trim_history _ _) with (@Raise (list LLMMessage) IndexError);
    [done|].
  unfold _trim_history, trim, round_trim.
  assert (Hlen : len (round_starts
                        (E2E.conversation_history s
                         ++ e2e_round user_input (resp_content resp)))
                 = Z.of_nat (count_rounds (E2E.conversation_history s)) + 1).
  { unfold len. rewrite length_round_starts, count_rounds_app.
    change (count_rounds (e2e_round _ _)) with 1%nat. lia. }
  replace (_ >? _) with true by (symmetry; apply Z.gtb_lt; lia).
  rewrite index_beyond by lia. done.
Qed.

End PlainEngine.

Lemma e2e_chat_outcome_witness :
  match chat_complete
          ([plain_message SYSTEM []] ++ E2E.conversation_history e2e_state0
           ++ [plain_message USER (short_input 1)]) None
          (E2E.world e2e_state0) with
  | (Raise e, w1) =>
      E2E.chat [] (short_input 1) e2e_state0
      = (Raise e, E2E.with_world e2e_state0 w1)
  | (Ok resp, w1) =>
      ∃ n, (n ≤ length (E2E.conversation_history e2e_state0))%nat
           ∧ E2E.chat [] (short_input 1) e2e_state0
             = (Ok (resp_content resp),
                {| E2E.conversation_history :=
                     drop n (E2E.conversation_history e2e_state0)
                     ++ e2e_round (short_input 1) (resp_content resp);
                   E2E.max_rounds := E2E.max_rounds e2e_state0;
                   E2E.world := w1 |})
  end.
Proof. apply (e2e_chat_outcome e2e_state0 [] (short_input 1)). done. Defined.

Lemma e2e_history_valid_witness :
  validate_message_sequence (E2E.conversation_history e2e_state1) = [].
Proof.
  apply (e2e_history_valid e2e_state1).
  apply (e2e_reachable_turn
           (E2E.with_world e2e_state0 (E2E.world e2e_state0))
           [] (short_input 1) (Ok (Some []))).
  - apply e2e_reachable_world. apply (e2e_reachable_init 2 plain_world).
  - vm_compute. reflexivity.
Defined.

Lemma e2e_negative_limit_raises_after_commit_witness :
  E2E.chat [] (short_input 1) (E2E.init (-1) plain_world)
  = (Raise IndexError,
     {| E2E.conversation_history := e2e_round (short_input 1) (Some []);
        E2E.max_rounds := -1;
        E2E.world :=
          (E2E.chat [] (short_input 1) (E2E.init (-1) plain_world)).2.(E2E.world)
     |}).
Proof.
  apply (e2e_negative_limit_raises_after_commit
           (E2E.init (-1) plain_world) [] (short_input 1)
           {| resp_content := Some []; resp_tool_calls := None |}).
  - done.
  - done.
  - vm_compute. reflexivity.
Defined.

(** ** Retrying a rate-limited call *)

Lemma backoff_S b from k :
  backoff b from (S k) = Z.min (b * 2 ^ from) 120 :: backoff b (from + 1) k.
Proof.
  unfold backoff. simpl seq. rewrite <- seq_shift, map_cons, map_map.
  f_equal.
  - do 3 f_equal. lia.
  - apply map_ext. intros i. do 3 f_equal. lia.
Qed.

Lemma backoff_bounds b from k :
  0 ≤ from →
  length (backoff b from k) = k
  ∧ Forall (fun d => d ≤ 120) (backoff b from k)
  ∧ (0 ≤ b → Forall (fun d => 0 ≤ d) (backoff b from k)).
Proof.
  intros Hfrom. unfold backoff. split; [|split].
  - by rewrite length_map, length_seq.
  - apply Forall_forall. intros d (i & -> & _)%list_elem_of_fmap. lia.
  - intros Hb. apply Forall_forall. intros d (i & -> & _)%list_elem_of_fmap.
    assert (0 ≤ 2 ^ (from + Z.of_nat i)) by (apply Z.pow_nonneg; lia). nia.
Qed.

Section RetryFacts.
Context {St A : Type}.
Variable lower : str → str.

Lemma retry_from_spec (coro_func : M St A) m b attempts attempt s slept :
  0 ≤ attempt → attempt + Z.of_nat attempts = m + 1 → (1 ≤ attempts)%nat →
  ∃ k sk,
    attempt + Z.of_nat k ≤ m
    ∧ rate_limited_calls lower coro_func k s sk
    ∧ retry_from lower attempts attempt m b coro_func (s, slept)
      = (retried (coro_func sk).1,
         ((coro_func sk).2, slept ++ backoff b attempt k))
    ∧ (attempt + Z.of_nat k < m →
       ∀ e, (coro_func sk).1 = Raise e → is_rate_limit lower e = false).
Proof.
  revert attempt s slept.
  induction attempts as [|n IH]; intros attempt s slept H0 Hsum H1; [lia|].
  simpl retry_from. destruct (coro_func s) as [[a|e] s1] eqn:Hc.
  - exists 0%nat, s. rewrite Hc. simpl. rewrite app_nil_r.
    split; [lia|]. split; [constructor|]. done.
  - destruct (is_rate_limit lower e) eqn:Hrl;
      destruct (attempt <? m) eqn:Hlt; simpl andb; cbv iota zeta.
    + apply Z.ltb_lt in Hlt.
      destruct (IH (attempt + 1) s1
                  (slept ++ [Z.min (b * 2 ^ attempt) 120]))
        as (k & sk & Hk & Hcalls & Heq & Hlast); [lia..|].
      exists (S k), sk. split; [lia|]. split; [by econstructor|]. split.
      * by rewrite Heq, backoff_S, <- app_assoc.
      * intros Hlt'. apply Hlast. lia.
    + apply Z.ltb_ge in Hlt. exists 0%nat, s. rewrite Hc. simpl.
      rewrite app_nil_r. split; [lia|]. split; [constructor|].
      split; [done|]. lia.
    + exists 0%nat, s. rewrite Hc. simpl. rewrite app_nil_r.
      split; [lia|]. split; [constructor|]. split; [done|].
      by intros _ e' [= <-].
    + exists 0%nat, s. rewrite Hc. simpl. rewrite app_nil_r.
      split; [lia|]. split; [constructor|]. split; [done|].
      by intros _ e' [= <-].
Qed.

(** X19: with [max_retries] not negative, [call_with_retry] returns the
    outcome of a call that follows [k ≤ max_retries] calls which all raised a
    rate-limit error; it slept [min(base_delay * 2^i, 120)] after the
    [i]-th of them and at no other time; and it stops before [max_retries]
    retries only on a result or on an error that is not a rate limit. *)
Theorem call_with_retry_outcome (coro_func : M St A)
    (max_retries base_delay : Z) (s : St) (slept : list Z) :
  0 ≤ max_retries →
  ∃ k sk,
    Z.of_nat k ≤ max_retries
    ∧ rate_limited_calls lower coro_func k s sk
    ∧ call_with_retry lower coro_func max_retries base_delay (s, slept)
      = (retried (coro_func sk).1,
         ((coro_func sk).2, slept ++ backoff base_delay 0 k))
    ∧ (Z.of_nat k < max_retries →
       ∀ e, (coro_func sk).1 = Raise e → is_rate_limit lower e = false).
Proof.
  intros Hm. unfold call_with_retry.
  destruct (retry_from_spec coro_func max_retries base_delay
              (Z.to_nat (max_retries + 1)) 0 s slept)
    as (k & sk & Hk & Hcalls & Heq & Hlast); [lia..|].
  exists k, sk. repeat split; [lia|done|done|].
  intros Hlt. apply Hlast. lia.
Qed.

(** X20: [call_with_retry] sleeps at most [max_retries] times and never
    longer than 120 at a time, nor a negative time when [base_delay] is not
    negative. *)
Theorem call_with_retry_waits (coro_func : M St A)
    (max_retries base_delay : Z) (s : St) (slept : list Z) :
  ∃ delays,
    (call_with_retry lower coro_func max_retries base_delay (s, slept)).2.2
    = slept ++ delays
    ∧ Z.of_nat (length delays) ≤ Z.max 0 max_retries
    ∧ Forall (fun d => d ≤ 120) delays
    ∧ (0 ≤ base_delay → Forall (fun d => 0 ≤ d) delays).
Proof.
  destruct (decide (max_retries < 0)) as [Hneg|Hpos].
  - exists []. unfold call_with_retry.
    replace (Z.to_nat (max_retries + 1)) with 0%nat by lia.
    simpl. rewrite app_nil_r. repeat split; [lia|done..].
  - unfold call_with_retry.
    destruct (retry_from_spec coro_func max_retries base_delay
                (Z.to_nat (max_retries + 1)) 0 s slept)
      as (k & sk & Hk & _ & Heq & _); [lia..|].
    exists (backoff base_delay 0 k). rewrite Heq.
    destruct (backoff_bounds base_delay 0 k) as (Hl & H120 & H0); [lia|].
    rewrite Hl. repeat split; [lia|done..].
Qed.

(** X21: [call_with_retry] makes no call and returns [None] when
    [max_retries] is negative; otherwise a first call that returns, or that
    raises an error which is not a rate limit, ends it at once with that
    outcome and without sleeping; with [max_retries = 0] so does any
    error. *)
Theorem call_with_retry_immediate (coro_func : M St A)
    (max_retries base_delay : Z) (s : St) (slept : list Z) :
  (max_retries < 0 →
   call_with_retry lower coro_func max_retries base_delay (s, slept)
   = (Ok None, (s, slept)))
  ∧ (0 ≤ max_retries → ∀ a s1,
       coro_func s = (Ok a, s1) →
       call_with_retry lower coro_func max_retries base_delay (s, slept)
       = (Ok (Some a), (s1, slept)))
  ∧ (0 ≤ max_retries → ∀ e s1,
       coro_func s = (Raise e, s1) →
       is_rate_limit lower e = false ∨ max_retries = 0 →
       call_with_retry lower coro_func max_retries base_delay (s, slept)
       = (Raise e, (s1, slept))).
Proof.
  unfold call_with_retry. split; [|split].
  - intros Hneg. by replace (Z.to_nat (max_retries + 1)) with 0%nat by lia.
  - intros Hm a s1 Hc.
    destruct (Z.to_nat (max_retries + 1)) as [|n] eqn:Hn; [lia|].
    simpl. by rewrite Hc.
  - intros Hm e s1 Hc Hno.
    destruct (Z.to_nat (max_retries + 1)) as [|n] eqn:Hn; [lia|].
    simpl. rewrite Hc. destruct Hno as [->| ->]; [done|].
    by rewrite andb_false_r.
Qed.

End RetryFacts.

Lemma call_with_retry_outcome_witness :
  ∃ k sk,
    Z.of_nat k ≤ 5
    ∧ rate_limited_calls ascii_lower limited_twice k 0%nat sk
    ∧ call_with_retry ascii_lower limited_twice 5 15 (0%nat, [])
      = (retried (limited_twice sk).1,
         ((limited_twice sk).2, [] ++ backoff 15 0 k))
    ∧ (Z.of_nat k < 5 →
       ∀ e, (limited_twice sk).1 = Raise e → is_rate_limit ascii_lower e = false).
Proof.
  apply (call_with_retry_outcome ascii_lower limited_twice 5 15 0%nat []).
  done.
Defined.

(** The delays of the scenario: 15, then 30. *)
Lemma limited_twice_retried :
  call_with_retry ascii_lower limited_twice 5 15 (0%nat, [])
  = (Ok (Some (lit "ok")), (3%nat, [15; 30])).
Proof. vm_compute. reflexivity. Qed.

Section RetriedChat.
Context {W : Type} `{Collaborators W}.
Variable lower : str → str.

Lemma retry_from_chat prompt q m b attempts attempt (s : E2E.t W) slept
    r s' slept' :
  0 ≤ E2E.max_rounds s →
  retry_from lower attempts attempt m b (E2E.chat prompt q) (s, slept)
  = (r, (s', slept')) →
  E2E.max_rounds s' = E2E.max_rounds s
  ∧ match r with
    | Ok (Some reply) =>
        ∃ n, (n ≤ length (E2E.conversation_history s))%nat
             ∧ E2E.conversation_history s'
               = drop n (E2E.conversation_history s) ++ e2e_round q reply
    | Ok None | Raise _ =>
        E2E.conversation_history s' = E2E.conversation_history s
    end.
Proof.
  revert attempt s slept.
  induction attempts as [|n IH]; intros attempt s slept HR.
  - by intros [= <- <- <-].
  - simpl retry_from.
    destruct (E2E.chat prompt q s) as [[reply|e] s1] eqn:Hc;
      destruct (e2e_chat_history prompt q s _ s1 HR Hc) as [Hm Hh].
    + by intros [= <- <- <-].
    + destruct (_ && _).
      * cbv zeta. intros Hr. apply IH in Hr; [|lia].
        rewrite <- Hm, <- Hh. exact Hr.
      * by intros [= <- <- <-].
Qed.

(** X22: a [chat] of the plain engine run through [call_with_retry] commits
    the user message once however many attempts were needed: when it returns
    a reply, the history is a suffix of the old one followed by the user
    message and that reply; when it gives up, the history is the old one. *)
Theorem retried_chat_commits_once (s : E2E.t W) (prompt q : str)
    (max_retries base_delay : Z) (slept : list Z) r s' slept' :
  0 ≤ E2E.max_rounds s →
  call_with_retry lower (E2E.chat prompt q) max_retries base_delay (s, slept)
  = (r, (s', slept')) →
  E2E.max_rounds s' = E2E.max_rounds s
  ∧ match r with
    | Ok (Some reply) =>
        ∃ n, (n ≤ length (E2E.conversation_history s))%nat
             ∧ E2E.conversation_history s'
               = drop n (E2E.conversation_history s) ++ e2e_round q reply
    | Ok None | Raise _ =>
        E2E.conversation_history s' = E2E.conversation_history s
    end.
Proof. intros HR. unfold call_with_retry. by apply retry_from_chat. Qed.

End RetriedChat.

Lemma retried_chat_commits_once_witness :
  E2E.max_rounds e2e_state1 = E2E.max_rounds e2e_state0
  ∧ ∃ n, (n ≤ length (E2E.conversation_history e2e_state0))%nat
         ∧ E2E.conversation_history e2e_state1
           = drop n (E2E.conversation_history e2e_state0)
             ++ e2e_round (short_input 1) (Some []).
Proof.
  apply (retried_chat_commits_once ascii_lower e2e_state0 [] (short_input 1)
           5 15 [] (Ok (Some (Some []))) e2e_state1 []).
  - done.
  - vm_compute. reflexivity.
Defined.

(** ** Authentication dependencies *)

(** X23: [get_current_user] returns a user id exactly when credentials are
    given and the provider verifies their token to that id; every other case
    is a 401 with the Bearer challenge; [get_optional_user] returns the same
    id, and [None] where [get_current_user] raises. *)
Theorem authentication_requires_verified_token
    (creds : option Auth.HTTPAuthorizationCredentials)
    (auth : Auth.AuthProvider) :
  (∀ uid, Auth.get_current_user creds auth = Auth.Return uid
          ↔ ∃ c, creds = Some c
                 ∧ Auth.verify_token auth (Auth.credentials c) = Some uid)
  ∧ (∀ e, Auth.get_current_user creds auth = Auth.Abort e →
          Auth.status_code e = 401 ∧ Auth.headers e = Auth.BEARER)
  ∧ Auth.get_optional_user creds auth
    = match Auth.get_current_user creds auth with
      | Auth.Return uid => Some uid
      | Auth.Abort _ => None
      end.
Proof.
  unfold Auth.get_current_user, Auth.get_optional_user.
  destruct creds as [c|].
  - destruct (Auth.verify_token auth (Auth.credentials c)) as [u|] eqn:Hv.
    + split; [|split; [done|done]]. intros uid. split.
      * intros [= <-]. eauto.
      * intros (c' & [= <-] & Hc). congruence.
    + split; [|split; [by intros e [= <-]|done]]. intros uid.
      split; [done|]. intros (c' & [= <-] & Hc). congruence.
  - split; [|split; [by intros e [= <-]|done]]. intros uid.
    split; [done|]. by intros (c' & ? & _).
Qed.

(** X24: a token passed in the query is checked like one passed in the
    header as long as it is not empty, with the module's provider when none
    is given; a missing or empty token is refused without asking the
    provider; every refusal is a 401. *)
Theorem query_token_agrees_with_header (get_auth_provider : Auth.AuthProvider)
    (token : option str) (auth : option Auth.AuthProvider) :
  (∀ t scheme uid, token = Some t → truthy t = true →
     (Auth.verify_token_from_query get_auth_provider token auth
      = Auth.Return uid
      ↔ Auth.get_current_user
          (Some {| Auth.scheme := scheme; Auth.credentials := t |})
          (default get_auth_provider auth) = Auth.Return uid))
  ∧ (truthy_opt token = false →
     ∃ e, Auth.verify_token_from_query get_auth_provider token auth
          = Auth.Abort e
          ∧ Auth.status_code e = 401)
  ∧ (∀ e, Auth.verify_token_from_query get_auth_provider token auth
          = Auth.Abort e → Auth.status_code e = 401)
  ∧ Auth.verify_token_from_query get_auth_provider token None
    = Auth.verify_token_from_query get_auth_provider token
        (Some get_auth_provider).
Proof.
  unfold Auth.verify_token_from_query, Auth.get_current_user.
  split; [|split; [|split]].
  - intros t scheme uid -> Ht. simpl. rewrite Ht. simpl.
    destruct auth as [a|]; simpl;
      by destruct (Auth.verify_token _ t).
  - intros ->. simpl. eauto.
  - intros e. destruct (negb (truthy_opt token)); [by intros [= <-]|].
    destruct (Auth.verify_token _ _); [done|by intros [= <-]].
  - done.
Qed.

Lemma query_token_agrees_with_header_witness :
  Auth.verify_token_from_query one_token_provider (Some (lit "t0")) None
  = Auth.Return (lit "alice")
  ↔ Auth.get_current_user
      (Some {| Auth.scheme := lit "Bearer"; Auth.credentials := lit "t0" |})
      (default one_token_provider None) = Auth.Return (lit "alice").
Proof.
  apply (proj1 (query_token_agrees_with_header one_token_provider
                  (Some (lit "t0")) None) (lit "t0")); done.
Defined.

(** X25: [verify_session_owner] returns exactly when the cached session is
    the user's, or there is no cached session and the stored one is the
    user's; the cache decides alone when it knows the session; and every
    refusal is the same 404, whether the session is missing or somebody
    else's. *)
Theorem session_owner_check (get_session_info : str → option Auth.SessionInfo)
    (get_session_info_from_db : str → option (gmap str Auth.value))
    (session_id user_id : str) :
  (Auth.verify_session_owner get_session_info get_session_info_from_db
     session_id user_id = Auth.Return tt
   ↔ (∃ info, get_session_info session_id = Some info
              ∧ Auth.user_id info = Some user_id)
     ∨ (get_session_info session_id = None
        ∧ ∃ d, get_session_info_from_db session_id = Some d
               ∧ d !! lit "user_id" = Some (Auth.VStr user_id)))
  ∧ (∀ e, Auth.verify_session_owner get_session_info
            get_session_info_from_db session_id user_id = Auth.Abort e →
          e = Auth.SESSION_NOT_FOUND)
  ∧ (∀ info db', get_session_info session_id = Some info →
       Auth.verify_session_owner get_session_info db' session_id user_id
       = Auth.verify_session_owner get_session_info get_session_info_from_db
           session_id user_id).
Proof.
  unfold Auth.verify_session_owner. split; [|split].
  - destruct (get_session_info session_id) as [info|].
    + destruct (bool_decide (Auth.user_id info = Some user_id)) eqn:Hu; simpl.
      * apply bool_decide_eq_true in Hu. split; [intros _|done].
        left. eauto.
      * apply bool_decide_eq_false in Hu. split; [done|].
        intros [(info' & [= <-] & Hi)|[? _]]; done.
    + destruct (get_session_info_from_db session_id) as [d|].
      * destruct (bool_decide (d = ∅)) eqn:Hd; simpl.
        -- apply bool_decide_eq_true in Hd. subst d. split; [done|].
           intros [(? & ? & _)|(_ & d & [= <-] & Hl)]; [done|].
           by rewrite lookup_empty in Hl.
        -- unfold Auth.differs.
           destruct (d !! lit "user_id") as [[|u|]|] eqn:Hl; simpl;
             try (split; [done|];
                  intros [(? & ? & _)|(_ & d' & [= <-] & Hl')];
                  [done|congruence]).
           destruct (bool_decide (u = user_id)) eqn:Hu; simpl.
           ++ apply bool_decide_eq_true in Hu. subst u.
              split; [intros _|done]. right. split; [done|]. eauto.
           ++ apply bool_decide_eq_false in Hu. split; [done|].
              intros [(? & ? & _)|(_ & d' & [= <-] & Hl')]; [done|].
              congruence.
      * split; [done|]. intros [(? & ? & _)|(_ & ? & ? & _)]; done.
  - intros e. destruct (get_session_info session_id).
    + destruct (negb _); [by intros [= <-]|done].
    + destruct (match get_session_info_from_db session_id with
                | Some d => _ | None => _ end); [by intros [= <-]|done].
  - by intros info db' ->.
Qed.

(** ** What a trim returns *)

Lemma index_in_range {A} (l : list A) i :
  0 ≤ i → i < len l → is_Some (index l i).
Proof.
  intros H0 Hi. unfold index.
  replace ((0 <=? i) && (i <? len l)) with true
    by (symmetry; apply andb_true_iff; split;
        [apply Z.leb_le|apply Z.ltb_lt]; lia).
  apply lookup_lt_is_Some. unfold len in Hi. lia.
Qed.

(** X26: a trim that returns keeps a suffix of the history that is the
    whole history or starts at a user message, so it removes whole leading
    rounds only; and a trim raises exactly when the round limit [-k] is
    negative and the history has at most [k] rounds, the error being
    IndexError. *)
Theorem trim_outcome (h : list LLMMessage) (R B : Z) :
  (∀ h', trim h R B = Ok h' →
     ∃ n, h' = drop n h
          ∧ (n = 0%nat ∨ ∃ u, h !! n = Some u ∧ is_user u = true)
          ∧ sum_chars h' ≤ sum_chars h
          ∧ (count_rounds h' ≤ count_rounds h)%nat)
  ∧ (∀ e, trim h R B = Raise e
          ↔ e = IndexError ∧ R < 0 ∧ Z.of_nat (count_rounds h) ≤ - R).
Proof.
  split.
  - intros h' Ht. destruct (trim_cut h R B h' Ht) as (n & -> & Hcut).
    exists n. split; [done|]. split; [exact Hcut|]. split.
    + pose proof (sum_chars_take_drop n h).
      pose proof (sum_chars_nonneg (take n h)). lia.
    + pose proof (count_rounds_take_drop n h). lia.
  - intros e. split.
    + intros Ht. destruct (decide (0 ≤ R)) as [HR|HR].
      { destruct (trim_spec h R B HR) as (n & Hn & _). congruence. }
      unfold trim, round_trim in Ht.
      destruct (len (round_starts h) >? R) eqn:Hgt; [|done].
      destruct (index (round_starts h) (- R)) as [trim_from|] eqn:Hidx;
        [done|].
      injection Ht as <-. split; [done|]. split; [lia|].
      destruct (decide (- R < len (round_starts h))) as [Hin|Hout].
      * destruct (index_in_range (round_starts h) (- R)) as [x Hx];
          [lia|done|congruence].
      * unfold len in Hout. rewrite length_round_starts in Hout. lia.
    + intros (-> & HR & Hc). unfold trim, round_trim.
      replace (len (round_starts h) >? R) with true
        by (symmetry; apply Z.gtb_lt; unfold len; lia).
      rewrite index_beyond; [done|].
      unfold len. rewrite length_round_starts. lia.
Qed.

(** ** Tool rounds of a turn *)

Section ToolRounds.
Context {W : Type} `{Collaborators W}.

Lemma answers_request_nothing tcs tools :
  answers tcs tools →
  filter (fun m => requests_tools m = true) tools = [].
Proof.
  intros Ha. apply filter_none.
  apply answers_tools in Ha. eapply Forall_impl; [exact Ha|].
  intros m [Ht _]. simpl. unfold requests_tools.
  by rewrite (is_tool_not_assistant m Ht).
Qed.

Lemma tool_loop_rounds n tds msgs (s : DA.t W) msgs' s' :
  DA.tool_loop n tds msgs s = (Ok msgs', s') →
  ∃ produced,
    msgs' = msgs ++ produced
    ∧ (length (filter (fun m => requests_tools m = true) produced) ≤ n)%nat
    ∧ (truthy tds = false → produced = []).
Proof.
  revert msgs s. induction n as [|n IH]; intros msgs s.
  - intros [= <- <-]. exists []. by rewrite app_nil_r.
  - rewrite tool_loop_S. destruct (truthy tds) eqn:Htds; simpl negb; cbv iota.
    2:{ intros [= <- <-]. exists []. rewrite app_nil_r.
        split; [done|]. split; [simpl; lia|done]. }
    destruct (chat_complete _ _ _) as [[resp|e] w']; [|done].
    destruct (truthy_opt (resp_tool_calls resp)) eqn:Htc; simpl negb;
      cbv iota.
    2:{ intros [= <- <-]. exists []. rewrite app_nil_r.
        split; [done|]. split; [simpl; lia|done]. }
    cbv zeta. intros Hl. apply IH in Hl as (produced & -> & Hn & _).
    eexists. split; [by rewrite <- app_assoc|]. split; [|done].
    rewrite <- app_comm_cons, filter_cons, filter_app.
    rewrite (answers_request_nothing _ _ (tool_results_answers _ w')).
    destruct (decide _); simpl; lia.
Qed.

(** X27: a completed turn stores at most five assistant messages that
    carry tool calls, and none, nor any tool message, when the skill set
    offers no tool definition. *)
Theorem tool_rounds_bounded (s : DA.t W) task reply s' :
  DA.execute_task task s = (Ok reply, s') →
  ∃ produced n,
    DA.conversation_history s'
    = drop n (DA.conversation_history s)
      ++ plain_message USER task :: map DA.stored produced
      ++ final_message reply
    ∧ Forall (fun m => requests_tools m = true ∨ is_tool m = true) produced
    ∧ (length (filter (fun m => requests_tools m = true) produced) ≤ 5)%nat
    ∧ (truthy (get_tool_definitions (DA.world s)) = false → produced = []).
Proof.
  intros Hex.
  destruct (execute_task_ok task s reply s' Hex)
    as (produced & s1 & chunks & n & Hloop & _ & _ & Hg & _ & _ & Hh).
  destruct (tool_loop_rounds _ _ _ _ _ _ Hloop) as (produced' & Heq & Hn & H0).
  apply app_inv_head in Heq as <-.
  exists produced, n. split; [exact Hh|]. split; [|done].
  clear -Hg. induction Hg as [|a tcs tools rest Ha Htc Ht Hans _ IH];
    [constructor|].
  constructor.
  - left. unfold requests_tools. by rewrite Ha, Htc.
  - apply Forall_app. split; [|done].
    apply answers_tools in Hans. eapply Forall_impl; [exact Hans|].
    intros m [Hm _]. by right.
Qed.

End ToolRounds.

Lemma tool_rounds_bounded_witness :
  ∃ produced n,
    DA.conversation_history search_turn.2
    = drop n (DA.conversation_history (DA.init search_world))
      ++ plain_message USER search_task :: map DA.stored produced
      ++ final_message (lit "final")
    ∧ Forall (fun m => requests_tools m = true ∨ is_tool m = true) produced
    ∧ (length (filter (fun m => requests_tools m = true) produced) ≤ 5)%nat
    ∧ (truthy (get_tool_definitions (DA.world (DA.init search_world))) = false
       → produced = []).
Proof.
  apply (tool_rounds_bounded (DA.init search_world) search_task
           (lit "final") search_turn.2).
  vm_compute. reflexivity.
Defined.

(** ** What a follow-up turn is shown *)

Section FollowUp.
Context {W : Type} `{Collaborators W}.

(** X28: the turn that follows a completed turn shows the provider the
    whole round stored for the first one, that is its user message, its tool
    chain as stored and its reply if any, after the rounds kept before it and
    before the new user message. *)
Theorem follow_up_sees_previous_round (s : DA.t W) t1 r1 s1 w t2 r2 s2 :
  DA.execute_task t1 s = (Ok r1, s1) →
  DA.execute_task t2 (DA.with_world s1 w) = (Ok r2, s2) →
  ∃ kept produced1 produced2 s' chunks,
    DA.conversation_history s1 = kept ++ new_round t1 produced1 r1
    ∧ DA.tool_loop DA.max_tool_rounds (get_tool_definitions w)
        ([plain_message SYSTEM SYSTEM_PROMPT] ++ kept
         ++ new_round t1 produced1 r1 ++ [plain_message USER t2])
        (DA.with_world s1 w)
      = (Ok ([plain_message SYSTEM SYSTEM_PROMPT] ++ kept
             ++ new_round t1 produced1 r1 ++ plain_message USER t2
             :: produced2), s')
    ∧ chat ([plain_message SYSTEM SYSTEM_PROMPT] ++ kept
            ++ new_round t1 produced1 r1 ++ plain_message USER t2
            :: produced2) (DA.world s')
      = (Ok chunks, DA.world s2)
    ∧ r2 = concat chunks.
Proof.
  intros H1 H2.
  destruct (execute_task_ok t1 s r1 s1 H1)
    as (produced1 & _ & _ & n & _ & _ & _ & _ & _ & _ & Hh1).
  destruct (execute_task_ok t2 _ r2 s2 H2)
    as (produced2 & s' & chunks & _ & Hloop & Hchat & Hr & _).
  exists (drop n (DA.conversation_history s)), produced1, produced2, s',
    chunks.
  split; [exact Hh1|].
  change (DA.conversation_history (DA.with_world s1 w))
    with (DA.conversation_history s1) in *.
  change (DA.world (DA.with_world s1 w)) with w in *.
  rewrite Hh1 in Hloop, Hchat.
  set (kept := drop n (DA.conversation_history s)) in *.
  set (round := new_round t1 produced1 r1) in *.
  assert (Ht : transcript (kept ++ round) t2
               = [plain_message SYSTEM SYSTEM_PROMPT] ++ kept ++ round
                 ++ [plain_message USER t2])
    by (unfold transcript; by rewrite <- !app_assoc).
  assert (Hp : transcript (kept ++ round) t2 ++ produced2
               = [plain_message SYSTEM SYSTEM_PROMPT] ++ kept ++ round
                 ++ plain_message USER t2 :: produced2)
    by (unfold transcript; by rewrite <- !app_assoc).
  rewrite Hp in Hloop, Hchat. rewrite Ht in Hloop. done.
Qed.

End FollowUp.

Lemma follow_up_sees_previous_round_witness :
  ∃ kept produced1 produced2 s' chunks,
    DA.conversation_history search_turn.2
    = kept ++ new_round search_task produced1 (lit "final")
    ∧ DA.tool_loop DA.max_tool_rounds
        (get_tool_definitions (DA.world search_turn.2))
        ([plain_message SYSTEM SYSTEM_PROMPT] ++ kept
         ++ new_round search_task produced1 (lit "final")
         ++ [plain_message USER follow_up_task])
        (DA.with_world search_turn.2 (DA.world search_turn.2))
      = (Ok ([plain_message SYSTEM SYSTEM_PROMPT] ++ kept
             ++ new_round search_task produced1 (lit "final")
             ++ plain_message USER follow_up_task :: produced2), s')
    ∧ chat ([plain_message SYSTEM SYSTEM_PROMPT] ++ kept
            ++ new_round search_task produced1 (lit "final")
            ++ plain_message USER follow_up_task :: produced2) (DA.world s')
      = (Ok chunks, DA.world follow_up_turn.2)
    ∧ NO_MORE_RESPONSES = concat chunks.
Proof.
  apply (follow_up_sees_previous_round (DA.init search_world) search_task
           (lit "final") search_turn.2 (DA.world search_turn.2)
           follow_up_task NO_MORE_RESPONSES follow_up_turn.2).
  - vm_compute. reflexivity.
  - vm_compute. reflexivity.
Defined.

(** ** Nothing is dropped within the bounds *)

(** X29: with a round limit of at least 1, a trim returns the history
    unchanged exactly when the history has at most that many rounds and
    either fits the budget or has at most two rounds. *)
Theorem trim_identity_iff_within_bounds (h : list LLMMessage) (R B : Z) :
  1 ≤ R →
  (trim h R B = Ok h
   ↔ Z.of_nat (count_rounds h) ≤ R
     ∧ (sum_chars h ≤ B ∨ (count_rounds h ≤ 2)%nat)).
Proof.
  intros HR. split.
  - intros Ht.
    destruct (trim_spec h R B) as (n & Hn & _ & Hr & Hb); [lia|].
    rewrite Hn in Ht. injection Ht as Ht. rewrite Ht in Hr, Hb. split.
    + destruct Hr as [Hr|[-> _]]; [done|lia].
    + apply andb_false_iff in Hb as [Hb|Hb]; rewrite Z.gtb_ltb in Hb;
        apply Z.ltb_ge in Hb; [by left|right; lia].
  - intros [Hc Hb]. apply trim_fixpoint; [by left|].
    apply andb_false_iff. destruct Hb as [Hb|Hb].
    + left. rewrite Z.gtb_ltb. apply Z.ltb_ge. lia.
    + right. rewrite Z.gtb_ltb. apply Z.ltb_ge. lia.
Qed.

Lemma trim_identity_iff_within_bounds_witness :
  trim three_short_rounds 3 100 = Ok three_short_rounds
  ↔ Z.of_nat (count_rounds three_short_rounds) ≤ 3
    ∧ (sum_chars three_short_rounds ≤ 100
       ∨ (count_rounds three_short_rounds ≤ 2)%nat).
Proof.
  apply (trim_identity_iff_within_bounds three_short_rounds 3 100). done.
Defined.

Section WithinBounds.
Context {W : Type} `{Collaborators W}.

(** X30: a completed turn appends its round and drops nothing as long as
    the history had fewer than six rounds and, with the new round, holds at
    most 24000 characters or at most two rounds. *)
Theorem turn_drops_nothing_within_bounds (s : DA.t W) task reply s' :
  DA.execute_task task s = (Ok reply, s') →
  ∃ produced n,
    DA.conversation_history s'
    = drop n (DA.conversation_history s) ++ new_round task produced reply
    ∧ ((count_rounds (DA.conversation_history s) < 6)%nat →
       sum_chars (DA.conversation_history s)
       + sum_chars (new_round task produced reply) ≤ MAX_HISTORY_CHARS
       ∨ (count_rounds (DA.conversation_history s) < 2)%nat →
       DA.conversation_history s'
       = DA.conversation_history s ++ new_round task produced reply).
Proof.
  intros Hex.
  destruct (execute_task_ok task s reply s' Hex)
    as (produced & s1 & chunks & n & Hloop & _ & _ & Hg & _ & _ & Hh).
  exists produced, n. split; [exact Hh|]. intros H6 Hb.
  destruct (execute_task_trim task s reply s' produced s1 Hex Hloop)
    as [_ Ht].
  assert (H1 : count_rounds (new_round task produced reply) = 1%nat).
  { apply count_rounds_round.
    apply (turn_round_is_round (task, new_round task produced reply)).
    by apply new_round_turn_round. }
  rewrite trim_fixpoint in Ht.
  - by injection Ht as <-.
  - left. rewrite count_rounds_app, H1. lia.
  - rewrite sum_chars_app, count_rounds_app, H1.
    apply andb_false_iff. destruct Hb as [Hb|Hb].
    + left. rewrite Z.gtb_ltb. apply Z.ltb_ge. lia.
    + right. rewrite Z.gtb_ltb. apply Z.ltb_ge. lia.
Qed.

End WithinBounds.

Lemma turn_drops_nothing_within_bounds_witness :
  ∃ produced n,
    DA.conversation_history follow_up_turn.2
    = drop n (DA.conversation_history search_turn.2)
      ++ new_round follow_up_task produced NO_MORE_RESPONSES
    ∧ ((count_rounds (DA.conversation_history search_turn.2) < 6)%nat →
       sum_chars (DA.conversation_history search_turn.2)
       + sum_chars (new_round follow_up_task produced NO_MORE_RESPONSES)
       ≤ MAX_HISTORY_CHARS
       ∨ (count_rounds (DA.conversation_history search_turn.2) < 2)%nat →
       DA.conversation_history follow_up_turn.2
       = DA.conversation_history search_turn.2
         ++ new_round follow_up_task produced NO_MORE_RESPONSES).
Proof.
  apply (turn_drops_nothing_within_bounds
           (DA.with_world search_turn.2 (DA.world search_turn.2))
           follow_up_task NO_MORE_RESPONSES follow_up_turn.2).
  vm_compute. reflexivity.
Defined.
